(** * FoamStudio: the OpenFOAM document-symbol provider

    A shallow embedding of [OpenFOAMSymbolProvider.provideDocumentSymbols]
    (src/foamstudio/src/extension.ts) and the properties of its outline
    tree: the line classifier with its five patterns, the block-span
    resolver [findClosingBracket], the tree assembler [pushSymbol] and the
    main loop.

    Conventions of the embedding.
    - A JavaScript string is a [string]: the code units are restricted to
      the range 0..255, which covers every character the five patterns
      name.
    - A [TextDocument] is the list of its lines; line numbers and the brace
      counter are [Z] (the counter goes negative on a stray closer).
    - An operation of the host that throws ([lineAt] out of range, the
      [DocumentSymbol] constructor on an empty name or on a selection range
      outside the full range) returns [Throw] in the [result] monad.
    - [DocumentSymbol] objects are shared by reference between the result
      array, the [children] arrays and the assembler's stack: they live in a
      store (a list indexed by allocation order) and the arrays hold
      references into it.
    - A JavaScript array keeps its index order: [push] appends at the end,
      [pop] removes the last element.
    - A [for] loop over line numbers is a recursion on the number of lines
      left to visit. *)

From Stdlib Require Import ZArith Ascii String Bool Lia Sorting.Sorted.
From stdpp Require Import base tactics option list sorting.

Local Open Scope string_scope.
Local Open Scope list_scope.
Local Open Scope Z_scope.

(** ** Results of operations that may throw *)

Inductive result (A : Type) : Type :=
| Ok (a : A)
| Throw (msg : string).
Arguments Ok {A} a.
Arguments Throw {A} msg.

Definition bind {A B : Type} (m : result A) (f : A -> result B) : result B :=
  match m with
  | Ok a => f a
  | Throw msg => Throw msg
  end.

Notation "'let*' x ':=' m 'in' k" := (bind m (fun x => k))
  (at level 10, x name, m at level 100, k at level 200).

(** ** JavaScript string operations used by the provider *)

Module Js.

(** White space of [String.prototype.trim] and of the class [\s], below
    code unit 256: TAB, LF, VT, FF, CR, SPACE and NBSP. *)
Definition isSpace (c : ascii) : bool :=
  let n := nat_of_ascii c in
  ((9 <=? n)%nat && (n <=? 13)%nat) || (n =? 32)%nat || (n =? 160)%nat.

Definition isLower (c : ascii) : bool :=
  let n := nat_of_ascii c in (97 <=? n)%nat && (n <=? 122)%nat.

Definition isUpper (c : ascii) : bool :=
  let n := nat_of_ascii c in (65 <=? n)%nat && (n <=? 90)%nat.

Definition isDigit (c : ascii) : bool :=
  let n := nat_of_ascii c in (48 <=? n)%nat && (n <=? 57)%nat.

(** [[a-zA-Z]] *)
Definition isLetter (c : ascii) : bool := isLower c || isUpper c.

(** [\w] *)
Definition isWord (c : ascii) : bool :=
  isLetter c || isDigit c || Ascii.eqb c "_".

Fixpoint trimStart (s : string) : string :=
  match s with
  | EmptyString => EmptyString
  | String c s' => if isSpace c then trimStart s' else s
  end.

Fixpoint trimEnd (s : string) : string :=
  match s with
  | EmptyString => EmptyString
  | String c s' =>
      match trimEnd s' with
      | EmptyString => if isSpace c then EmptyString else String c EmptyString
      | t => String c t
      end
  end.

Definition trim (s : string) : string := trimEnd (trimStart s).

(** [s.startsWith(p)] *)
Definition startsWith (s p : string) : bool := String.prefix p s.

(** [s.includes(c)] for a one-character needle. *)
Fixpoint includes (s : string) (c : ascii) : bool :=
  match s with
  | EmptyString => false
  | String x s' => Ascii.eqb x c || includes s' c
  end.

(** [s.endsWith(c)] for a one-character needle. *)
Fixpoint endsWith (s : string) (c : ascii) : bool :=
  match s with
  | EmptyString => false
  | String x EmptyString => Ascii.eqb x c
  | String _ s' => endsWith s' c
  end.

(** [(s.match(new RegExp('\\' + c, 'g')) || []).length]: the number of
    occurrences of the character [c] in [s]. *)
Fixpoint countChar (s : string) (c : ascii) : Z :=
  match s with
  | EmptyString => 0
  | String x s' => (if Ascii.eqb x c then 1 else 0) + countChar s' c
  end.

(** [a.includes(x)] on an array of strings. *)
Definition arrayIncludes (a : list string) (x : string) : bool :=
  existsb (String.eqb x) a.

End Js.

(** ** Regular expressions

    The fragment of ECMAScript patterns that the five patterns of the
    provider are written in: anchors, literals, classes, sequence, ordered
    alternation, greedy [*] and [+] on a class, numbered groups. The matcher
    is the backtracking one of the language: an alternative or a shorter
    repetition is tried only when what follows fails. *)

Module Regex.

Inductive t : Type :=
| Eps                              (* the empty pattern *)
| Bos                              (* ^ *)
| Eos                              (* $ *)
| Lit (c : ascii)
| Cls (p : ascii -> bool)
| Seq (r1 r2 : t)
| Alt (r1 r2 : t)
| Star (p : ascii -> bool)         (* class*  greedy *)
| Plus (p : ascii -> bool)         (* class+  greedy *)
| Grp (n : nat) (r : t).

(** A literal word, and the n-ary sequence and alternation. *)
Fixpoint Str (s : string) : t :=
  match s with
  | EmptyString => Eps
  | String c s' => Seq (Lit c) (Str s')
  end.

Fixpoint seqs (rs : list t) : t :=
  match rs with
  | [] => Eps
  | r :: rs' => Seq r (seqs rs')
  end.

Fixpoint alts (r : t) (rs : list t) : t :=
  match rs with
  | [] => r
  | r' :: rs' => Alt r (alts r' rs')
  end.

(** Captured groups, most recent first. *)
Definition captures := list (nat * string).

Fixpoint group (n : nat) (caps : captures) : option string :=
  match caps with
  | [] => None
  | (m, s) :: caps' => if (m =? n)%nat then Some s else group n caps'
  end.

(** Case folding of the flag [i], on the letters the patterns spell. *)
Definition canonicalize (c : ascii) : ascii :=
  if Js.isLower c then ascii_of_nat (nat_of_ascii c - 32) else c.

Definition sameChar (icase : bool) (a b : ascii) : bool :=
  if icase then Ascii.eqb (canonicalize a) (canonicalize b) else Ascii.eqb a b.

Definition cont := nat -> string -> captures -> option captures.

(** Greedy repetition of a class: the longest run first, then shorter. *)
Fixpoint star (p : ascii -> bool) (pos : nat) (s : string) (caps : captures)
    (k : cont) : option captures :=
  match s with
  | String c s' =>
      if p c then
        match star p (S pos) s' caps k with
        | Some res => Some res
        | None => k pos s caps
        end
      else k pos s caps
  | EmptyString => k pos s caps
  end.

(** [run icase r pos s caps k]: match [r] against [s], the input from
    position [pos] on, then continue with [k]. *)
Fixpoint run (icase : bool) (r : t) (pos : nat) (s : string) (caps : captures)
    (k : cont) : option captures :=
  match r with
  | Eps => k pos s caps
  | Bos => if (pos =? 0)%nat then k pos s caps else None
  | Eos => match s with EmptyString => k pos s caps | _ => None end
  | Lit c =>
      match s with
      | String x s' => if sameChar icase c x then k (S pos) s' caps else None
      | EmptyString => None
      end
  | Cls p =>
      match s with
      | String x s' => if p x then k (S pos) s' caps else None
      | EmptyString => None
      end
  | Seq r1 r2 =>
      run icase r1 pos s caps (fun pos' s' caps' => run icase r2 pos' s' caps' k)
  | Alt r1 r2 =>
      match run icase r1 pos s caps k with
      | Some res => Some res
      | None => run icase r2 pos s caps k
      end
  | Star p => star p pos s caps k
  | Plus p =>
      match s with
      | String x s' => if p x then star p (S pos) s' caps k else None
      | EmptyString => None
      end
  | Grp n r' =>
      run icase r' pos s caps
        (fun pos' s' caps' =>
           k pos' s' ((n, String.substring 0 (pos' - pos) s) :: caps'))
  end.

(** [RegExp.prototype.exec] without the flags [g] and [y]: the first start
    position, from 0 on, at which the pattern matches. *)
Fixpoint execFrom (icase : bool) (r : t) (pos : nat) (s : string)
    : option captures :=
  match run icase r pos s [] (fun _ _ caps => Some caps) with
  | Some caps => Some caps
  | None =>
      match s with
      | EmptyString => None
      | String _ s' => execFrom icase r (S pos) s'
      end
  end.

Definition exec (icase : bool) (r : t) (s : string) : option captures :=
  execFrom icase r 0 s.

End Regex.

(** ** The host's value types (the part of the editor API the provider uses) *)

Module Position.
Record t : Type := mk { line : Z; character : Z }.

Definition isBefore (a b : t) : bool :=
  (line a <? line b) || ((line a =? line b) && (character a <? character b)).
End Position.

Module Range.
Record t : Type := mk { start : Position.t; end_ : Position.t }.

(** [new Range(a, b)]: the two positions, the earlier one first. *)
Definition new (a b : Position.t) : t :=
  if Position.isBefore b a then mk b a else mk a b.

Definition containsPosition (r : t) (p : Position.t) : bool :=
  negb (Position.isBefore p (start r)) && negb (Position.isBefore (end_ r) p).

Definition contains (r s : t) : bool :=
  containsPosition r (start s) && containsPosition r (end_ s).
End Range.

Module SymbolKind.
(** The members of the host's enumeration that the provider names. *)
Inductive t : Type :=
| File | Class | Interface | Property | Constant | Array | Object | Struct.
End SymbolKind.

(** A reference to a [DocumentSymbol] object: its index in the store. *)
Abbreviation ref := nat.

Module DocumentSymbol.
Record t : Type := mk {
  name : string;
  detail : string;
  kind : SymbolKind.t;
  range : Range.t;
  selectionRange : Range.t;
  children : list ref
}.

(** [new DocumentSymbol(name, detail, kind, range, selectionRange)]: the
    constructor validates its object and starts with no children. *)
Definition new (name detail : string) (kind : SymbolKind.t)
    (range selectionRange : Range.t) : result t :=
  if String.eqb name "" then Throw "name must not be falsy"
  else if negb (Range.contains range selectionRange)
  then Throw "selectionRange must be contained in fullRange"
  else Ok (mk name detail kind range selectionRange []).

(** [symbol.children.push(child)] *)
Definition pushChild (child : ref) (symbol : t) : t :=
  mk (name symbol) (detail symbol) (kind symbol) (range symbol)
     (selectionRange symbol) (children symbol ++ [child]).
End DocumentSymbol.

Module TextLine.
Record t : Type := mk {
  text : string;
  range : Range.t;
  firstNonWhitespaceCharacterIndex : nat
}.
End TextLine.

(** A document is the sequence of its lines. *)
Abbreviation TextDocument := (list string).

Definition lineCount (document : TextDocument) : Z :=
  Z.of_nat (List.length document).

(** The number of leading white-space characters (the whole length on a
    line of white space only). *)
Fixpoint firstNonWhitespace (s : string) : nat :=
  match s with
  | EmptyString => 0
  | String c s' => if Js.isSpace c then S (firstNonWhitespace s') else 0
  end.

(** The line object of line [j], whose text is [s]: its range runs from
    column 0 to the length of the text. *)
Definition textLine (j : Z) (s : string) : TextLine.t :=
  TextLine.mk s
    (Range.mk (Position.mk j 0) (Position.mk j (Z.of_nat (String.length s))))
    (firstNonWhitespace s).

(** [document.lineAt(j)]; the host throws on a line number out of range. *)
Definition lineAt (document : TextDocument) (j : Z) : result TextLine.t :=
  if (0 <=? j) && (j <? lineCount document) then
    match document !! Z.to_nat j with
    | Some s => Ok (textLine j s)
    | None => Throw "Illegal value for `line`"
    end
  else Throw "Illegal value for `line`".

(** ** The provider's patterns

    Each pattern is shown above its definition with spaces between its
    tokens. *)

Record pattern : Type := Pattern { source : Regex.t; ignoreCase : bool }.

(** [text.match(p)] for a pattern without the flag [g]. *)
Definition matchPattern (text : string) (p : pattern) : option Regex.captures :=
  Regex.exec (ignoreCase p) (source p) text.

(** [match[n]] of a successful match; [undefined] is no string. *)
Definition matchGroup (m : Regex.captures) (n : nat) : result string :=
  match Regex.group n m with
  | Some s => Ok s
  | None => Throw "undefined group"
  end.

Import Regex(Bos, Eos, Lit, Cls, Seq, Alt, Star, Plus, Grp, Str, seqs, alts).

(** ^ ( edges | faces | points | internalField | boundary ) \s* ( \{ | $ | ; )
    with the flag i. *)
Definition EDGES_REGEX : pattern :=
  Pattern
    (seqs [Bos;
           Grp 1 (alts (Str "edges")
                    [Str "faces"; Str "points"; Str "internalField";
                     Str "boundary"]);
           Star Js.isSpace;
           Grp 2 (alts (Lit "{") [Eos; Lit ";"])])
    true.

(** ^ ( [a-zA-Z] [\w]* ) \s* ( \{ | $ ) *)
Definition NAMED_BLOCK_REGEX : pattern :=
  Pattern
    (seqs [Bos;
           Grp 1 (Seq (Cls Js.isLetter) (Star Js.isWord));
           Star Js.isSpace;
           Grp 2 (Alt (Lit "{") Eos)])
    false.

(** ^ ( \w+ ) \s* \( $ *)
Definition LIST_REGEX : pattern :=
  Pattern
    (seqs [Bos; Grp 1 (Plus Js.isWord); Star Js.isSpace; Lit "("; Eos])
    false.

(** ^ ( \w+ ) \s+ \[ ( [^\]]+ ) \] \s* ; *)
Definition DICT_REGEX : pattern :=
  Pattern
    (seqs [Bos;
           Grp 1 (Plus Js.isWord);
           Plus Js.isSpace;
           Lit "[";
           Grp 2 (Plus (fun c => negb (Ascii.eqb c "]")));
           Lit "]";
           Star Js.isSpace;
           Lit ";"])
    false.

(** ^ ( [a-zA-Z] [\w.]* ) \s+ ( [^;{}]+ ) ; *)
Definition KV_REGEX : pattern :=
  Pattern
    (seqs [Bos;
           Grp 1 (Seq (Cls Js.isLetter)
                      (Star (fun c => Js.isWord c || Ascii.eqb c ".")));
           Plus Js.isSpace;
           Grp 2 (Plus (fun c => negb (Ascii.eqb c ";" || Ascii.eqb c "{"
                                       || Ascii.eqb c "}")));
           Lit ";"])
    false.

(** ** The provider *)

(** An entry of the assembler's stack. *)
Module StackEntry.
Record t : Type := mk { symbol : ref; indent : nat }.
End StackEntry.

(** What [provideDocumentSymbols] holds while it scans: the store of the
    [DocumentSymbol] objects created so far, and its two arrays. *)
Record ScanState : Type := {
  heap : list DocumentSymbol.t;
  symbols : list ref;
  stack : list StackEntry.t
}.

Definition initialState : ScanState :=
  {| heap := []; symbols := []; stack := [] |}.

(** The [while] loop of [pushSymbol]; it runs at most once per entry. *)
Fixpoint popLoop (fuel : nat) (stack : list StackEntry.t) (indent : nat)
    : list StackEntry.t :=
  match fuel with
  | O => stack
  | S fuel' =>
      match last stack with
      | Some top =>
          if (indent <=? StackEntry.indent top)%nat
          then popLoop fuel' (removelast stack) indent
          else stack
      | None => stack
      end
  end.

(** [pushSymbol(symbol, indent)], on the reference [symbol]. *)
Definition pushSymbol (st : ScanState) (symbol : ref) (indent : nat)
    : ScanState :=
  let stack1 := popLoop (List.length (stack st)) (stack st) indent in
  match last stack1 with
  | Some top =>
      {| heap := alter (DocumentSymbol.pushChild symbol)
                       (StackEntry.symbol top) (heap st);
         symbols := symbols st;
         stack := stack1 ++ [StackEntry.mk symbol indent] |}
  | None =>
      {| heap := heap st;
         symbols := symbols st ++ [symbol];
         stack := stack1 ++ [StackEntry.mk symbol indent] |}
  end.

(** The [for] loop of [findClosingBracket], with [n] lines left to visit
    from line [j] on. *)
Fixpoint findClosingBracketFrom (document : TextDocument)
    (openChar closeChar : ascii) (n : nat) (j : Z) (open : Z) : result Z :=
  match n with
  | O => Ok (lineCount document - 1)
  | S n' =>
      let* l := lineAt document j in
      let line := TextLine.text l in
      if (open =? 0) && String.eqb (Js.trim line) (String openChar "") then
        findClosingBracketFrom document openChar closeChar n' (j + 1) 1
      else
        let open1 :=
          if (open =? 0) && Js.startsWith (Js.trim line) (String openChar "")
          then 1 else open in
        let openMatches := Js.countChar line openChar in
        let closeMatches := Js.countChar line closeChar in
        let open2 := open1 + openMatches - closeMatches in
        if open2 =? 0 then Ok j
        else findClosingBracketFrom document openChar closeChar n' (j + 1) open2
  end.

Definition findClosingBracket (document : TextDocument) (startLine : Z)
    (openChar closeChar : ascii) (initialCount : Z) : result Z :=
  findClosingBracketFrom document openChar closeChar
    (Z.to_nat (lineCount document - startLine)) startLine initialCount.

(** [new vscode.Range(line.range.start, document.lineAt(endLine).range.end)] *)
Definition spanTo (document : TextDocument) (line : TextLine.t) (endLine : Z)
    : result Range.t :=
  let* l := lineAt document endLine in
  Ok (Range.new (Range.start (TextLine.range line))
                (Range.end_ (TextLine.range l))).

(** A trimmed line that the scan passes over: blank, or a comment opener. *)
Definition isBlankOrComment (text : string) : bool :=
  String.eqb text "" || Js.startsWith text "//" || Js.startsWith text "/*".

(** The look-ahead of the named-block branch, with [n] lines left to visit
    from line [j] on. *)
Fixpoint foundOpeningBraceFrom (document : TextDocument) (n : nat) (j : Z)
    : result bool :=
  match n with
  | O => Ok false
  | S n' =>
      let* l := lineAt document j in
      let nextLine := Js.trim (TextLine.text l) in
      if String.eqb nextLine "{" || Js.startsWith nextLine "{" then Ok true
      else if negb (String.eqb nextLine "") && negb (Js.startsWith nextLine "//")
              && negb (Js.startsWith nextLine "/*")
      then Ok false
      else foundOpeningBraceFrom document n' (j + 1)
  end.

Definition foundOpeningBrace (document : TextDocument) (i : Z) : result bool :=
  foundOpeningBraceFrom document
    (Z.to_nat (Z.min (i + 5) (lineCount document) - (i + 1))) (i + 1).

(** The look-ahead of the [FoamFile] branch. *)
Fixpoint foamFileEndFrom (document : TextDocument) (n : nat) (j : Z)
    (endLine : Z) : result Z :=
  match n with
  | O => Ok endLine
  | S n' =>
      let* l := lineAt document j in
      if Js.includes (TextLine.text l) "{" then
        findClosingBracket document j "{" "}" 0
      else if negb (String.eqb (Js.trim (TextLine.text l)) "")
              && negb (Js.startsWith (Js.trim (TextLine.text l)) "//")
      then Ok endLine
      else foamFileEndFrom document n' (j + 1) endLine
  end.

(** The classification of line [i]: the chain of branches of the loop body,
    from the first pattern to the last. [None] is a line that creates no
    symbol (a [continue], or [symbol] left [null]). *)
Definition classify (document : TextDocument) (i : Z) (line : TextLine.t)
    (text : string) : result (option DocumentSymbol.t) :=
  match matchPattern text EDGES_REGEX with
  | Some m =>
      let* name := matchGroup m 1 in
      if Js.endsWith text ";" && negb (Js.includes text "{") then Ok None
      else
        let* endLine :=
          findClosingBracket document (i + 1) "{" "}"
            (if Js.includes text "{" then 1 else 0) in
        let* range := spanTo document line endLine in
        let* symbol :=
          DocumentSymbol.new name name SymbolKind.Struct range
            (TextLine.range line) in
        Ok (Some symbol)
  | None =>
  match matchPattern text NAMED_BLOCK_REGEX with
  | Some m =>
      let* name := matchGroup m 1 in
      let* found :=
        if negb (Js.includes text "{") then foundOpeningBrace document i
        else Ok true in
      if negb found then Ok None
      else
        let* endLine :=
          findClosingBracket document (i + 1) "{" "}"
            (if Js.includes text "{" then 1 else 0) in
        let '(symbolKind, detail) :=
          if Js.arrayIncludes
               ["boundary"; "faces"; "points"; "edges"; "internalField"] name
          then (SymbolKind.Struct, name)
          else if Js.arrayIncludes
                    ["frontAndBack"; "inlet"; "outlet"; "walls"; "symmetry"]
                    name
          then (SymbolKind.Interface, "boundary")
          else (SymbolKind.Object, "block") in
        let* range := spanTo document line endLine in
        let* symbol :=
          DocumentSymbol.new name detail symbolKind range
            (TextLine.range line) in
        Ok (Some symbol)
  | None =>
  match matchPattern text LIST_REGEX with
  | Some m =>
      let* name := matchGroup m 1 in
      let* endLine := findClosingBracket document (i + 1) "(" ")" 1 in
      let* range := spanTo document line endLine in
      let* symbol :=
        DocumentSymbol.new name "list" SymbolKind.Array range
          (TextLine.range line) in
      Ok (Some symbol)
  | None =>
  if String.eqb text "FoamFile" then
    let* endLine :=
      if Js.includes text "{" then findClosingBracket document (i + 1) "{" "}" 1
      else
        foamFileEndFrom document
          (Z.to_nat (lineCount document - (i + 1))) (i + 1) i in
    let* range := spanTo document line endLine in
    let* symbol :=
      DocumentSymbol.new "FoamFile" "header" SymbolKind.File range
        (TextLine.range line) in
    Ok (Some symbol)
  else
  match matchPattern text DICT_REGEX with
  | Some m =>
      let* name := matchGroup m 1 in
      let* units := matchGroup m 2 in
      let* symbol :=
        DocumentSymbol.new name ("[" ++ Js.trim units ++ "]")
          SymbolKind.Constant (TextLine.range line) (TextLine.range line) in
      Ok (Some symbol)
  | None =>
  match matchPattern text KV_REGEX with
  | Some m =>
      let* name := matchGroup m 1 in
      let* raw := matchGroup m 2 in
      let value := Js.trim raw in
      let symbolKind :=
        if String.eqb name "class" || String.eqb name "object"
        then SymbolKind.Class
        else if String.eqb name "version" || String.eqb name "format"
        then SymbolKind.Constant
        else if String.eqb name "location" then SymbolKind.File
        else SymbolKind.Property in
      let* symbol :=
        DocumentSymbol.new name value symbolKind (TextLine.range line)
          (TextLine.range line) in
      Ok (Some symbol)
  | None => Ok None
  end end end end end.

(** One iteration of the main loop. The object that [classify] creates
    enters the store, and its reference goes to [pushSymbol]. *)
Definition loopBody (document : TextDocument) (i : Z) (st : ScanState)
    : result ScanState :=
  let* line := lineAt document i in
  let text := Js.trim (TextLine.text line) in
  let indent := TextLine.firstNonWhitespaceCharacterIndex line in
  if isBlankOrComment text then Ok st
  else
    let* created := classify document i line text in
    match created with
    | Some symbol =>
        let r := List.length (heap st) in
        Ok (pushSymbol {| heap := heap st ++ [symbol];
                          symbols := symbols st;
                          stack := stack st |} r indent)
    | None => Ok st
    end.

(** [n] iterations of the main loop from line [i] on. *)
Fixpoint mainLoop (document : TextDocument) (n : nat) (i : Z) (st : ScanState)
    : result ScanState :=
  match n with
  | O => Ok st
  | S n' =>
      let* st' := loopBody document i st in
      mainLoop document n' (i + 1) st'
  end.

(** The state after the first [n] iterations of the main loop. *)
Definition scanPrefix (document : TextDocument) (n : nat) : result ScanState :=
  mainLoop document n 0 initialState.

(** The entry point returns the array [symbols]; its elements are references,
    so the store comes with it. *)
Definition provideDocumentSymbols (document : TextDocument)
    : result (list DocumentSymbol.t * list ref) :=
  let* st := scanPrefix document (List.length document) in
  Ok (heap st, symbols st).

(** ** Reading the result

    The symbol that line [i] creates, if any (the loop body without
    [pushSymbol]), and the tree below a reference of the returned store. *)

Definition symbolOfLine (document : TextDocument) (i : Z)
    : result (option DocumentSymbol.t) :=
  let* line := lineAt document i in
  let text := Js.trim (TextLine.text line) in
  if isBlankOrComment text then Ok None
  else classify document i line text.

#[local] Set Warnings "-register-all".
Inductive SymbolTree : Type :=
| Node (name detail : string) (kind : SymbolKind.t)
       (range selectionRange : Range.t) (children : list SymbolTree).

Fixpoint treeOf (fuel : nat) (h : list DocumentSymbol.t) (r : ref)
    : list SymbolTree :=
  match fuel with
  | O => []
  | S fuel' =>
      match h !! r with
      | Some s =>
          [Node (DocumentSymbol.name s) (DocumentSymbol.detail s)
                (DocumentSymbol.kind s) (DocumentSymbol.range s)
                (DocumentSymbol.selectionRange s)
                (concat (map (treeOf fuel' h) (DocumentSymbol.children s)))]
      | None => []
      end
  end.

(** The outline that the host displays. *)
Definition outline (res : list DocumentSymbol.t * list ref) : list SymbolTree :=
  concat (map (treeOf (List.length (fst res)) (fst res)) (snd res)).

(** * Specification-level definitions *)

(** ** A declarative reading of the patterns *)

Module RegexSpec.
Import Regex.

(** [matches ic r pos s caps pos' s' caps']: from position [pos], where the
    input left is [s], the pattern [r] can consume up to position [pos'],
    leaving [s'], and turn the captures [caps] into [caps']. *)
Inductive matches (ic : bool)
  : t -> nat -> string -> captures -> nat -> string -> captures -> Prop :=
| M_Eps pos s caps : matches ic Eps pos s caps pos s caps
| M_Bos s caps : matches ic Bos 0 s caps 0 s caps
| M_Eos pos caps : matches ic Eos pos "" caps pos "" caps
| M_Lit c x pos s caps :
    sameChar ic c x = true ->
    matches ic (Lit c) pos (String x s) caps (S pos) s caps
| M_Cls p x pos s caps :
    p x = true ->
    matches ic (Cls p) pos (String x s) caps (S pos) s caps
| M_Seq r1 r2 pos s caps pos1 s1 caps1 pos2 s2 caps2 :
    matches ic r1 pos s caps pos1 s1 caps1 ->
    matches ic r2 pos1 s1 caps1 pos2 s2 caps2 ->
    matches ic (Seq r1 r2) pos s caps pos2 s2 caps2
| M_AltL r1 r2 pos s caps pos' s' caps' :
    matches ic r1 pos s caps pos' s' caps' ->
    matches ic (Alt r1 r2) pos s caps pos' s' caps'
| M_AltR r1 r2 pos s caps pos' s' caps' :
    matches ic r2 pos s caps pos' s' caps' ->
    matches ic (Alt r1 r2) pos s caps pos' s' caps'
| M_Star0 p pos s caps : matches ic (Star p) pos s caps pos s caps
| M_StarS p x pos s caps pos' s' caps' :
    p x = true ->
    matches ic (Star p) (S pos) s caps pos' s' caps' ->
    matches ic (Star p) pos (String x s) caps pos' s' caps'
| M_Plus p x pos s caps pos' s' caps' :
    p x = true ->
    matches ic (Star p) (S pos) s caps pos' s' caps' ->
    matches ic (Plus p) pos (String x s) caps pos' s' caps'
| M_Grp n r pos s caps pos' s' caps' :
    matches ic r pos s caps pos' s' caps' ->
    matches ic (Grp n r) pos s caps pos' s'
      ((n, String.substring 0 (pos' - pos) s) :: caps').

End RegexSpec.

(** ** Created symbols *)

(** What a symbol looks like when line [line] creates it. *)
Definition fresh (line : TextLine.t) (symbol : DocumentSymbol.t) : Prop :=
  DocumentSymbol.children symbol = [] /\
  DocumentSymbol.selectionRange symbol = TextLine.range line /\
  DocumentSymbol.name symbol <> "".

(** ** The shape of the scan state *)

(** The line that defines a symbol: where its selection range starts. *)
Definition definingLine (s : DocumentSymbol.t) : Z :=
  Position.line (Range.start (DocumentSymbol.selectionRange s)).

Definition withoutChildren (s : DocumentSymbol.t) : DocumentSymbol.t :=
  DocumentSymbol.mk (DocumentSymbol.name s) (DocumentSymbol.detail s)
    (DocumentSymbol.kind s) (DocumentSymbol.range s)
    (DocumentSymbol.selectionRange s) [].

(** The symbols that the lines before line [n] create, in line order. *)
Fixpoint createdBefore (document : TextDocument) (n : nat)
    : list DocumentSymbol.t :=
  match n with
  | O => []
  | S n' =>
      createdBefore document n' ++
      match symbolOfLine document (Z.of_nat n') with
      | Ok (Some s) => [s]
      | _ => []
      end
  end.

(** The references held by the result: the root array, then every
    [children] array, object by object. *)
Definition placements (h : list DocumentSymbol.t) (roots : list ref) : list ref :=
  roots ++ concat (map DocumentSymbol.children h).

Record WellFormed (st : ScanState) : Prop := {
  wf_stack_sorted :
    StronglySorted lt (map StackEntry.indent (stack st));
  wf_stack_refs :
    Forall (fun e => (StackEntry.symbol e < List.length (heap st))%nat)
           (stack st);
  wf_once :
    placements (heap st) (symbols st) ≡ₚ seq 0 (List.length (heap st));
  wf_parent :
    forall p node c,
      heap st !! p = Some node -> c ∈ DocumentSymbol.children node ->
      (p < c)%nat;
  wf_roots_sorted : StronglySorted lt (symbols st);
  wf_children_sorted :
    Forall (fun node => StronglySorted lt (DocumentSymbol.children node))
           (heap st)
}.

(** The references of the tree below [r], in pre-order: [r], then the
    trees below its children, in the order of the [children] array. *)
Fixpoint preorder (fuel : nat) (h : list DocumentSymbol.t) (r : ref)
    : list ref :=
  match fuel with
  | O => []
  | S fuel' =>
      match h !! r with
      | Some s =>
          r :: concat (map (preorder fuel' h) (DocumentSymbol.children s))
      | None => []
      end
  end.

(** The returned tree, flattened: the root sequence together with all
    descendant children. *)
Definition flatten (h : list DocumentSymbol.t) (roots : list ref) : list ref :=
  concat (map (preorder (List.length h) h) roots).

(** [Spine h siblings l]: the references [l] go down the right edge of the
    forest: the first is the last of [siblings], the next is the last child
    of the first, and so on. *)
Inductive Spine (h : list DocumentSymbol.t) : list ref -> list ref -> Prop :=
| Spine_nil siblings : Spine h siblings []
| Spine_cons siblings s node l :
    last siblings = Some s ->
    h !! s = Some node ->
    Spine h (DocumentSymbol.children node) l ->
    Spine h siblings (s :: l).

(** The stack is an initial part of the right edge of the forest, and the
    forest, flattened, lists the store in creation order. *)
Definition Rightmost (st : ScanState) : Prop :=
  Spine (heap st) (symbols st) (map StackEntry.symbol (stack st)) /\
  flatten (heap st) (symbols st) = seq 0 (List.length (heap st)).

(** The invariant of the main loop before line [n]: the state is well
    formed, the store holds, in creation order, the symbols of the lines
    before [n] (each with the children it has received so far), and the
    stack runs down the right edge of the forest. *)
Definition Invariant (document : TextDocument) (n : nat) (st : ScanState)
    : Prop :=
  WellFormed st /\
  map withoutChildren (heap st) = createdBefore document n /\
  Rightmost st.

(** ** Readings of the claims *)

(** Siblings in document order: an earlier element of the array is defined
    on an earlier line. *)
Definition siblingsInOrder (h : list DocumentSymbol.t) (siblings : list ref)
    : Prop :=
  forall a b ra rb,
    (a < b)%nat -> siblings !! a = Some ra -> siblings !! b = Some rb ->
    exists sa sb,
      h !! ra = Some sa /\ h !! rb = Some sb /\
      definingLine sa < definingLine sb.

(** The indents of the stack, from the bottom entry to the top one. *)
Definition stackIndents (st : ScanState) : list nat :=
  map StackEntry.indent (stack st).

(** The symbol of a one-line construct on line [i], whose text is [s]. *)
Definition lineSymbol (i : Z) (s : string) (name detail : string)
    (kind : SymbolKind.t) : DocumentSymbol.t :=
  DocumentSymbol.mk name detail kind (TextLine.range (textLine i s))
    (TextLine.range (textLine i s)) [].

(** The open count of the block-span resolver after it has visited a line,
    and the counts after each of the lines it visits in turn. *)
Definition countAfter (openChar closeChar : ascii) (open : Z) (line : string)
    : Z :=
  if (open =? 0) && String.eqb (Js.trim line) (String openChar "") then 1
  else
    (if (open =? 0) && Js.startsWith (Js.trim line) (String openChar "")
     then 1 else open)
    + Js.countChar line openChar - Js.countChar line closeChar.

Fixpoint openCounts (openChar closeChar : ascii) (open : Z)
    (lines : list string) : list Z :=
  match lines with
  | [] => []
  | line :: rest =>
      let open' := countAfter openChar closeChar open line in
      open' :: openCounts openChar closeChar open' rest
  end.

(** The look-ahead of the named-block branch, read off the loop: among the
    four lines after line [i], the first one that is neither blank nor a
    comment, if there is one, decides. *)
Definition nextSignificant (document : TextDocument) (i : Z) : option string :=
  List.find (fun t => negb (isBlankOrComment t))
    (map Js.trim (firstn 4 (skipn (Z.to_nat (i + 1)) document))).

Definition opensBlockAhead (document : TextDocument) (i : Z) : bool :=
  match nextSignificant document i with
  | Some t => Js.startsWith t "{"
  | None => false
  end.

(** The look-ahead as the specification words it: blank and comment lines
    do not count, and any of the first four other lines may start with the
    brace. *)
Definition specOpensBlockAhead (document : TextDocument) (i : Z) : bool :=
  existsb (fun t => Js.startsWith t "{")
    (firstn 4
       (List.filter (fun t => negb (isBlankOrComment t))
          (map Js.trim (skipn (Z.to_nat (i + 1)) document)))).

(** ** Readings of the rest of the code *)

(** The two name tables of the named-block branch. *)
Definition reservedNames : list string :=
  ["boundary"; "faces"; "points"; "edges"; "internalField"].

Definition patchNames : list string :=
  ["frontAndBack"; "inlet"; "outlet"; "walls"; "symmetry"].

(** What the kind of a symbol says about its name and its detail. *)
Definition kindTable (s : DocumentSymbol.t) : Prop :=
  match DocumentSymbol.kind s with
  | SymbolKind.Struct => DocumentSymbol.detail s = DocumentSymbol.name s
  | SymbolKind.Interface =>
      DocumentSymbol.detail s = "boundary" /\
      Js.arrayIncludes patchNames (DocumentSymbol.name s) = true
  | SymbolKind.Object =>
      DocumentSymbol.detail s = "block" /\
      Js.arrayIncludes reservedNames (DocumentSymbol.name s) = false /\
      Js.arrayIncludes patchNames (DocumentSymbol.name s) = false
  | SymbolKind.Array => DocumentSymbol.detail s = "list"
  | SymbolKind.Constant =>
      DocumentSymbol.name s = "version" \/ DocumentSymbol.name s = "format" \/
      exists units,
        DocumentSymbol.detail s = ("[" ++ Js.trim units ++ "]")%string
  | SymbolKind.Class =>
      DocumentSymbol.name s = "class" \/ DocumentSymbol.name s = "object"
  | SymbolKind.File => DocumentSymbol.name s = "location"
  | SymbolKind.Property =>
      ~ In (DocumentSymbol.name s)
          ["class"; "object"; "version"; "format"; "location"]
  end.

(** The kinds of the constructs that stay on their line. *)
Definition singleLineKind (k : SymbolKind.t) : bool :=
  match k with
  | SymbolKind.Constant | SymbolKind.Class | SymbolKind.File
  | SymbolKind.Property => true
  | _ => false
  end.

(** [spansLines document i e s]: the symbol [s] is selected on line [i],
    and its range runs from the start of line [i] to the end of line [e],
    both lines of the document, [e] not before [i]. *)
Definition spansLines (document : TextDocument) (i e : Z)
    (s : DocumentSymbol.t) : Prop :=
  exists si se,
    0 <= i <= e /\
    document !! Z.to_nat i = Some si /\ document !! Z.to_nat e = Some se /\
    DocumentSymbol.selectionRange s = TextLine.range (textLine i si) /\
    DocumentSymbol.range s
    = Range.mk (Position.mk i 0) (Position.mk e (Z.of_nat (String.length se))).

(** The indent of the line that defines a symbol. *)
Definition indentOf (document : TextDocument) (s : DocumentSymbol.t) : nat :=
  match document !! Z.to_nat (definingLine s) with
  | Some l => firstNonWhitespace l
  | None => 0%nat
  end.

(** How the forest follows the indents: the stack holds the symbols that
    no later symbol has closed, a child is indented more than its parent,
    and no symbol between a parent and its child, or before a root, is
    indented less than the child, or the root. *)
Record Nesting (document : TextDocument) (st : ScanState) : Prop := {
  nest_stack :
    Forall (fun e =>
              exists node,
                heap st !! StackEntry.symbol e = Some node /\
                StackEntry.indent e = indentOf document node)
           (stack st);
  nest_closed :
    forall q node,
      heap st !! q = Some node ->
      q ∉ map StackEntry.symbol (stack st) ->
      exists q' node',
        (q < q')%nat /\ heap st !! q' = Some node' /\
        (indentOf document node' <= indentOf document node)%nat;
  nest_parent :
    forall p node r child,
      heap st !! p = Some node -> r ∈ DocumentSymbol.children node ->
      heap st !! r = Some child ->
      (indentOf document node < indentOf document child)%nat /\
      forall q mid,
        (p < q < r)%nat -> heap st !! q = Some mid ->
        (indentOf document child <= indentOf document mid)%nat;
  nest_root :
    forall r root,
      r ∈ symbols st -> heap st !! r = Some root ->
      forall q mid,
        (q < r)%nat -> heap st !! q = Some mid ->
        (indentOf document root <= indentOf document mid)%nat
}.

(** The position of the first 0 in a list of open counts. *)
Fixpoint firstZero (counts : list Z) : option nat :=
  match counts with
  | [] => None
  | c :: rest => if c =? 0 then Some 0%nat else S <$> firstZero rest
  end.

(** Strings all of whose characters are in a class, and the characters of
    the names that the patterns capture: those of [\w], and the dot. *)
Fixpoint allChars (q : ascii -> bool) (s : string) : bool :=
  match s with
  | EmptyString => true
  | String c s' => q c && allChars q s'
  end.

Definition nameChar (c : ascii) : bool := Js.isWord c || Ascii.eqb c ".".

(** The characters of the raw value of a key-value line: [[^;{}]]. *)
Definition valueChar (c : ascii) : bool :=
  negb (Ascii.eqb c ";" || Ascii.eqb c "{" || Ascii.eqb c "}").

(** A test that holds of all 256 characters. *)
Definition allAscii (P : ascii -> bool) : bool :=
  forallb (fun n => P (ascii_of_nat n)) (seq 0 256).

(** [consumes ic r q]: every character that the pattern [r] can consume is
    in the class [q]; [capturesOnly ic n r q]: so is every character that a
    group [n] of [r] can consume. *)
Fixpoint consumes (ic : bool) (r : Regex.t) (q : ascii -> bool) : bool :=
  match r with
  | Regex.Eps | Regex.Bos | Regex.Eos => true
  | Regex.Lit c => allAscii (fun x => implb (Regex.sameChar ic c x) (q x))
  | Regex.Cls p | Regex.Star p | Regex.Plus p =>
      allAscii (fun x => implb (p x) (q x))
  | Regex.Seq r1 r2 | Regex.Alt r1 r2 => consumes ic r1 q && consumes ic r2 q
  | Regex.Grp _ r' => consumes ic r' q
  end.

Fixpoint capturesOnly (ic : bool) (n : nat) (r : Regex.t) (q : ascii -> bool)
    : bool :=
  match r with
  | Regex.Seq r1 r2 | Regex.Alt r1 r2 =>
      capturesOnly ic n r1 q && capturesOnly ic n r2 q
  | Regex.Grp m r' =>
      capturesOnly ic n r' q && (negb (m =? n)%nat || consumes ic r' q)
  | _ => true
  end.

(** [noGroup n r]: the pattern [r] has no group [n]. *)
Fixpoint noGroup (n : nat) (r : Regex.t) : bool :=
  match r with
  | Regex.Seq r1 r2 | Regex.Alt r1 r2 => noGroup n r1 && noGroup n r2
  | Regex.Grp m r' => negb (m =? n)%nat && noGroup n r'
  | _ => true
  end.

(** The five patterns, in the order in which the classifier tries them. *)
Definition patterns : list pattern :=
  [EDGES_REGEX; NAMED_BLOCK_REGEX; LIST_REGEX; DICT_REGEX; KV_REGEX].

(** * Properties *)

(** ** The matcher is sound for the declarative reading of the patterns *)

Module RegexFacts.
Import Regex RegexSpec.

Lemma star_sound ic p (k : cont) res :
  forall s pos caps,
    star p pos s caps k = Some res ->
    exists pos' s' caps',
      matches ic (Star p) pos s caps pos' s' caps' /\ k pos' s' caps' = Some res.
Proof.
  induction s as [|x s IH]; intros pos caps H; simpl in H.
  - exists pos, "", caps. split; [constructor | exact H].
  - destruct (p x) eqn:Hp.
    + destruct (star p (S pos) s caps k) as [res'|] eqn:Hs.
      * injection H as <-. apply IH in Hs as (pos' & s' & caps' & Hm & Hk).
        exists pos', s', caps'. split; [|exact Hk]. by apply M_StarS.
      * exists pos, (String x s), caps. split; [constructor | exact H].
    + exists pos, (String x s), caps. split; [constructor | exact H].
Qed.

Lemma run_sound ic r :
  forall pos s caps (k : cont) res,
    run ic r pos s caps k = Some res ->
    exists pos' s' caps',
      matches ic r pos s caps pos' s' caps' /\ k pos' s' caps' = Some res.
Proof.
  induction r as [| | |c|p|r1 IH1 r2 IH2|r1 IH1 r2 IH2|p|p|n r IH];
    intros pos s caps k res H; simpl in H.
  - exists pos, s, caps. split; [constructor | exact H].
  - destruct (pos =? 0)%nat eqn:Hpos; [|discriminate].
    apply Nat.eqb_eq in Hpos as ->.
    exists 0%nat, s, caps. split; [constructor | exact H].
  - destruct s; [|discriminate].
    exists pos, "", caps. split; [constructor | exact H].
  - destruct s as [|x s]; [discriminate|].
    destruct (sameChar ic c x) eqn:Hc; [|discriminate].
    exists (S pos), s, caps. split; [by constructor | exact H].
  - destruct s as [|x s]; [discriminate|].
    destruct (p x) eqn:Hp; [|discriminate].
    exists (S pos), s, caps. split; [by constructor | exact H].
  - apply IH1 in H as (pos1 & s1 & caps1 & Hm1 & H).
    apply IH2 in H as (pos2 & s2 & caps2 & Hm2 & H).
    exists pos2, s2, caps2. split; [by econstructor | exact H].
  - destruct (run ic r1 pos s caps k) as [res'|] eqn:H1.
    + injection H as <-. apply IH1 in H1 as (pos' & s' & caps' & Hm & Hk).
      exists pos', s', caps'. split; [by apply M_AltL | exact Hk].
    + apply IH2 in H as (pos' & s' & caps' & Hm & Hk).
      exists pos', s', caps'. split; [by apply M_AltR | exact Hk].
  - by apply star_sound.
  - destruct s as [|x s]; [discriminate|].
    destruct (p x) eqn:Hp; [|discriminate].
    apply (star_sound ic) in H as (pos' & s' & caps' & Hm & Hk).
    exists pos', s', caps'. split; [by apply M_Plus | exact Hk].
  - apply IH in H as (pos' & s' & caps' & Hm & Hk).
    eexists pos', s', _. split; [by apply M_Grp | exact Hk].
Qed.

Lemma execFrom_sound ic r s :
  forall pos caps,
    execFrom ic r pos s = Some caps ->
    exists pos0 s0 pos' s', matches ic r pos0 s0 [] pos' s' caps.
Proof.
  induction s as [|x s IH]; intros pos caps H; simpl in H.
  - destruct (run ic r pos "" [] _) as [res|] eqn:Hr; [|discriminate].
    injection H as <-. apply run_sound in Hr as (pos' & s' & caps' & Hm & Hk).
    injection Hk as ->. by exists pos, "", pos', s'.
  - destruct (run ic r pos (String x s) [] _) as [res|] eqn:Hr.
    + injection H as <-. apply run_sound in Hr as (pos' & s' & caps' & Hm & Hk).
      injection Hk as ->. by exists pos, (String x s), pos', s'.
    + by apply IH in H.
Qed.

Lemma matches_pos_le ic r pos s caps pos' s' caps' :
  matches ic r pos s caps pos' s' caps' -> (pos <= pos')%nat.
Proof. induction 1; lia. Qed.

(** A group whose body consumes at least one character captures a non-empty
    string. *)
Lemma substring_nonempty x s n : (0 < n)%nat -> String.substring 0 n (String x s) <> "".
Proof. destruct n; [lia|]. simpl. discriminate. Qed.

End RegexFacts.

Module PatternFacts.
Import Regex RegexSpec RegexFacts.

Lemma matches_Star ic p pos s caps pos' s' caps' :
  matches ic (Star p) pos s caps pos' s' caps' ->
  caps' = caps /\ (pos <= pos')%nat.
Proof.
  intros H. remember (Star p) as r eqn:Hr.
  induction H; try discriminate; injection Hr as ->.
  - split; [reflexivity | lia].
  - destruct IHmatches as [-> ?]; [reflexivity|]. split; [reflexivity | lia].
Qed.

(** Inversion of [matches] along the constructors of a concrete pattern. *)
Ltac inv_matches :=
  repeat match goal with
  | H : matches _ (Seq _ _) _ _ _ _ _ _ |- _ => inversion H; subst; clear H
  | H : matches _ (Alt _ _) _ _ _ _ _ _ |- _ => inversion H; subst; clear H
  | H : matches _ (Grp _ _) _ _ _ _ _ _ |- _ => inversion H; subst; clear H
  | H : matches _ (Lit _) _ _ _ _ _ _ |- _ => inversion H; subst; clear H
  | H : matches _ (Cls _) _ _ _ _ _ _ |- _ => inversion H; subst; clear H
  | H : matches _ (Plus _) _ _ _ _ _ _ |- _ => inversion H; subst; clear H
  | H : matches _ Bos _ _ _ _ _ _ |- _ => inversion H; subst; clear H
  | H : matches _ Eos _ _ _ _ _ _ |- _ => inversion H; subst; clear H
  | H : matches _ Eps _ _ _ _ _ _ |- _ => inversion H; subst; clear H
  | H : matches _ (Star _) _ _ _ _ _ _ |- _ =>
      apply matches_Star in H as [-> H]
  end.

Ltac nonempty_capture :=
  first [ discriminate | apply substring_nonempty; lia ].

Ltac group_nonempty :=
  unfold matchGroup; simpl; eexists; split; [reflexivity | nonempty_capture].

Lemma EDGES_REGEX_name text m :
  matchPattern text EDGES_REGEX = Some m ->
  exists name, matchGroup m 1 = Ok name /\ name <> "".
Proof.
  intros H. apply execFrom_sound in H as (pos0 & s0 & pos' & s' & H).
  simpl in H. inv_matches; group_nonempty.
Qed.

Lemma NAMED_BLOCK_REGEX_name text m :
  matchPattern text NAMED_BLOCK_REGEX = Some m ->
  exists name, matchGroup m 1 = Ok name /\ name <> "".
Proof.
  intros H. apply execFrom_sound in H as (pos0 & s0 & pos' & s' & H).
  simpl in H. inv_matches; group_nonempty.
Qed.

Lemma LIST_REGEX_name text m :
  matchPattern text LIST_REGEX = Some m ->
  exists name, matchGroup m 1 = Ok name /\ name <> "".
Proof.
  intros H. apply execFrom_sound in H as (pos0 & s0 & pos' & s' & H).
  simpl in H. inv_matches; group_nonempty.
Qed.

Lemma DICT_REGEX_groups text m :
  matchPattern text DICT_REGEX = Some m ->
  exists name units,
    matchGroup m 1 = Ok name /\ name <> "" /\ matchGroup m 2 = Ok units.
Proof.
  intros H. apply execFrom_sound in H as (pos0 & s0 & pos' & s' & H).
  simpl in H. inv_matches. unfold matchGroup. simpl.
  eexists _, _. split; [reflexivity|]. split; [|reflexivity].
  nonempty_capture.
Qed.

Lemma KV_REGEX_groups text m :
  matchPattern text KV_REGEX = Some m ->
  exists name raw,
    matchGroup m 1 = Ok name /\ name <> "" /\ matchGroup m 2 = Ok raw.
Proof.
  intros H. apply execFrom_sound in H as (pos0 & s0 & pos' & s' & H).
  simpl in H. inv_matches. unfold matchGroup. simpl.
  eexists _, _. split; [reflexivity|]. split; [|reflexivity].
  nonempty_capture.
Qed.

End PatternFacts.

(** ** Access to the document *)

(** Case analysis on the integer comparisons of the goal. *)
Ltac cases_Z :=
  repeat (match goal with
          | |- context [?a <? ?b] => destruct (Z.ltb_spec a b)
          | |- context [?a =? ?b] => destruct (Z.eqb_spec a b)
          end; simpl; try lia);
  try reflexivity.

Section Document.
Variable document : TextDocument.

Lemma lineAt_inv j l :
  lineAt document j = Ok l ->
  0 <= j < lineCount document /\
  exists s, document !! Z.to_nat j = Some s /\ l = textLine j s.
Proof.
  unfold lineAt. intros H.
  destruct (0 <=? j) eqn:H0; [|discriminate].
  destruct (j <? lineCount document) eqn:H1; [|discriminate]. simpl in H.
  destruct (document !! Z.to_nat j) as [s|] eqn:Hs; [|discriminate].
  injection H as <-. split; [lia|]. by exists s.
Qed.

Lemma lineAt_Ok j :
  0 <= j < lineCount document ->
  exists s, document !! Z.to_nat j = Some s /\ lineAt document j = Ok (textLine j s).
Proof.
  intros Hj. unfold lineAt.
  destruct (lookup_lt_is_Some_2 document (Z.to_nat j)) as [s Hs].
  { unfold lineCount in Hj. lia. }
  exists s. split; [exact Hs|]. rewrite Hs.
  replace (0 <=? j) with true by lia.
  replace (j <? lineCount document) with true by lia. reflexivity.
Qed.

Lemma lineAt_lookup (k : nat) s :
  document !! k = Some s -> lineAt document (Z.of_nat k) = Ok (textLine (Z.of_nat k) s).
Proof.
  intros Hs. pose proof (lookup_lt_Some _ _ _ Hs) as Hk.
  destruct (lineAt_Ok (Z.of_nat k)) as (s' & Hs' & ->).
  { unfold lineCount. lia. }
  rewrite Nat2Z.id in Hs'. congruence.
Qed.

(** *** The block-span resolver returns a line of the document *)

Lemma findClosingBracketFrom_ok openChar closeChar :
  forall n j open,
    0 <= j -> j + Z.of_nat n <= lineCount document ->
    exists e,
      findClosingBracketFrom document openChar closeChar n j open = Ok e /\
      (j <= e < j + Z.of_nat n \/ e = lineCount document - 1).
Proof.
  induction n as [|n IH]; intros j open Hj Hn; simpl.
  - eexists. split; [reflexivity | by right].
  - destruct (lineAt_Ok j) as (s & _ & ->); [lia|]. simpl.
    destruct ((open =? 0) && String.eqb (Js.trim s) (String openChar "")).
    + destruct (IH (j + 1) 1) as (e & -> & He); [lia..|].
      exists e. split; [reflexivity | lia].
    + match goal with |- context [if ?c =? 0 then _ else _] =>
        destruct (c =? 0) end.
      * exists j. split; [reflexivity | lia].
      * match goal with |- context [findClosingBracketFrom _ _ _ _ _ ?o] =>
          destruct (IH (j + 1) o) as (e & -> & He); [lia..|] end.
        exists e. split; [reflexivity | lia].
Qed.

Lemma findClosingBracket_ok startLine openChar closeChar initialCount :
  0 <= startLine ->
  exists e,
    findClosingBracket document startLine openChar closeChar initialCount = Ok e /\
    (startLine <= e < lineCount document \/ e = lineCount document - 1).
Proof.
  intros H0. unfold findClosingBracket.
  destruct (Z.to_nat (lineCount document - startLine)) as [|n] eqn:Hn.
  - simpl. eexists. split; [reflexivity | by right].
  - destruct (findClosingBracketFrom_ok openChar closeChar (S n) startLine
                initialCount) as (e & -> & He); [lia..|].
    exists e. split; [reflexivity | lia].
Qed.

(** After a line of the document the resolver returns that line or a later
    one. *)
Lemma findClosingBracket_after i openChar closeChar initialCount :
  0 <= i < lineCount document ->
  exists e,
    findClosingBracket document (i + 1) openChar closeChar initialCount = Ok e /\
    i <= e < lineCount document.
Proof.
  intros Hi.
  destruct (findClosingBracket_ok (i + 1) openChar closeChar initialCount)
    as (e & -> & He); [lia|].
  exists e. split; [reflexivity | lia].
Qed.

(** *** Spans *)

Lemma spanTo_ok i line e :
  lineAt document i = Ok line -> i <= e < lineCount document ->
  exists r,
    spanTo document line e = Ok r /\
    Range.contains r (TextLine.range line) = true.
Proof.
  intros Hl He. apply lineAt_inv in Hl as (Hi & s & Hs & ->).
  unfold spanTo. destruct (lineAt_Ok e) as (se & Hse & ->); [lia|]. simpl.
  eexists. split; [reflexivity|].
  assert (e = i -> se = s) as Hsame by (intros ->; congruence).
  pose proof (Nat2Z.is_nonneg (String.length s)).
  pose proof (Nat2Z.is_nonneg (String.length se)).
  unfold Range.new. simpl.
  match goal with |- context [Position.isBefore ?a ?b] =>
    assert (Position.isBefore a b = false) as ->
      by (unfold Position.isBefore; simpl; cases_Z) end.
  unfold Range.contains, Range.containsPosition, Position.isBefore. simpl.
  destruct (Z.eq_dec e i) as [->|Hne]; [rewrite (Hsame eq_refl)|]; cases_Z.
Qed.

Lemma lineRange_contains j s :
  Range.contains (TextLine.range (textLine j s)) (TextLine.range (textLine j s))
  = true.
Proof.
  pose proof (Nat2Z.is_nonneg (String.length s)).
  unfold Range.contains, Range.containsPosition, Position.isBefore. simpl.
  cases_Z.
Qed.

End Document.

Lemma DocumentSymbol_new_ok name detail kind range selectionRange :
  name <> "" -> Range.contains range selectionRange = true ->
  DocumentSymbol.new name detail kind range selectionRange
  = Ok (DocumentSymbol.mk name detail kind range selectionRange []).
Proof.
  intros Hn Hc. unfold DocumentSymbol.new.
  destruct (String.eqb_spec name ""); [done|]. by rewrite Hc.
Qed.

(** ** Every line is classified without an error *)

Section Classify.
Variable document : TextDocument.
Import PatternFacts.

Lemma foundOpeningBraceFrom_ok :
  forall n j,
    0 <= j -> j + Z.of_nat n <= lineCount document ->
    exists b, foundOpeningBraceFrom document n j = Ok b.
Proof.
  induction n as [|n IH]; intros j Hj Hn; simpl.
  - by eexists.
  - destruct (lineAt_Ok document j) as (s & _ & ->); [lia|]. simpl.
    destruct (_ || _); [by eexists|].
    destruct (_ && _); [by eexists|].
    apply IH; lia.
Qed.

Lemma foundOpeningBrace_ok i :
  0 <= i -> exists b, foundOpeningBrace document i = Ok b.
Proof.
  intros Hi. unfold foundOpeningBrace.
  destruct (Z.to_nat _) as [|n] eqn:Hn; [by eexists|].
  apply foundOpeningBraceFrom_ok; lia.
Qed.

(** The branch on the literal [FoamFile] is never taken: the named-block
    pattern, tried before it, matches that text. *)
Lemma FoamFile_is_named_block text :
  String.eqb text "FoamFile" = true ->
  matchPattern text NAMED_BLOCK_REGEX <> None.
Proof. intros ->%String.eqb_eq. vm_compute. discriminate. Qed.

Lemma blockSymbol_ok i line endLine name detail kind :
  lineAt document i = Ok line -> i <= endLine < lineCount document ->
  name <> "" ->
  exists r,
    (let* range := spanTo document line endLine in
     let* symbol :=
       DocumentSymbol.new name detail kind range (TextLine.range line) in
     Ok (Some symbol)) = Ok r /\
    forall symbol, r = Some symbol -> fresh line symbol.
Proof.
  intros Hl He Hn.
  destruct (spanTo_ok document i line endLine Hl He) as (r & -> & Hc). simpl.
  rewrite DocumentSymbol_new_ok by done. simpl.
  eexists. split; [reflexivity|]. intros ? [= <-]. by repeat split.
Qed.

Lemma lineSymbol_ok i line name detail kind :
  lineAt document i = Ok line -> name <> "" ->
  exists r,
    (let* symbol :=
       DocumentSymbol.new name detail kind (TextLine.range line)
         (TextLine.range line) in
     Ok (Some symbol)) = Ok r /\
    forall symbol, r = Some symbol -> fresh line symbol.
Proof.
  intros Hl Hn. apply lineAt_inv in Hl as (_ & s & _ & ->).
  rewrite DocumentSymbol_new_ok by (done || apply lineRange_contains). simpl.
  eexists. split; [reflexivity|]. intros ? [= <-]. by repeat split.
Qed.

Lemma classify_ok i line text :
  lineAt document i = Ok line ->
  exists r,
    classify document i line text = Ok r /\
    forall symbol, r = Some symbol -> fresh line symbol.
Proof.
  intros Hl. pose proof (lineAt_inv _ _ _ Hl) as (Hi & _).
  unfold classify.
  destruct (matchPattern text EDGES_REGEX) as [m|] eqn:HE.
  { destruct (EDGES_REGEX_name _ _ HE) as (name & -> & Hname). simpl.
    destruct (_ && _); [by eexists|].
    destruct (findClosingBracket_after document i "{" "}"
                (if Js.includes text "{" then 1 else 0) Hi) as (e & -> & He).
    simpl. by eapply blockSymbol_ok. }
  destruct (matchPattern text NAMED_BLOCK_REGEX) as [m|] eqn:HN.
  { destruct (NAMED_BLOCK_REGEX_name _ _ HN) as (name & -> & Hname). simpl.
    assert (exists b,
      (if negb (Js.includes text "{") then foundOpeningBrace document i
       else Ok true) = Ok b) as (b & ->).
    { destruct (negb _); [apply foundOpeningBrace_ok; lia | by eexists]. }
    simpl. destruct b; simpl; [|by eexists].
    destruct (findClosingBracket_after document i "{" "}"
                (if Js.includes text "{" then 1 else 0) Hi) as (e & -> & He).
    simpl.
    repeat match goal with |- context [if ?c then _ else _] => destruct c end;
      by eapply blockSymbol_ok. }
  destruct (matchPattern text LIST_REGEX) as [m|] eqn:HL.
  { destruct (LIST_REGEX_name _ _ HL) as (name & -> & Hname). simpl.
    destruct (findClosingBracket_after document i "(" ")" 1 Hi)
      as (e & -> & He).
    simpl. by eapply blockSymbol_ok. }
  destruct (String.eqb text "FoamFile") eqn:HF.
  { by apply FoamFile_is_named_block in HF. }
  destruct (matchPattern text DICT_REGEX) as [m|] eqn:HD.
  { destruct (DICT_REGEX_groups _ _ HD) as (name & units & -> & Hname & ->).
    simpl. by eapply lineSymbol_ok. }
  destruct (matchPattern text KV_REGEX) as [m|] eqn:HK.
  { destruct (KV_REGEX_groups _ _ HK) as (name & raw & -> & Hname & ->).
    simpl. by eapply lineSymbol_ok. }
  by eexists.
Qed.

End Classify.

(** ** The tree assembler *)

Section Assembler.

Lemma popLoop_spec indent :
  forall fuel stack,
    (List.length stack <= fuel)%nat ->
    exists popped,
      stack = popLoop fuel stack indent ++ popped /\
      Forall (fun e => (indent <= StackEntry.indent e)%nat) popped /\
      forall top,
        last (popLoop fuel stack indent) = Some top ->
        (StackEntry.indent top < indent)%nat.
Proof.
  induction fuel as [|fuel IH]; intros stack Hlen.
  - destruct stack; [|simpl in Hlen; lia].
    exists []. simpl. repeat split; [constructor | done].
  - simpl. destruct (last stack) as [top|] eqn:Hlast.
    + destruct (indent <=? StackEntry.indent top)%nat eqn:Hcmp.
      * apply last_Some in Hlast as [kept ->].
        rewrite removelast_last.
        destruct (IH kept) as (popped & Hk & Hp & Htop).
        { rewrite length_app in Hlen. simpl in Hlen. lia. }
        exists (popped ++ [top]). split; [|split; [|exact Htop]].
        -- rewrite app_assoc. by rewrite <- Hk.
        -- apply Forall_app. split; [exact Hp|].
           constructor; [|constructor]. by apply Nat.leb_le.
      * exists []. rewrite app_nil_r. repeat split; [constructor|].
        intros top' Htop'. rewrite Hlast in Htop'. injection Htop' as <-.
        apply Nat.leb_gt in Hcmp. exact Hcmp.
    + exists []. rewrite app_nil_r. repeat split; [constructor|].
      intros top' Htop'. congruence.
Qed.

(** However many times the loop has run, it has removed entries from the
    top only. *)
Lemma popLoop_prefix indent :
  forall fuel stack, exists popped, stack = popLoop fuel stack indent ++ popped.
Proof.
  induction fuel as [|fuel IH]; intros stack; simpl.
  - exists []. by rewrite app_nil_r.
  - destruct (last stack) as [top|] eqn:Hlast;
      [|exists []; by rewrite app_nil_r].
    destruct (indent <=? StackEntry.indent top)%nat;
      [|exists []; by rewrite app_nil_r].
    apply last_Some in Hlast as [kept ->]. rewrite removelast_last.
    destruct (IH kept) as [popped Hk].
    exists (popped ++ [top]). rewrite app_assoc. by rewrite <- Hk.
Qed.

(** Below an entry of a sorted stack every entry has a smaller indent. *)
Lemma sorted_below_top (l : list nat) (x : nat) :
  StronglySorted lt l ->
  (forall top, last l = Some top -> (top < x)%nat) ->
  StronglySorted lt (l ++ [x]).
Proof.
  intros Hs Htop. apply StronglySorted_app_2; [|exact Hs|repeat constructor].
  intros a b Ha ->%list_elem_of_singleton.
  destruct (last l) as [top|] eqn:Hlast.
  - specialize (Htop top eq_refl).
    apply last_Some in Hlast as [l' ->].
    apply elem_of_app in Ha as [Ha| ->%list_elem_of_singleton]; [|exact Htop].
    assert (a < top)%nat; [|lia].
    eapply (StronglySorted_app_1_elem_of lt); [exact Hs|exact Ha|].
    by apply list_elem_of_singleton.
  - apply last_None in Hlast as ->. by apply elem_of_nil in Ha.
Qed.

Lemma last_map {A B} (f : A -> B) (l : list A) :
  last (map f l) = option_map f (last l).
Proof.
  induction l as [|x [|y l] IH]; [reflexivity..|].
  change (map f (x :: y :: l)) with (f x :: f y :: map f l).
  rewrite !last_cons_cons. exact IH.
Qed.

Lemma popLoop_sorted symbol indent stack :
  StronglySorted lt (map StackEntry.indent stack) ->
  StronglySorted lt
    (map StackEntry.indent (popLoop (List.length stack) stack indent ++
                            [StackEntry.mk symbol indent])).
Proof.
  intros Hs.
  destruct (popLoop_spec indent (List.length stack) stack) as (popped & Hk & _ & Htop);
    [lia|].
  rewrite map_app. simpl. apply sorted_below_top.
  - rewrite Hk, map_app in Hs. by apply StronglySorted_app_1_l in Hs.
  - intros top Hlast. rewrite last_map in Hlast.
    destruct (last (popLoop _ _ _)) as [e|] eqn:He; [|discriminate].
    injection Hlast as <-. by apply Htop.
Qed.

End Assembler.

Section Placements.
Implicit Types (h : list DocumentSymbol.t) (roots : list ref).

Lemma placements_alloc h roots symbol :
  DocumentSymbol.children symbol = [] ->
  placements (h ++ [symbol]) roots = placements h roots.
Proof.
  intros Hc. unfold placements.
  rewrite map_app, concat_app. simpl. by rewrite Hc, !app_nil_r.
Qed.

Lemma placements_root h roots r :
  placements h (roots ++ [r]) ≡ₚ r :: placements h roots.
Proof.
  unfold placements. rewrite <- app_assoc. simpl.
  by rewrite <- Permutation_middle.
Qed.

Lemma alter_middle {A} (f : A -> A) (l1 l2 : list A) (x : A) :
  alter f (List.length l1) (l1 ++ x :: l2) = l1 ++ f x :: l2.
Proof. induction l1 as [|y l1 IH]; [reflexivity|]. simpl. f_equal. exact IH. Qed.

Lemma placements_pushChild h roots p r :
  (p < List.length h)%nat ->
  placements (alter (DocumentSymbol.pushChild r) p h) roots
  ≡ₚ r :: placements h roots.
Proof.
  intros Hp. destruct (lookup_lt_is_Some_2 h p Hp) as [x Hx].
  pose proof (take_drop_middle h p x Hx) as Hh.
  assert (List.length (take p h) = p) as Hlen by (rewrite length_take; lia).
  revert Hh Hlen. generalize (take p h) (drop (S p) h). intros h1 h2 <- <-.
  rewrite alter_middle.
  unfold placements. rewrite !map_app, !concat_app. simpl.
  rewrite (Permutation_app_comm (DocumentSymbol.children x) [r]). simpl.
  by rewrite <- !Permutation_middle.
Qed.

Lemma placements_elem h roots p node c :
  h !! p = Some node -> c ∈ DocumentSymbol.children node ->
  c ∈ placements h roots.
Proof.
  intros Hp Hc. unfold placements. apply elem_of_app. right.
  apply list_elem_of_In, in_concat. exists (DocumentSymbol.children node).
  split; [|by apply list_elem_of_In].
  apply in_map, list_elem_of_In. by eapply list_elem_of_lookup_2.
Qed.

End Placements.

Section PushSymbol.
Variables (st : ScanState) (symbol : DocumentSymbol.t) (indent : nat).
Hypothesis Hwf : WellFormed st.
Hypothesis Hfresh : DocumentSymbol.children symbol = [].

Lemma placed_lt c :
  c ∈ placements (heap st) (symbols st) -> (c < List.length (heap st))%nat.
Proof.
  intros Hc. rewrite (wf_once st Hwf) in Hc. apply elem_of_seq in Hc. lia.
Qed.

Lemma sorted_snoc_fresh (l : list ref) :
  StronglySorted lt l ->
  (forall c, c ∈ l -> (c < List.length (heap st))%nat) ->
  StronglySorted lt (l ++ [List.length (heap st)]).
Proof.
  intros Hs Hl. apply StronglySorted_app_2; [|exact Hs|repeat constructor].
  intros a b Ha ->%list_elem_of_singleton. by apply Hl.
Qed.

Lemma pushSymbol_WellFormed :
  WellFormed
    (pushSymbol {| heap := heap st ++ [symbol];
                   symbols := symbols st;
                   stack := stack st |} (List.length (heap st)) indent).
Proof.
  destruct Hwf as [Hsorted Hrefs Honce Hparent Hroots Hchildren].
  pose proof placed_lt as Hplaced. pose proof sorted_snoc_fresh as Hsnoc.
  unfold pushSymbol. simpl.
  set (r := List.length (heap st)) in *.
  destruct (popLoop_spec indent (List.length (stack st)) (stack st))
    as (popped & Hk & _ & Htop); [lia|].
  pose proof (popLoop_sorted r indent (stack st) Hsorted) as Hsorted'.
  set (kept := popLoop (List.length (stack st)) (stack st) indent) in *.
  assert (Forall (fun e => (StackEntry.symbol e < r)%nat) kept) as Hkept.
  { rewrite Hk in Hrefs. by apply Forall_app in Hrefs as [? _]. }
  destruct (last kept) as [top|] eqn:Hlast.
  - (* the new symbol becomes the last child of the top of the stack *)
    assert (StackEntry.symbol top < r)%nat as Hp.
    { apply last_Some in Hlast as [kept' Hlast]. rewrite Hlast in Hkept.
      apply Forall_app in Hkept as [_ Hkept]. by inversion Hkept. }
    revert Hp. generalize (StackEntry.symbol top). intros p Hp.
    assert (alter (DocumentSymbol.pushChild r) p (heap st ++ [symbol])
            = alter (DocumentSymbol.pushChild r) p (heap st) ++ [symbol]) as Halt.
    { by apply alter_app_l. }
    split; simpl.
    + exact Hsorted'.
    + rewrite length_alter, length_app. simpl. apply Forall_app. split.
      * eapply Forall_impl; [exact Hkept|]. simpl. intros; lia.
      * constructor; [simpl; lia | constructor].
    + rewrite length_alter, length_app. simpl.
      rewrite Halt, placements_alloc by exact Hfresh.
      rewrite placements_pushChild by exact Hp.
      rewrite Honce. replace (List.length (heap st) + 1)%nat with (S r) by (subst r; lia).
      rewrite seq_S. simpl. apply Permutation_cons_append.
    + intros q node c Hq Hc. rewrite Halt in Hq.
      apply lookup_app_Some in Hq as [Hq|[Hlen Hq]].
      * destruct (decide (p = q)) as [<-|Hne].
        -- rewrite list_lookup_alter_eq in Hq.
           destruct (heap st !! p) as [old|] eqn:Hold; [|by inversion Hq].
           inversion Hq; subst node; clear Hq. simpl in Hc.
           apply elem_of_app in Hc as [Hc| ->%list_elem_of_singleton];
             [by eapply Hparent | exact Hp].
        -- rewrite list_lookup_alter_ne in Hq by exact Hne. by eapply Hparent.
      * apply list_lookup_singleton_Some in Hq as [_ <-].
        rewrite Hfresh in Hc. by apply elem_of_nil in Hc.
    + exact Hroots.
    + rewrite Halt. apply Forall_app. split.
      * apply Forall_lookup. intros q node Hq.
        destruct (decide (p = q)) as [<-|Hne].
        -- rewrite list_lookup_alter_eq in Hq.
           destruct (heap st !! p) as [old|] eqn:Hold; [|by inversion Hq].
           inversion Hq; subst node; clear Hq. simpl. apply sorted_snoc_fresh.
           ++ by eapply (proj1 (Forall_lookup _ _) Hchildren).
           ++ intros c Hc. apply Hplaced. by eapply placements_elem.
        -- rewrite list_lookup_alter_ne in Hq by exact Hne.
           by eapply (proj1 (Forall_lookup _ _) Hchildren).
      * constructor; [|constructor]. rewrite Hfresh. constructor.
  - (* the stack is empty: the new symbol becomes the last root *)
    split; simpl.
    + exact Hsorted'.
    + rewrite length_app. simpl. apply Forall_app. split.
      * eapply Forall_impl; [exact Hkept|]. simpl. intros; lia.
      * constructor; [simpl; lia | constructor].
    + rewrite length_app. simpl.
      rewrite placements_alloc by exact Hfresh. rewrite placements_root.
      rewrite Honce. replace (List.length (heap st) + 1)%nat with (S r) by (subst r; lia).
      rewrite seq_S. simpl. apply Permutation_cons_append.
    + intros q node c Hq Hc.
      apply lookup_app_Some in Hq as [Hq|[Hlen Hq]]; [by eapply Hparent|].
      apply list_lookup_singleton_Some in Hq as [_ <-].
      rewrite Hfresh in Hc. by apply elem_of_nil in Hc.
    + apply Hsnoc; [exact Hroots|].
      intros c Hc. apply Hplaced. unfold placements. apply elem_of_app. by left.
    + apply Forall_app. split; [exact Hchildren|].
      constructor; [|constructor]. rewrite Hfresh. constructor.
Qed.

End PushSymbol.

(** ** The stack runs down the right edge of the forest *)

Section Preorder.
Variable h : list DocumentSymbol.t.
Hypothesis Hparent :
  forall p node c,
    h !! p = Some node -> c ∈ DocumentSymbol.children node -> (p < c)%nat.

Lemma preorder_lt fuel :
  forall q x, x ∈ preorder fuel h q -> (x < List.length h)%nat.
Proof.
  induction fuel as [|fuel IH]; intros q x Hx; simpl in Hx.
  - by apply elem_of_nil in Hx.
  - destruct (h !! q) as [node|] eqn:Hq; [|by apply elem_of_nil in Hx].
    apply elem_of_cons in Hx as [->|Hx]; [by eapply lookup_lt_Some|].
    apply list_elem_of_In, in_concat in Hx as (l & Hl & Hx).
    apply in_map_iff in Hl as (c & <- & _).
    by eapply IH, list_elem_of_In.
Qed.

Lemma preorder_ge fuel :
  forall q x, x ∈ preorder fuel h q -> (q <= x)%nat.
Proof.
  induction fuel as [|fuel IH]; intros q x Hx; simpl in Hx.
  - by apply elem_of_nil in Hx.
  - destruct (h !! q) as [node|] eqn:Hq; [|by apply elem_of_nil in Hx].
    apply elem_of_cons in Hx as [->|Hx]; [lia|].
    apply list_elem_of_In, in_concat in Hx as (l & Hl & Hx).
    apply in_map_iff in Hl as (c & <- & Hc).
    apply list_elem_of_In in Hc, Hx.
    specialize (IH c x Hx). specialize (Hparent q node c Hq Hc). lia.
Qed.

(** Enough fuel is as good as more fuel. *)
Lemma preorder_fuel :
  forall f f' q,
    (List.length h - q <= f)%nat -> (List.length h - q <= f')%nat ->
    preorder f h q = preorder f' h q.
Proof.
  induction f as [|f IH]; intros f' q Hf Hf'.
  - assert (h !! q = None) as Hq by (apply lookup_ge_None; lia).
    destruct f'; simpl; [reflexivity | by rewrite Hq].
  - destruct f' as [|f'].
    + assert (h !! q = None) as Hq by (apply lookup_ge_None; lia).
      simpl. by rewrite Hq.
    + simpl. destruct (h !! q) as [node|] eqn:Hq; [|reflexivity].
      f_equal. f_equal. apply map_ext_in. intros c Hc.
      apply list_elem_of_In in Hc. specialize (Hparent q node c Hq Hc).
      apply IH; lia.
Qed.

End Preorder.

Lemma preorder_node f h r s :
  h !! r = Some s ->
  preorder (S f) h r
  = r :: concat (map (preorder f h) (DocumentSymbol.children s)).
Proof. intros H. simpl. by rewrite H. Qed.

Section Spine.
Variable h : list DocumentSymbol.t.
Hypothesis Hparent :
  forall p node c,
    h !! p = Some node -> c ∈ DocumentSymbol.children node -> (p < c)%nat.

Lemma Spine_app_l siblings l1 l2 :
  Spine h siblings (l1 ++ l2) -> Spine h siblings l1.
Proof.
  revert siblings. induction l1 as [|s l1 IH]; intros siblings H.
  - constructor.
  - inversion H; subst. econstructor; eauto.
Qed.

Lemma Spine_sorted siblings l : Spine h siblings l -> StronglySorted lt l.
Proof.
  induction 1 as [|siblings s node l Hlast Hs Hspine IH]; constructor;
    [exact IH|].
  inversion Hspine as [|? s2 node2 l2 Hlast2 _ _]; subst; constructor.
  - eapply Hparent; [exact Hs|]. by eapply last_Some_elem_of.
  - apply StronglySorted_cons in IH as [IH _].
    eapply Forall_impl; [exact IH|]. simpl. intros x Hx.
    assert (s < s2)%nat; [|lia].
    eapply Hparent; [exact Hs|]. by eapply last_Some_elem_of.
Qed.

End Spine.

(** A push: the new symbol [n] enters the store [h] and becomes the last
    child of [p], a symbol on the right edge. *)
Section Push.
Variables (h h' : list DocumentSymbol.t) (p : ref).
Variables (pnode symbol : DocumentSymbol.t).
Local Abbreviation n := (List.length h).
Hypothesis Hparent :
  forall q node c,
    h !! q = Some node -> c ∈ DocumentSymbol.children node -> (q < c)%nat.
Hypothesis Hrefs :
  forall q node c,
    h !! q = Some node -> c ∈ DocumentSymbol.children node -> (c < n)%nat.
Hypothesis Hsame : forall q, (q < n)%nat -> q <> p -> h' !! q = h !! q.

Lemma preorder_agree f :
  forall q,
    (q < n)%nat -> p ∉ preorder f h q -> preorder f h' q = preorder f h q.
Proof.
  induction f as [|f IH]; intros q Hq Hp; [reflexivity|]. simpl in *.
  destruct (lookup_lt_is_Some_2 h q) as [node Hnode]; [lia|].
  rewrite Hnode in Hp. apply not_elem_of_cons in Hp as [Hne Hp].
  rewrite Hsame, Hnode by done. f_equal. f_equal.
  apply map_ext_in. intros c Hc. apply list_elem_of_In in Hc.
  apply IH; [by eapply Hrefs|]. intros Hin. apply Hp.
  apply list_elem_of_In, in_concat. exists (preorder f h c).
  split; [|by apply list_elem_of_In]. by apply in_map, list_elem_of_In.
Qed.

Lemma preorder_agree_siblings f siblings :
  (forall c, c ∈ siblings -> (c < n)%nat) ->
  p ∉ concat (map (preorder f h) siblings) ->
  map (preorder f h') siblings = map (preorder f h) siblings.
Proof.
  intros Hlt Hp. apply map_ext_in. intros c Hc. apply list_elem_of_In in Hc.
  apply preorder_agree; [by apply Hlt|]. intros Hin. apply Hp.
  apply list_elem_of_In, in_concat. exists (preorder f h c).
  split; [|by apply list_elem_of_In]. by apply in_map, list_elem_of_In.
Qed.

Hypothesis Hp : h !! p = Some pnode.
Hypothesis Hp' : h' !! p = Some (DocumentSymbol.pushChild n pnode).
Hypothesis Hn : h' !! n = Some symbol.
Hypothesis Hfresh : DocumentSymbol.children symbol = [].

Lemma Spine_push :
  forall l siblings,
    Spine h siblings (l ++ [p]) -> Spine h' siblings (l ++ [p; n]).
Proof.
  induction l as [|s l IH]; intros siblings Hspine.
  - inversion Hspine as [|? ? node ? Hlast Hs _]; subst.
    econstructor; [exact Hlast|exact Hp'|]. simpl.
    econstructor; [apply last_snoc|exact Hn|constructor].
  - pose proof (Spine_sorted h Hparent _ _ Hspine) as Hsorted.
    inversion Hspine as [|? ? node ? Hlast Hs Hrest]; subst.
    apply StronglySorted_cons in Hsorted as [Hlt _].
    assert (s < p)%nat as Hsp.
    { eapply (proj1 (Forall_forall _ _) Hlt), elem_of_app. right.
      by apply list_elem_of_singleton. }
    assert (p < n)%nat by (by eapply lookup_lt_Some).
    econstructor; [exact Hlast| |by apply IH].
    rewrite Hsame by lia. exact Hs.
Qed.

(** Below a sibling to the left of the right edge nothing changes; below
    the right edge the new symbol comes last. *)
Lemma flatten_push :
  forall l siblings F,
    Spine h siblings (l ++ [p]) ->
    (forall c, c ∈ siblings -> (c < n)%nat) ->
    (forall s, head (l ++ [p]) = Some s -> (n + 1 - s <= F)%nat) ->
    StronglySorted lt (concat (map (preorder F h) siblings)) ->
    concat (map (preorder F h') siblings)
    = concat (map (preorder F h) siblings) ++ [n].
Proof.
  assert (p < n)%nat as Hpn by (by eapply lookup_lt_Some).
  induction l as [|s l IH]; intros siblings F Hspine Hlt Hfuel Hsorted.
  - inversion Hspine as [|? ? node ? Hlast Hs _]; subst.
    apply last_Some in Hlast as [left ->].
    specialize (Hfuel p eq_refl).
    destruct F as [|[|F]]; [lia..|].
    rewrite !map_app, !concat_app in *. cbn [map concat] in *.
    rewrite !app_nil_r in *.
    rewrite preorder_agree_siblings.
    + rewrite <- app_assoc. f_equal.
      rewrite (preorder_node _ h' p _ Hp'), (preorder_node _ h p _ Hp).
      cbn [DocumentSymbol.children DocumentSymbol.pushChild].
      rewrite map_app, concat_app. cbn [map concat].
      rewrite (preorder_node _ h' n _ Hn), Hfresh. cbn [map concat].
      rewrite app_nil_r.
      rewrite preorder_agree_siblings; [reflexivity| |].
      * intros c Hc. eapply Hrefs; [exact Hp|exact Hc].
      * intros Hin. apply list_elem_of_In, in_concat in Hin as (x & Hx & Hin).
        apply in_map_iff in Hx as (c & <- & Hc).
        apply list_elem_of_In in Hc, Hin.
        apply (preorder_ge h Hparent) in Hin.
        specialize (Hparent p pnode c Hp Hc). lia.
    + intros c Hc. apply Hlt, elem_of_app. by left.
    + intros Hin.
      assert (p < p)%nat; [|lia].
      eapply (StronglySorted_app_1_elem_of lt); [exact Hsorted|exact Hin|].
      rewrite (preorder_node _ h p _ Hp). by left.
  - pose proof (Spine_sorted h Hparent _ _ Hspine) as Hchain.
    inversion Hspine as [|? ? node ? Hlast Hs Hrest]; subst.
    apply StronglySorted_cons in Hchain as [Hchain _].
    assert (s < p)%nat as Hsp.
    { eapply (proj1 (Forall_forall _ _) Hchain), elem_of_app. right.
      by apply list_elem_of_singleton. }
    apply last_Some in Hlast as [left ->].
    specialize (Hfuel s eq_refl).
    destruct F as [|F]; [lia|].
    rewrite !map_app, !concat_app in *. cbn [map concat] in *.
    rewrite !app_nil_r in *.
    rewrite preorder_agree_siblings.
    + rewrite <- app_assoc. f_equal.
      assert (h' !! s = Some node) as Hs' by (rewrite Hsame by lia; exact Hs).
      rewrite (preorder_node _ h' s _ Hs'), (preorder_node _ h s _ Hs).
      simpl. f_equal.
      apply IH; [exact Hrest| | |].
      * intros c Hc. eapply Hrefs; [exact Hs|exact Hc].
      * intros s2 Hs2.
        assert (s < s2)%nat; [|lia].
        eapply (proj1 (Forall_forall _ _) Hchain).
        by eapply head_Some_elem_of.
      * apply StronglySorted_app_1_r in Hsorted.
        rewrite (preorder_node _ h s _ Hs) in Hsorted.
        by apply StronglySorted_cons in Hsorted as [_ ?].
    + intros c Hc. apply Hlt, elem_of_app. by left.
    + intros Hin.
      assert (p < s)%nat; [|lia].
      eapply (StronglySorted_app_1_elem_of lt); [exact Hsorted|exact Hin|].
      rewrite (preorder_node _ h s _ Hs). by left.
Qed.

End Push.

Lemma StronglySorted_seq a b : StronglySorted lt (seq a b).
Proof.
  revert a. induction b as [|b IH]; intros a; simpl; constructor; [apply IH|].
  apply Forall_forall. intros x Hx%elem_of_seq. lia.
Qed.

Section PushRightmost.
Variables (st : ScanState) (symbol : DocumentSymbol.t) (indent : nat).
Hypothesis Hwf : WellFormed st.
Hypothesis Hright : Rightmost st.
Hypothesis Hfresh : DocumentSymbol.children symbol = [].
Local Abbreviation n := (List.length (heap st)).

Lemma child_ref_lt q node c :
  heap st !! q = Some node -> c ∈ DocumentSymbol.children node ->
  (c < List.length (heap st))%nat.
Proof.
  intros Hq Hc. eapply placed_lt; [exact Hwf|]. by eapply placements_elem.
Qed.

Lemma root_ref_lt c : c ∈ symbols st -> (c < List.length (heap st))%nat.
Proof.
  intros Hc. eapply placed_lt; [exact Hwf|].
  unfold placements. apply elem_of_app. by left.
Qed.

(** With one more unit of fuel the flattened forest is the same. *)
Lemma flatten_more_fuel :
  concat (map (preorder (S (List.length (heap st))) (heap st)) (symbols st))
  = seq 0 (List.length (heap st)).
Proof.
  destruct Hright as [_ <-]. unfold flatten. f_equal.
  apply map_ext_in. intros q _.
  apply preorder_fuel; [by apply wf_parent | lia..].
Qed.

Lemma pushSymbol_Rightmost :
  Rightmost
    (pushSymbol {| heap := heap st ++ [symbol];
                   symbols := symbols st;
                   stack := stack st |} (List.length (heap st)) indent).
Proof.
  pose proof Hright as [Hspine Hflat].
  pose proof (wf_parent st Hwf) as Hparent.
  unfold pushSymbol. simpl.
  destruct (popLoop_spec indent (List.length (stack st)) (stack st))
    as (popped & Hk & _ & _); [lia|].
  set (kept := popLoop (List.length (stack st)) (stack st) indent) in *.
  rewrite Hk, map_app in Hspine. apply Spine_app_l in Hspine.
  destruct (last kept) as [top|] eqn:Hlast.
  - apply last_Some in Hlast as [kept0 Hkept]. rewrite Hkept in *.
    assert (StackEntry.symbol top < n)%nat as Hp.
    { pose proof (wf_stack_refs st Hwf) as Hrefs. rewrite Hk in Hrefs.
      apply Forall_app in Hrefs as [Hrefs _].
      apply Forall_app in Hrefs as [_ Hrefs]. by inversion Hrefs. }
    unfold Rightmost. simpl. rewrite !map_app in *. simpl in *.
    rewrite <- app_assoc. simpl.
    revert Hp Hspine.
    generalize (StackEntry.symbol top) (map StackEntry.symbol kept0).
    intros p l Hp Hspine.
    destruct (lookup_lt_is_Some_2 (heap st) p Hp) as [pnode Hpnode].
    set (h' := alter (DocumentSymbol.pushChild n) p (heap st ++ [symbol])).
    assert (forall q, (q < n)%nat -> q <> p -> h' !! q = heap st !! q) as Hsame.
    { intros q Hq Hne. unfold h'.
      rewrite list_lookup_alter_ne by done. by apply lookup_app_l. }
    assert (h' !! p = Some (DocumentSymbol.pushChild n pnode)) as Hp'.
    { unfold h'. rewrite list_lookup_alter_eq, lookup_app_l by exact Hp.
      by rewrite Hpnode. }
    assert (h' !! n = Some symbol) as Hn.
    { unfold h'. rewrite list_lookup_alter_ne by lia.
      rewrite lookup_app_r by lia.
      by replace (n - List.length (heap st))%nat with 0%nat by lia. }
    fold h'. split.
    + eapply (Spine_push (heap st) h' p pnode symbol); eauto.
    + unfold flatten.
      replace (List.length h') with (S n).
      2:{ unfold h'. rewrite length_alter, length_app. simpl. lia. }
      rewrite (flatten_push (heap st) h' p pnode symbol Hparent child_ref_lt
                 Hsame Hpnode Hp' Hn Hfresh l).
      * rewrite flatten_more_fuel.
        replace (S n) with (n + 1)%nat by lia. by rewrite seq_app.
      * exact Hspine.
      * exact root_ref_lt.
      * intros s _. lia.
      * rewrite flatten_more_fuel. apply StronglySorted_seq.
  - apply last_None in Hlast. rewrite Hlast in *. simpl.
    assert ((heap st ++ [symbol]) !! n = Some symbol) as Hn.
    { rewrite lookup_app_r by lia.
      by replace (n - List.length (heap st))%nat with 0%nat by lia. }
    split; simpl.
    + econstructor; [apply last_snoc|exact Hn|constructor].
    + unfold flatten. rewrite length_app. simpl.
      replace (List.length (heap st) + 1)%nat with (S n) by lia.
      rewrite map_app, concat_app. cbn [map concat].
      rewrite (preorder_node _ _ n _ Hn), Hfresh. cbn [map concat].
      rewrite (preorder_agree_siblings (heap st) (heap st ++ [symbol]) n
                 child_ref_lt).
      * rewrite flatten_more_fuel.
        replace (S n) with (n + 1)%nat by lia. by rewrite seq_app.
      * intros q Hq _. by apply lookup_app_l.
      * exact root_ref_lt.
      * rewrite flatten_more_fuel. intros Hin%elem_of_seq. lia.
Qed.

End PushRightmost.

(** ** The main loop *)

Section MainLoop.
Variable document : TextDocument.

Lemma symbolOfLine_ok i :
  0 <= i < lineCount document ->
  exists line r,
    lineAt document i = Ok line /\
    symbolOfLine document i = Ok r /\
    forall symbol, r = Some symbol -> fresh line symbol.
Proof.
  intros Hi. destruct (lineAt_Ok document i Hi) as (s & _ & Hl).
  exists (textLine i s). unfold symbolOfLine. rewrite Hl. simpl.
  destruct (isBlankOrComment _).
  - exists None. by repeat split.
  - destruct (classify_ok document i _ (Js.trim s) Hl) as (r & Hr & Hf).
    by exists r.
Qed.

Lemma loopBody_symbolOfLine i line st :
  lineAt document i = Ok line ->
  loopBody document i st =
  let* created := symbolOfLine document i in
  match created with
  | Some symbol =>
      Ok (pushSymbol {| heap := heap st ++ [symbol];
                        symbols := symbols st;
                        stack := stack st |}
            (List.length (heap st))
            (TextLine.firstNonWhitespaceCharacterIndex line))
  | None => Ok st
  end.
Proof.
  intros Hl. unfold loopBody, symbolOfLine. rewrite Hl. simpl.
  by destruct (isBlankOrComment _).
Qed.

Lemma map_alter_same {A B} (g : A -> B) (f : A -> A) (l : list A) :
  (forall x, g (f x) = g x) ->
  forall i, map g (alter f i l) = map g l.
Proof.
  intros Hgf. induction l as [|x l IH]; intros [|i]; simpl; [done..| |].
  - by rewrite Hgf.
  - f_equal. apply IH.
Qed.

Lemma pushSymbol_heap st symbol r indent :
  map withoutChildren
    (heap (pushSymbol {| heap := heap st ++ [symbol];
                         symbols := symbols st;
                         stack := stack st |} r indent))
  = map withoutChildren (heap st) ++ [withoutChildren symbol].
Proof.
  unfold pushSymbol. simpl. destruct (last _); simpl.
  - rewrite map_alter_same by done. by rewrite map_app.
  - by rewrite map_app.
Qed.

Lemma fresh_withoutChildren line symbol :
  fresh line symbol -> withoutChildren symbol = symbol.
Proof. destruct symbol. intros [Hc _]. simpl in Hc. by subst. Qed.

Lemma initialState_Invariant : Invariant document 0 initialState.
Proof.
  split; [|split; [reflexivity|]].
  - split; simpl; try constructor. intros p node c Hp. by destruct p.
  - split; [constructor | reflexivity].
Qed.

Lemma loopBody_Invariant (k : nat) st :
  Invariant document k st -> (k < List.length document)%nat ->
  exists st',
    loopBody document (Z.of_nat k) st = Ok st' /\ Invariant document (S k) st'.
Proof.
  intros (Hwf & Hcreated & Hright) Hk.
  destruct (symbolOfLine_ok (Z.of_nat k)) as (line & r & Hl & Hr & Hf).
  { unfold lineCount. lia. }
  rewrite (loopBody_symbolOfLine _ line) by exact Hl. rewrite Hr. simpl.
  destruct r as [symbol|].
  - specialize (Hf symbol eq_refl). pose proof Hf as (Hc & _).
    eexists. split; [reflexivity|]. split; [|split].
    + by apply pushSymbol_WellFormed.
    + rewrite pushSymbol_heap, Hcreated. simpl. rewrite Hr.
      by rewrite (fresh_withoutChildren line).
    + by apply pushSymbol_Rightmost.
  - exists st. split; [reflexivity|]. split; [exact Hwf|]. split; [|exact Hright].
    simpl. rewrite Hr. by rewrite app_nil_r.
Qed.

Lemma mainLoop_Invariant :
  forall n (k : nat) st,
    Invariant document k st -> (k + n <= List.length document)%nat ->
    exists st',
      mainLoop document n (Z.of_nat k) st = Ok st' /\
      Invariant document (k + n) st'.
Proof.
  induction n as [|n IH]; intros k st Hinv Hn; simpl.
  - exists st. split; [reflexivity|]. by rewrite Nat.add_0_r.
  - destruct (loopBody_Invariant k st Hinv) as (st1 & -> & Hinv1); [lia|].
    simpl. destruct (IH (S k) st1 Hinv1) as (st' & Hrun & Hinv'); [lia|].
    exists st'. split.
    + rewrite <- Hrun. f_equal. lia.
    + by replace (k + S n)%nat with (S k + n)%nat by lia.
Qed.

Lemma scanPrefix_Invariant n :
  (n <= List.length document)%nat ->
  exists st, scanPrefix document n = Ok st /\ Invariant document n st.
Proof.
  intros Hn. unfold scanPrefix.
  destruct (mainLoop_Invariant n 0 initialState initialState_Invariant)
    as (st & Hrun & Hinv); [lia|].
  by exists st.
Qed.

Lemma provideDocumentSymbols_Invariant :
  exists st,
    provideDocumentSymbols document = Ok (heap st, symbols st) /\
    Invariant document (List.length document) st.
Proof.
  destruct (scanPrefix_Invariant (List.length document)) as (st & Hrun & Hinv);
    [lia|].
  exists st. split; [|exact Hinv].
  unfold provideDocumentSymbols. by rewrite Hrun.
Qed.

End MainLoop.

(** ** The claims on the tree assembler *)

Lemma StronglySorted_lookup {A} (R : A -> A -> Prop) (l : list A) :
  StronglySorted R l ->
  forall a b x y, (a < b)%nat -> l !! a = Some x -> l !! b = Some y -> R x y.
Proof.
  induction 1 as [|z l Hs IH Hz]; intros a b x y Hab Ha Hb.
  - by destruct a.
  - destruct b as [|b]; [lia|]. simpl in Hb. destruct a as [|a].
    + injection Ha as <-.
      eapply (proj1 (Forall_forall _ _) Hz).
      by eapply list_elem_of_lookup_2.
    + simpl in Ha. eapply IH; [|exact Ha|exact Hb]. lia.
Qed.

Section Created.
Variable document : TextDocument.

Lemma symbolOfLine_Some i symbol :
  symbolOfLine document i = Ok (Some symbol) ->
  exists line, lineAt document i = Ok line /\ fresh line symbol.
Proof.
  intros H. unfold symbolOfLine in H.
  destruct (lineAt document i) as [line|] eqn:Hl; [|discriminate].
  exists line. split; [reflexivity|]. simpl in H.
  destruct (isBlankOrComment _); [discriminate|].
  destruct (classify_ok document i line (Js.trim (TextLine.text line)) Hl)
    as (r & Hr & Hf).
  apply Hf. congruence.
Qed.

Lemma symbolOfLine_definingLine i symbol :
  symbolOfLine document i = Ok (Some symbol) -> definingLine symbol = i.
Proof.
  intros (line & Hl & _ & Hsel & _)%symbolOfLine_Some.
  apply lineAt_inv in Hl as (_ & s & _ & ->).
  unfold definingLine. by rewrite Hsel.
Qed.

Lemma createdBefore_elem n symbol :
  symbol ∈ createdBefore document n <->
  exists k, (k < n)%nat /\ symbolOfLine document (Z.of_nat k) = Ok (Some symbol).
Proof.
  induction n as [|n IH]; simpl.
  - split; [by intros ?%elem_of_nil | intros (k & ? & _); lia].
  - rewrite elem_of_app, IH. split.
    + intros [(k & Hk & H)|H]; [exists k; split; [lia|exact H]|].
      exists n. split; [lia|].
      destruct (symbolOfLine document (Z.of_nat n)) as [[s|]|];
        [|by apply elem_of_nil in H..].
      by apply list_elem_of_singleton in H as ->.
    + intros (k & Hk & H). destruct (decide (k = n)) as [->|Hne].
      * right. rewrite H. by apply list_elem_of_singleton.
      * left. exists k. split; [lia|exact H].
Qed.

Lemma createdBefore_lines n :
  StronglySorted Z.lt (map definingLine (createdBefore document n)).
Proof.
  induction n as [|n IH]; simpl; [constructor|].
  rewrite map_app. apply StronglySorted_app_2; [|exact IH|].
  - intros x y Hx Hy.
    apply list_elem_of_In, in_map_iff in Hx as (sx & <- & Hx).
    apply list_elem_of_In, createdBefore_elem in Hx as (k & Hk & Hsx).
    apply symbolOfLine_definingLine in Hsx as ->.
    destruct (symbolOfLine document (Z.of_nat n)) as [[s|]|] eqn:Hs;
      [|by apply elem_of_nil in Hy..].
    apply list_elem_of_singleton in Hy as ->.
    apply symbolOfLine_definingLine in Hs as ->. lia.
  - destruct (symbolOfLine document (Z.of_nat n)) as [[s|]|];
      repeat constructor.
Qed.

Lemma Invariant_lines n st :
  Invariant document n st ->
  StronglySorted Z.lt (map definingLine (heap st)).
Proof.
  intros (_ & Hc & _). pose proof (createdBefore_lines n) as Hs.
  rewrite <- Hc, map_map in Hs.
  erewrite map_ext; [exact Hs|]. by intros [].
Qed.

(** References in stored order point to symbols in line order. *)
Lemma Invariant_ref_lines n st ra rb sa sb :
  Invariant document n st -> (ra < rb)%nat ->
  heap st !! ra = Some sa -> heap st !! rb = Some sb ->
  definingLine sa < definingLine sb.
Proof.
  intros Hinv Hlt Ha Hb.
  eapply (StronglySorted_lookup Z.lt _ (Invariant_lines n st Hinv) ra rb);
    [exact Hlt|..]; rewrite list_lookup_fmap; by (rewrite Ha || rewrite Hb).
Qed.

Lemma Invariant_placed n st c :
  Invariant document n st ->
  c ∈ placements (heap st) (symbols st) <-> (c < List.length (heap st))%nat.
Proof.
  intros [Hwf _]. rewrite (wf_once st Hwf), elem_of_seq. lia.
Qed.

Lemma Invariant_siblings n st siblings :
  Invariant document n st ->
  StronglySorted lt siblings ->
  (forall c, c ∈ siblings -> c ∈ placements (heap st) (symbols st)) ->
  siblingsInOrder (heap st) siblings.
Proof.
  intros Hinv Hs Hplaced a b ra rb Hab Ha Hb.
  pose proof (StronglySorted_lookup lt _ Hs a b ra rb Hab Ha Hb) as Hlt.
  destruct (lookup_lt_is_Some_2 (heap st) ra) as [sa Hsa].
  { eapply Invariant_placed; [exact Hinv|].
    by eapply Hplaced, list_elem_of_lookup_2. }
  destruct (lookup_lt_is_Some_2 (heap st) rb) as [sb Hsb].
  { eapply Invariant_placed; [exact Hinv|].
    by eapply Hplaced, list_elem_of_lookup_2. }
  exists sa, sb. repeat split; [exact Hsa|exact Hsb|].
  by eapply Invariant_ref_lines.
Qed.

End Created.

(** C4 (as stated, refuted). The claim reads the indents of the stack as
    non-increasing from bottom to top. After the two lines [a 1;] and
    [  b 2;] the stack holds the entry of indent 0 below the entry of
    indent 2. *)
Lemma stack_indents_not_non_increasing :
  ~ (forall document n st,
       scanPrefix document n = Ok st ->
       StronglySorted ge (stackIndents st)).
Proof.
  intros H.
  specialize (H ["a 1;"; "  b 2;"] 2%nat _ eq_refl).
  vm_compute in H. inversion H as [|? ? _ Hall]; subst.
  inversion Hall as [|? ? Hge _]; subst. lia.
Qed.

(** C4 (amended). At every point of a scan the indents of the stack are
    strictly increasing from bottom to top: after any number [n] of
    iterations of the main loop, and inside [pushSymbol] after any number
    of iterations of its pop loop. The pop loop enforces it: for every
    incoming indent it removes from the top the entries whose indent is not
    below the incoming one, and the entry that it leaves on top, if any, has
    an indent below the incoming one. *)
Theorem stack_indents_increasing (document : TextDocument) (n : nat) :
  (n <= List.length document)%nat ->
  exists st,
    scanPrefix document n = Ok st /\
    StronglySorted lt (stackIndents st) /\
    forall indent,
      (forall fuel,
         StronglySorted lt
           (map StackEntry.indent (popLoop fuel (stack st) indent))) /\
      let kept := popLoop (List.length (stack st)) (stack st) indent in
      (exists popped,
         stack st = kept ++ popped /\
         Forall (fun e => (indent <= StackEntry.indent e)%nat) popped) /\
      forall top, last kept = Some top -> (StackEntry.indent top < indent)%nat.
Proof.
  intros Hn.
  destruct (scanPrefix_Invariant document n Hn) as (st & Hrun & [Hwf _]).
  exists st. split; [exact Hrun|].
  pose proof (wf_stack_sorted st Hwf) as Hs. split; [exact Hs|].
  intros indent. split.
  - intros fuel. destruct (popLoop_prefix indent fuel (stack st)) as [popped Hk].
    rewrite Hk, map_app in Hs. by apply StronglySorted_app_1_l in Hs.
  - intros kept.
    destruct (popLoop_spec indent (List.length (stack st)) (stack st))
      as (popped & Hk & Hp & Htop); [lia|].
    split; [by exists popped | exact Htop].
Qed.

Lemma stack_indents_increasing_witness :
  exists st,
    scanPrefix ["a 1;"; "  b 2;"] 2 = Ok st /\
    StronglySorted lt (stackIndents st) /\
    forall indent,
      (forall fuel,
         StronglySorted lt
           (map StackEntry.indent (popLoop fuel (stack st) indent))) /\
      let kept := popLoop (List.length (stack st)) (stack st) indent in
      (exists popped,
         stack st = kept ++ popped /\
         Forall (fun e => (indent <= StackEntry.indent e)%nat) popped) /\
      forall top, last kept = Some top -> (StackEntry.indent top < indent)%nat.
Proof. apply (stack_indents_increasing ["a 1;"; "  b 2;"] 2). simpl. lia. Defined.

(** C7. For every document the scan returns a result that, flattened (the
    root sequence together with all descendant children, in pre-order),
    lists the symbols of the store in the order of their creation, which is
    the order of their defining lines. In particular every array of
    siblings, the root array and the [children] array of every symbol, is
    in document order: an element that comes earlier in the array is
    defined on an earlier line; and a child is defined on a later line than
    its parent. *)
Theorem siblings_in_document_order (document : TextDocument) :
  exists h roots,
    provideDocumentSymbols document = Ok (h, roots) /\
    flatten h roots = seq 0 (List.length h) /\
    StronglySorted Z.lt (map definingLine h) /\
    siblingsInOrder h roots /\
    (forall p node,
       h !! p = Some node -> siblingsInOrder h (DocumentSymbol.children node)) /\
    (forall p node c,
       h !! p = Some node -> c ∈ DocumentSymbol.children node ->
       exists child,
         h !! c = Some child /\ definingLine node < definingLine child).
Proof.
  destruct (provideDocumentSymbols_Invariant document) as (st & Hrun & Hinv).
  pose proof Hinv as (Hwf & _ & _ & Hflat).
  exists (heap st), (symbols st). split; [exact Hrun|].
  split; [exact Hflat|]. split; [by eapply Invariant_lines|]. repeat split.
  - eapply Invariant_siblings; [exact Hinv|by apply wf_roots_sorted|].
    intros c Hc. unfold placements. apply elem_of_app. by left.
  - intros p node Hp. eapply Invariant_siblings; [exact Hinv| |].
    + eapply (proj1 (Forall_lookup _ _) (wf_children_sorted st Hwf)), Hp.
    + intros c Hc. by eapply placements_elem.
  - intros p node c Hp Hc.
    destruct (lookup_lt_is_Some_2 (heap st) c) as [child Hchild].
    { eapply Invariant_placed; [exact Hinv|]. by eapply placements_elem. }
    exists child. split; [exact Hchild|].
    eapply Invariant_ref_lines; [exact Hinv| |exact Hp|exact Hchild].
    by eapply (wf_parent st Hwf).
Qed.

(** C8. For every document the entry point returns a result: no call of
    the host throws, whatever the lines are. Every line that creates a
    symbol, wherever it stands and whatever precedes it, has that symbol in
    the returned store, placed in the root array or in the [children] of a
    symbol. *)
Theorem scan_never_throws (document : TextDocument) :
  exists h roots,
    provideDocumentSymbols document = Ok (h, roots) /\
    forall i symbol,
      symbolOfLine document i = Ok (Some symbol) ->
      exists r node,
        h !! r = Some node /\ withoutChildren node = symbol /\
        r ∈ placements h roots.
Proof.
  destruct (provideDocumentSymbols_Invariant document) as (st & Hrun & Hinv).
  exists (heap st), (symbols st). split; [exact Hrun|].
  intros i symbol Hs.
  assert (symbol ∈ createdBefore document (List.length document)) as Hin.
  { destruct (symbolOfLine_Some document i symbol Hs) as (line & Hl & _).
    apply lineAt_inv in Hl as (Hi & _). unfold lineCount in Hi.
    apply createdBefore_elem. exists (Z.to_nat i). split; [lia|].
    by rewrite Z2Nat.id by lia. }
  destruct Hinv as (Hwf & Hc & _). rewrite <- Hc in Hin.
  apply list_elem_of_lookup in Hin as [r Hr].
  rewrite list_lookup_fmap in Hr.
  destruct (heap st !! r) as [node|] eqn:Hnode; [|discriminate].
  injection Hr as Hr. exists r, node.
  split; [exact Hnode|]. split; [exact Hr|].
  rewrite (wf_once st Hwf), elem_of_seq.
  apply lookup_lt_Some in Hnode. lia.
Qed.

(** A stray closer creates nothing and stops nothing: the line after it is
    scanned and becomes a root. *)
Example stray_closer_then_attribute :
  exists res,
    provideDocumentSymbols ["}"; "key value;"] = Ok res /\
    outline res =
      [Node "key" "value" SymbolKind.Property
         (TextLine.range (textLine 1 "key value;"))
         (TextLine.range (textLine 1 "key value;")) []].
Proof. eexists. split; vm_compute; reflexivity. Qed.

(** C10. For every document, the symbols that the scan creates are the
    symbols of the returned store, in creation order, and each of them is
    held exactly once: the references in the root array and in all
    [children] arrays together are a rearrangement of the references of the
    store, none twice. A symbol is created before its children, so no
    symbol is below itself, and the result is a forest: the returned tree,
    flattened, has every symbol of the store at one position and no symbol
    at two. *)
Theorem every_symbol_placed_once (document : TextDocument) :
  exists h roots,
    provideDocumentSymbols document = Ok (h, roots) /\
    map withoutChildren h = createdBefore document (List.length document) /\
    placements h roots ≡ₚ seq 0 (List.length h) /\
    NoDup (placements h roots) /\
    (forall p node c,
       h !! p = Some node -> c ∈ DocumentSymbol.children node -> (p < c)%nat) /\
    NoDup (flatten h roots) /\
    (forall r, r ∈ flatten h roots <-> (r < List.length h)%nat).
Proof.
  destruct (provideDocumentSymbols_Invariant document)
    as (st & Hrun & Hwf & Hc & _ & Hflat).
  exists (heap st), (symbols st). split; [exact Hrun|].
  split; [exact Hc|]. split; [by apply wf_once|]. repeat split.
  - rewrite (wf_once st Hwf). apply NoDup_seq.
  - by apply wf_parent.
  - rewrite Hflat. apply NoDup_seq.
  - rewrite Hflat. intros ?%elem_of_seq. lia.
  - rewrite Hflat. intros ?. apply elem_of_seq. lia.
Qed.

(** ** The claim on the block-span resolver *)

Lemma findClosingBracketFrom_unbalanced document openChar closeChar :
  forall n (k : nat) open,
    List.length (skipn k document) = n ->
    Forall (fun c => c <> 0) (openCounts openChar closeChar open (skipn k document)) ->
    findClosingBracketFrom document openChar closeChar n (Z.of_nat k) open
    = Ok (lineCount document - 1).
Proof.
  induction n as [|n IH]; intros k open Hlen Hall; [reflexivity|].
  assert (k < List.length document)%nat as Hk.
  { rewrite length_skipn in Hlen. lia. }
  destruct (lookup_lt_is_Some_2 document k Hk) as [s Hs].
  rewrite (drop_S _ _ _ Hs) in Hlen, Hall. simpl in Hlen, Hall.
  apply Forall_cons in Hall as [Hne Hall]. unfold countAfter in Hne, Hall.
  simpl. rewrite (lineAt_lookup document k s Hs). simpl.
  replace (Z.of_nat k + 1) with (Z.of_nat (S k)) by lia.
  destruct ((open =? 0) && String.eqb (Js.trim s) (String openChar "")).
  - apply IH; [lia | exact Hall].
  - match goal with |- context [if ?c =? 0 then _ else _] =>
      destruct (Z.eqb_spec c 0) as [Hz|_]; [done|] end.
    apply IH; [lia | exact Hall].
Qed.

(** Otherwise the resolver returns the first line that leaves the open
    count at 0. *)
Lemma findClosingBracketFrom_balanced document openChar closeChar :
  forall pre post n (k : nat) open,
    List.length (skipn k document) = n ->
    openCounts openChar closeChar open (skipn k document) = pre ++ 0 :: post ->
    Forall (fun c => c <> 0) pre ->
    findClosingBracketFrom document openChar closeChar n (Z.of_nat k) open
    = Ok (Z.of_nat (k + List.length pre)).
Proof.
  induction pre as [|x pre IH]; intros post n k open Hlen Hcounts Hpre.
  - destruct (skipn k document) as [|s rest] eqn:Hdrop; [discriminate|].
    assert (document !! k = Some s) as Hs.
    { rewrite <- (Nat.add_0_r k), <- lookup_drop. by rewrite Hdrop. }
    simpl in Hlen. subst n. simpl in Hcounts. injection Hcounts as Hzero _.
    unfold countAfter in Hzero.
    simpl. rewrite (lineAt_lookup document k s Hs). simpl.
    destruct ((open =? 0) && String.eqb (Js.trim s) (String openChar ""));
      [discriminate|].
    rewrite Hzero. simpl. by rewrite Nat.add_0_r.
  - destruct (skipn k document) as [|s rest] eqn:Hdrop; [discriminate|].
    assert (document !! k = Some s) as Hs.
    { rewrite <- (Nat.add_0_r k), <- lookup_drop. by rewrite Hdrop. }
    assert (skipn (S k) document = rest) as Hrest.
    { rewrite (drop_S _ _ _ Hs) in Hdrop. by injection Hdrop. }
    simpl in Hlen. subst n. simpl in Hcounts. injection Hcounts as Hx Hcounts.
    apply Forall_cons in Hpre as [Hne Hpre]. rewrite <- Hx in Hne.
    rewrite Hx in Hcounts. unfold countAfter in Hx, Hne.
    simpl. rewrite (lineAt_lookup document k s Hs). simpl.
    replace (Z.of_nat k + 1) with (Z.of_nat (S k)) by lia.
    replace (k + S (List.length pre))%nat with (S k + List.length pre)%nat
      by lia.
    rewrite <- Hrest in Hcounts.
    destruct ((open =? 0) && String.eqb (Js.trim s) (String openChar "")).
    + subst x. eapply IH; [by rewrite Hrest | exact Hcounts | exact Hpre].
    + match goal with |- context [if ?c =? 0 then _ else _] =>
        destruct (Z.eqb_spec c 0) as [Hz|_]; [done|] end.
      rewrite Hx. eapply IH; [by rewrite Hrest | exact Hcounts | exact Hpre].
Qed.

Lemma findClosingBracket_balanced document (startLine : nat)
    openChar closeChar initialCount pre post :
  openCounts openChar closeChar initialCount (skipn startLine document)
  = pre ++ 0 :: post ->
  Forall (fun c => c <> 0) pre ->
  findClosingBracket document (Z.of_nat startLine) openChar closeChar
    initialCount
  = Ok (Z.of_nat (startLine + List.length pre)).
Proof.
  intros Hcounts Hpre. unfold findClosingBracket.
  eapply findClosingBracketFrom_balanced; [|exact Hcounts|exact Hpre].
  rewrite length_skipn. unfold lineCount. lia.
Qed.

(** C6. For every document, starting line and pair of delimiters, the
    block-span resolver returns a line number and never throws; and when no
    line that it visits leaves the open count at 0, the line number that it
    returns is the one of the last line of the document. *)
Theorem unbalanced_span_ends_at_last_line (document : TextDocument)
    (startLine : nat) (openChar closeChar : ascii) (initialCount : Z) :
  (exists e,
     findClosingBracket document (Z.of_nat startLine) openChar closeChar
       initialCount = Ok e) /\
  (Forall (fun c => c <> 0)
     (openCounts openChar closeChar initialCount (skipn startLine document)) ->
   findClosingBracket document (Z.of_nat startLine) openChar closeChar
     initialCount = Ok (lineCount document - 1)).
Proof.
  split.
  - destruct (findClosingBracket_ok document (Z.of_nat startLine) openChar
                closeChar initialCount) as (e & He & _); [lia|].
    by exists e.
  - intros Hall. unfold findClosingBracket.
    apply findClosingBracketFrom_unbalanced; [|exact Hall].
    rewrite length_skipn. unfold lineCount. lia.
Qed.

Lemma unbalanced_span_ends_at_last_line_witness :
  findClosingBracket ["a"; "{"; "  b 1;"; "  c"; "  {"] 1 "{" "}" 0 = Ok 4.
Proof.
  apply (unbalanced_span_ends_at_last_line
           ["a"; "{"; "  b 1;"; "  c"; "  {"] 1 "{" "}" 0).
  vm_compute. repeat constructor; discriminate.
Defined.

(** ** The claim on the look-ahead of the named-block branch *)

Section LookAhead.
Variable document : TextDocument.

Lemma startsWith_brace_significant t :
  Js.startsWith t "{" = true -> isBlankOrComment t = false.
Proof.
  unfold Js.startsWith. intros H%String.prefix_correct.
  destruct t as [|c t]; [discriminate|]. simpl in H.
  injection H as -> _. reflexivity.
Qed.

Lemma eqb_brace_startsWith t :
  String.eqb t "{" = true -> Js.startsWith t "{" = true.
Proof. by intros ->%String.eqb_eq. Qed.

Lemma foundOpeningBraceFrom_find :
  forall n (k : nat),
    (k + n <= List.length document)%nat ->
    foundOpeningBraceFrom document n (Z.of_nat k)
    = Ok match List.find (fun t => negb (isBlankOrComment t))
                 (map Js.trim (firstn n (skipn k document))) with
         | Some t => Js.startsWith t "{"
         | None => false
         end.
Proof.
  induction n as [|n IH]; intros k Hn; [reflexivity|].
  destruct (lookup_lt_is_Some_2 document k) as [s Hs]; [lia|].
  rewrite (drop_S _ _ _ Hs). simpl.
  rewrite (lineAt_lookup document k s Hs). simpl.
  replace (Z.of_nat k + 1) with (Z.of_nat (S k)) by lia.
  destruct (Js.startsWith (Js.trim s) "{") eqn:Hb.
  - rewrite (startsWith_brace_significant _ Hb). simpl.
    rewrite Hb. by rewrite orb_true_r.
  - destruct (String.eqb (Js.trim s) "{") eqn:He.
    { apply eqb_brace_startsWith in He. congruence. }
    simpl. unfold isBlankOrComment.
    destruct (String.eqb (Js.trim s) ""); simpl; [apply IH; lia|].
    destruct (Js.startsWith (Js.trim s) "//"); simpl; [apply IH; lia|].
    destruct (Js.startsWith (Js.trim s) "/*"); simpl; [apply IH; lia|].
    by rewrite Hb.
Qed.

Lemma firstn_min {A} (l : list A) n :
  firstn (Nat.min n (List.length l)) l = firstn n l.
Proof.
  destruct (Nat.le_ge_cases n (List.length l)).
  - by rewrite Nat.min_l.
  - rewrite Nat.min_r by done. by rewrite !firstn_all2.
Qed.

Lemma foundOpeningBrace_opensBlockAhead i :
  0 <= i < lineCount document ->
  foundOpeningBrace document i = Ok (opensBlockAhead document i).
Proof.
  intros Hi. unfold foundOpeningBrace, opensBlockAhead, nextSignificant.
  unfold lineCount in *.
  replace (i + 1) with (Z.of_nat (Z.to_nat (i + 1))) at 2 by lia.
  rewrite foundOpeningBraceFrom_find by lia.
  replace (Z.to_nat (Z.min (i + 5) (Z.of_nat (List.length document)) - (i + 1)))
    with (Nat.min 4 (List.length (skipn (Z.to_nat (i + 1)) document))).
  - by rewrite firstn_min.
  - rewrite length_skipn. lia.
Qed.

End LookAhead.

(** C3 (as stated, refuted). The claim lets blank and comment lines pass
    without counting against the window of four. A name followed by four
    blank lines and then the brace is skipped by the scan all the same. *)
Lemma lookahead_counts_blank_lines :
  ~ (forall document i line m,
       lineAt document i = Ok line ->
       isBlankOrComment (Js.trim (TextLine.text line)) = false ->
       matchPattern (Js.trim (TextLine.text line)) EDGES_REGEX = None ->
       matchPattern (Js.trim (TextLine.text line)) NAMED_BLOCK_REGEX = Some m ->
       Js.includes (Js.trim (TextLine.text line)) "{" = false ->
       if specOpensBlockAhead document i
       then exists symbol, symbolOfLine document i = Ok (Some symbol)
       else symbolOfLine document i = Ok None).
Proof.
  intros H.
  specialize (H ["name"; ""; ""; ""; ""; "{"; "}"] 0 _ _ eq_refl eq_refl
                eq_refl eq_refl eq_refl).
  vm_compute in H. destruct H as [symbol H]. discriminate.
Qed.

(** C3 (amended). For every document and every line that reaches the
    named-block branch (it is neither blank nor a comment, the reserved-name
    pattern does not match it, the named-identifier pattern does) and has
    no opening brace, the classifier inspects at most the four lines that
    follow it, blank and comment lines included in the four, and stops at
    the first of them that is neither blank nor a comment: the line creates
    a block symbol if that line exists and starts with the brace, and is
    skipped otherwise. *)
Theorem named_block_lookahead (document : TextDocument) (i : Z)
    (line : TextLine.t) (m : Regex.captures) :
  lineAt document i = Ok line ->
  isBlankOrComment (Js.trim (TextLine.text line)) = false ->
  matchPattern (Js.trim (TextLine.text line)) EDGES_REGEX = None ->
  matchPattern (Js.trim (TextLine.text line)) NAMED_BLOCK_REGEX = Some m ->
  Js.includes (Js.trim (TextLine.text line)) "{" = false ->
  if opensBlockAhead document i
  then exists symbol, symbolOfLine document i = Ok (Some symbol)
  else symbolOfLine document i = Ok None.
Proof.
  intros Hl Hsig HE HN Hbrace.
  pose proof (lineAt_inv _ _ _ Hl) as (Hi & _).
  unfold symbolOfLine. rewrite Hl. simpl. rewrite Hsig.
  pose proof (classify_ok document i line (Js.trim (TextLine.text line)) Hl)
    as (r & Hr & _).
  revert Hr. unfold classify. rewrite HE, HN.
  destruct (PatternFacts.NAMED_BLOCK_REGEX_name _ _ HN) as (name & -> & _).
  simpl. rewrite Hbrace. simpl.
  rewrite (foundOpeningBrace_opensBlockAhead document i Hi). simpl.
  destruct (opensBlockAhead document i); simpl; [|reflexivity].
  destruct (findClosingBracket document (i + 1) "{" "}" 0) as [e|];
    [|discriminate]. simpl.
  repeat match goal with |- context [if ?c then _ else _] => destruct c end;
    (destruct (spanTo document line e) as [range|]; [|discriminate]); simpl;
    (destruct (DocumentSymbol.new _ _ _ _ _) as [symbol|]; [|discriminate]);
    simpl; intros _; by exists symbol.
Qed.

Lemma named_block_lookahead_witness :
  (exists symbol,
     symbolOfLine ["name"; ""; "// note"; ""; "{"; "}"] 0 = Ok (Some symbol)) /\
  symbolOfLine ["name"; ""; ""; ""; ""; "{"; "}"] 0 = Ok None /\
  symbolOfLine ["name"; "key value;"; "{"; "}"] 0 = Ok None.
Proof.
  split; [|split].
  - apply (named_block_lookahead ["name"; ""; "// note"; ""; "{"; "}"] 0 _ _
             eq_refl eq_refl eq_refl eq_refl eq_refl).
  - apply (named_block_lookahead ["name"; ""; ""; ""; ""; "{"; "}"] 0 _ _
             eq_refl eq_refl eq_refl eq_refl eq_refl).
  - apply (named_block_lookahead ["name"; "key value;"; "{"; "}"] 0 _ _
             eq_refl eq_refl eq_refl eq_refl eq_refl).
Defined.

(** ** The claim on comment lines *)

(** Two documents with the same number of lines and the same lines from
    line [i0] on. *)
Section SameFrom.
Variables (d1 d2 : TextDocument) (i0 : Z).
Hypothesis Hcount : lineCount d1 = lineCount d2.
Hypothesis Hlines : forall j, i0 <= j -> lineAt d1 j = lineAt d2 j.

Lemma findClosingBracketFrom_same openChar closeChar :
  forall n j open,
    i0 <= j ->
    findClosingBracketFrom d1 openChar closeChar n j open
    = findClosingBracketFrom d2 openChar closeChar n j open.
Proof.
  induction n as [|n IH]; intros j open Hj; simpl; [by rewrite Hcount|].
  rewrite (Hlines j Hj). destruct (lineAt d2 j) as [l|]; [|reflexivity].
  simpl. rewrite !IH by lia. reflexivity.
Qed.

Lemma findClosingBracket_same startLine openChar closeChar initialCount :
  i0 <= startLine ->
  findClosingBracket d1 startLine openChar closeChar initialCount
  = findClosingBracket d2 startLine openChar closeChar initialCount.
Proof.
  intros H. unfold findClosingBracket. rewrite Hcount.
  by apply findClosingBracketFrom_same.
Qed.

Lemma foundOpeningBraceFrom_same :
  forall n j,
    i0 <= j -> foundOpeningBraceFrom d1 n j = foundOpeningBraceFrom d2 n j.
Proof.
  induction n as [|n IH]; intros j Hj; simpl; [reflexivity|].
  rewrite (Hlines j Hj). destruct (lineAt d2 j) as [l|]; [|reflexivity].
  simpl. rewrite IH by lia. reflexivity.
Qed.

Lemma foundOpeningBrace_same i :
  i0 <= i -> foundOpeningBrace d1 i = foundOpeningBrace d2 i.
Proof.
  intros H. unfold foundOpeningBrace. rewrite Hcount.
  apply foundOpeningBraceFrom_same. lia.
Qed.

Lemma spanTo_same line e :
  i0 <= e -> spanTo d1 line e = spanTo d2 line e.
Proof. intros H. unfold spanTo. by rewrite (Hlines e H). Qed.

(** The tail of a branch that opens a block. *)
Lemma block_same i line openChar closeChar initialCount
    (k : Z -> Range.t -> result (option DocumentSymbol.t)) :
  i0 <= i -> lineAt d2 i = Ok line ->
  (let* endLine :=
     findClosingBracket d1 (i + 1) openChar closeChar initialCount in
   let* range := spanTo d1 line endLine in k endLine range)
  = (let* endLine :=
       findClosingBracket d2 (i + 1) openChar closeChar initialCount in
     let* range := spanTo d2 line endLine in k endLine range).
Proof.
  intros Hi Hl. rewrite findClosingBracket_same by lia.
  apply lineAt_inv in Hl as (Hrange & _).
  destruct (findClosingBracket_after d2 i openChar closeChar initialCount
              Hrange) as (e & -> & He).
  simpl. rewrite spanTo_same by lia. reflexivity.
Qed.

Lemma classify_same i line text :
  i0 <= i -> lineAt d2 i = Ok line ->
  classify d1 i line text = classify d2 i line text.
Proof.
  intros Hi Hl. unfold classify.
  destruct (matchPattern text EDGES_REGEX) as [m|].
  { destruct (matchGroup m 1) as [name|]; [|reflexivity]. simpl.
    destruct (_ && _); [reflexivity|].
    apply (block_same i line "{" "}" _
             (fun _ range =>
                let* symbol :=
                  DocumentSymbol.new name name SymbolKind.Struct range
                    (TextLine.range line) in
                Ok (Some symbol))); assumption. }
  destruct (matchPattern text NAMED_BLOCK_REGEX) as [m|] eqn:HN.
  { destruct (matchGroup m 1) as [name|]; [|reflexivity]. simpl.
    rewrite foundOpeningBrace_same by exact Hi.
    destruct (if negb (Js.includes text "{") then foundOpeningBrace d2 i
              else Ok true) as [[|]|]; simpl; [|reflexivity..].
    repeat match goal with
           | |- context [if ?c then (_, _) else _] => destruct c
           end;
      apply (block_same i line "{" "}" _
               (fun _ range =>
                  let* symbol :=
                    DocumentSymbol.new name _ _ range (TextLine.range line) in
                  Ok (Some symbol))); assumption. }
  destruct (matchPattern text LIST_REGEX) as [m|].
  { destruct (matchGroup m 1) as [name|]; [|reflexivity]. simpl.
    apply (block_same i line "(" ")" 1
             (fun _ range =>
                let* symbol :=
                  DocumentSymbol.new name "list" SymbolKind.Array range
                    (TextLine.range line) in
                Ok (Some symbol))); assumption. }
  destruct (String.eqb text "FoamFile") eqn:HF.
  { by apply FoamFile_is_named_block in HF. }
  reflexivity.
Qed.

Lemma symbolOfLine_same i :
  i0 <= i -> symbolOfLine d1 i = symbolOfLine d2 i.
Proof.
  intros Hi. unfold symbolOfLine. rewrite (Hlines i Hi).
  destruct (lineAt d2 i) as [line|] eqn:Hl; [|reflexivity]. simpl.
  destruct (isBlankOrComment _); [reflexivity|]. by apply classify_same.
Qed.

End SameFrom.

Lemma lineAt_app_same (before1 before2 rest : list string) j :
  List.length before1 = List.length before2 ->
  Z.of_nat (List.length before1) <= j ->
  lineAt (before1 ++ rest) j = lineAt (before2 ++ rest) j.
Proof.
  intros Hlen Hj. unfold lineAt, lineCount.
  rewrite !length_app, <- Hlen.
  rewrite !lookup_app_r by lia. by rewrite <- Hlen.
Qed.

(** One more iteration of the main loop, seen from the end. *)
Lemma mainLoop_snoc document :
  forall n (k : Z) st,
    mainLoop document (S n) k st
    = let* st1 := mainLoop document n k st in
      loopBody document (k + Z.of_nat n) st1.
Proof.
  induction n as [|n IH]; intros k st.
  - simpl. rewrite Z.add_0_r. by destruct (loopBody document k st).
  - change (mainLoop document (S (S n)) k st)
      with (let* st1 := loopBody document k st in
            mainLoop document (S n) (k + 1) st1).
    change (mainLoop document (S n) k st)
      with (let* st1 := loopBody document k st in
            mainLoop document n (k + 1) st1).
    destruct (loopBody document k st) as [st1|]; [|reflexivity].
    cbn [bind]. rewrite IH.
    by replace (k + 1 + Z.of_nat n) with (k + Z.of_nat (S n)) by lia.
Qed.

Lemma scanPrefix_S document n :
  scanPrefix document (S n)
  = let* st := scanPrefix document n in loopBody document (Z.of_nat n) st.
Proof. unfold scanPrefix. by rewrite mainLoop_snoc. Qed.

(** The symbols of the scanned store that are defined on line [i] are the
    one that line [i] creates, if it creates one. *)
Lemma Invariant_defined_on document n st (i : nat) symbol :
  Invariant document n st -> (i < n)%nat ->
  symbolOfLine document (Z.of_nat i) = Ok (Some symbol) <->
  exists r node,
    heap st !! r = Some node /\ withoutChildren node = symbol /\
    definingLine node = Z.of_nat i /\
    r ∈ placements (heap st) (symbols st).
Proof.
  intros (Hwf & Hc & _) Hi. split.
  - intros Hs.
    assert (symbol ∈ createdBefore document n) as Hin
      by (apply createdBefore_elem; by exists i).
    rewrite <- Hc in Hin. apply list_elem_of_lookup in Hin as [r Hr].
    rewrite list_lookup_fmap in Hr.
    destruct (heap st !! r) as [node|] eqn:Hnode; [|discriminate].
    injection Hr as Hr. exists r, node.
    split; [exact Hnode|]. split; [exact Hr|]. split.
    + rewrite <- (symbolOfLine_definingLine document _ _ Hs), <- Hr.
      by destruct node.
    + rewrite (wf_once st Hwf), elem_of_seq.
      apply lookup_lt_Some in Hnode. lia.
  - intros (r & node & Hnode & <- & Hline & _).
    assert (withoutChildren node ∈ createdBefore document n) as Hin.
    { rewrite <- Hc. apply list_elem_of_In, in_map, list_elem_of_In.
      by eapply list_elem_of_lookup_2. }
    apply createdBefore_elem in Hin as (k & _ & Hk).
    pose proof (symbolOfLine_definingLine document _ _ Hk) as Hdef.
    assert (definingLine (withoutChildren node) = definingLine node) as Hsame
      by (by destruct node).
    assert (k = i) as -> by lia. exact Hk.
Qed.

(** C9. Whether the scan passes over a line as a comment is decided from
    the text of that line alone, with nothing carried over from the lines
    before it. For the line [i] of any document, let [own] be nothing when
    the trimmed text of the line is empty or starts with one of the two
    comment openers, and what the classifier creates for the line
    otherwise. Then iteration [i] of the main loop leaves the state as it
    is when [own] is nothing, and pushes [own] at the indent of the line
    when it is a symbol; the symbols of the returned store that are defined
    on line [i] are exactly [own], which is then held by the root array or
    by a [children] array; and [own] is the same whatever lines stand
    before line [i], the opener of a block comment included. *)
Theorem comment_skip_is_per_line (before rest : list string) (line : string) :
  let i := Z.of_nat (List.length before) in
  let document := before ++ line :: rest in
  let created :=
    if isBlankOrComment (Js.trim line) then Ok None
    else classify document i (textLine i line) (Js.trim line) in
  exists st st' h roots own,
    created = Ok own /\
    scanPrefix document (List.length before) = Ok st /\
    scanPrefix document (S (List.length before)) = Ok st' /\
    st' = match own with
          | Some symbol =>
              pushSymbol {| heap := heap st ++ [symbol];
                            symbols := symbols st;
                            stack := stack st |}
                (List.length (heap st)) (firstNonWhitespace line)
          | None => st
          end /\
    provideDocumentSymbols document = Ok (h, roots) /\
    (forall symbol,
       own = Some symbol <->
       exists r node,
         h !! r = Some node /\ withoutChildren node = symbol /\
         definingLine node = i /\ r ∈ placements h roots) /\
    forall before2,
      List.length before2 = List.length before ->
      (if isBlankOrComment (Js.trim line) then Ok None
       else classify (before2 ++ line :: rest) i (textLine i line)
              (Js.trim line))
      = created.
Proof.
  intros i document created.
  assert (document !! List.length before = Some line) as Hline
    by (subst document; by rewrite list_lookup_middle).
  pose proof (lookup_lt_Some _ _ _ Hline) as Hlt.
  pose proof (lineAt_lookup document _ line Hline) as Hl. fold i in Hl.
  assert (symbolOfLine document i = created) as Hsym.
  { unfold symbolOfLine. by rewrite Hl. }
  destruct (scanPrefix_Invariant document (List.length before))
    as (st & Hst & Hinv); [lia|].
  destruct (loopBody_Invariant document _ st Hinv Hlt) as (st' & Hbody & _).
  fold i in Hbody.
  destruct (provideDocumentSymbols_Invariant document)
    as (final & Hrun & Hfinal).
  destruct (symbolOfLine_ok document i) as (l & own & _ & Hown & _).
  { unfold lineCount. lia. }
  exists st, st', (heap final), (symbols final), own.
  split; [by rewrite <- Hsym|]. split; [exact Hst|]. split; [|split].
  - rewrite scanPrefix_S, Hst. exact Hbody.
  - rewrite (loopBody_symbolOfLine document i _ st Hl), Hown in Hbody.
    destruct own as [symbol|]; simpl in Hbody; by injection Hbody.
  - split; [exact Hrun|]. split.
    + intros symbol.
      pose proof (Invariant_defined_on document _ final _ symbol Hfinal Hlt)
        as Hiff.
      fold i in Hiff. rewrite <- Hiff, Hown.
      split; [by intros -> | by intros [= ->]].
    + intros before2 Hlen. subst created.
      destruct (isBlankOrComment (Js.trim line)); [reflexivity|].
      apply (classify_same _ _ i); [| |lia|exact Hl].
      * unfold lineCount. subst document. rewrite !length_app. simpl. lia.
      * intros j Hj. subst document i.
        apply lineAt_app_same; [exact Hlen | by rewrite Hlen].
Qed.

(** The second line of a block comment has neither opener in front: the
    scan classifies it, and the returned store holds its symbol. *)
Lemma comment_skip_is_per_line_witness :
  exists h roots r node,
    provideDocumentSymbols ["/* a note"; "  key value;"; "*/"]
    = Ok (h, roots) /\
    h !! r = Some node /\
    withoutChildren node
    = lineSymbol 1 "  key value;" "key" "value" SymbolKind.Property /\
    r ∈ placements h roots.
Proof.
  destruct (comment_skip_is_per_line ["/* a note"] ["*/"] "  key value;")
    as (st & st' & h & roots & own & Hown & _ & _ & _ & Hrun & Hnodes & _).
  vm_compute in Hown. injection Hown as <-.
  destruct (proj1 (Hnodes _) eq_refl) as (r & node & Hr & Hw & _ & Hp).
  exists h, roots, r, node. split; [exact Hrun|]. split; [exact Hr|].
  split; [exact Hw | exact Hp].
Defined.

(** ** The claims on single lines *)

Section SingleLine.
Variable document : TextDocument.
Import PatternFacts.

(** A line that only the key-value pattern matches. *)
Lemma classify_key_value i s text m name raw :
  matchPattern text EDGES_REGEX = None ->
  matchPattern text NAMED_BLOCK_REGEX = None ->
  matchPattern text LIST_REGEX = None ->
  matchPattern text DICT_REGEX = None ->
  matchPattern text KV_REGEX = Some m ->
  matchGroup m 1 = Ok name -> matchGroup m 2 = Ok raw ->
  classify document i (textLine i s) text
  = Ok (Some (lineSymbol i s name (Js.trim raw)
                (if String.eqb name "class" || String.eqb name "object"
                 then SymbolKind.Class
                 else if String.eqb name "version" || String.eqb name "format"
                 then SymbolKind.Constant
                 else if String.eqb name "location" then SymbolKind.File
                 else SymbolKind.Property))).
Proof.
  intros HE HN HL HD HK H1 H2. unfold classify.
  rewrite HE, HN, HL, HD, HK, H1, H2.
  destruct (String.eqb text "FoamFile") eqn:HF.
  { by apply FoamFile_is_named_block in HF. }
  destruct (KV_REGEX_groups _ _ HK) as (name' & raw' & H1' & Hname & _).
  assert (name' = name) as -> by congruence.
  simpl. rewrite DocumentSymbol_new_ok by (done || apply lineRange_contains).
  reflexivity.
Qed.

(** A line that the dictionary pattern is the first to match. *)
Lemma classify_dictionary i s text m name units :
  matchPattern text EDGES_REGEX = None ->
  matchPattern text NAMED_BLOCK_REGEX = None ->
  matchPattern text LIST_REGEX = None ->
  matchPattern text DICT_REGEX = Some m ->
  matchGroup m 1 = Ok name -> matchGroup m 2 = Ok units ->
  classify document i (textLine i s) text
  = Ok (Some (lineSymbol i s name ("[" ++ Js.trim units ++ "]")
                SymbolKind.Constant)).
Proof.
  intros HE HN HL HD H1 H2. unfold classify.
  rewrite HE, HN, HL, HD, H1, H2.
  destruct (String.eqb text "FoamFile") eqn:HF.
  { by apply FoamFile_is_named_block in HF. }
  destruct (DICT_REGEX_groups _ _ HD) as (name' & raw' & H1' & Hname & _).
  assert (name' = name) as -> by congruence.
  simpl. rewrite DocumentSymbol_new_ok by (done || apply lineRange_contains).
  reflexivity.
Qed.

Lemma symbolOfLine_lookup (i : nat) s :
  document !! i = Some s -> isBlankOrComment (Js.trim s) = false ->
  symbolOfLine document (Z.of_nat i)
  = classify document (Z.of_nat i) (textLine (Z.of_nat i) s) (Js.trim s).
Proof.
  intros Hs Hsig. unfold symbolOfLine. rewrite (lineAt_lookup document i s Hs).
  simpl. by rewrite Hsig.
Qed.

(** A statement on a reserved name, closed by a semicolon and without a
    brace, creates no symbol: the scan goes on to the next line and tries no
    further pattern on this one. *)
Lemma reserved_statement_is_skipped i line m :
  lineAt document i = Ok line ->
  matchPattern (Js.trim (TextLine.text line)) EDGES_REGEX = Some m ->
  Js.endsWith (Js.trim (TextLine.text line)) ";" = true ->
  Js.includes (Js.trim (TextLine.text line)) "{" = false ->
  symbolOfLine document i = Ok None.
Proof.
  intros Hl HE Hsemi Hbrace. unfold symbolOfLine. rewrite Hl. simpl.
  destruct (isBlankOrComment _); [reflexivity|].
  unfold classify. rewrite HE.
  destruct (EDGES_REGEX_name _ _ HE) as (name & -> & _). simpl.
  by rewrite Hsemi, Hbrace.
Qed.

End SingleLine.

(** The key-value pattern would match [boundary  ;], but the reserved-name
    pattern matches it first and the line is skipped. *)
Example reserved_statement_example :
  matchPattern "boundary  ;" KV_REGEX <> None /\
  symbolOfLine ["boundary  ;"] 0 = Ok None.
Proof.
  split; [vm_compute; discriminate|].
  by apply (reserved_statement_is_skipped ["boundary  ;"] 0 _ _ eq_refl eq_refl).
Qed.

(** C1 (as stated, refuted). The claim takes the line
    [internalField uniform 0;] to match the reserved-name pattern. It does
    not: after the keyword and the white space the pattern wants a brace, a
    semicolon or the end of the line, and the line goes on with [uniform]. *)
Lemma internalField_statement_not_reserved :
  ~ (matchPattern "internalField uniform 0;" EDGES_REGEX <> None /\
     Js.endsWith "internalField uniform 0;" ";" = true /\
     Js.includes "internalField uniform 0;" "{" = false /\
     symbolOfLine ["internalField uniform 0;"] 0
     = Ok (Some (lineSymbol 0 "internalField uniform 0;" "internalField"
                   "uniform 0" SymbolKind.Property))).
Proof. intros [H _]. apply H. vm_compute. reflexivity. Qed.

(** C1 (amended). In every document, a line [internalField uniform 0;]
    does not match the reserved-name pattern, so the reserved-name branch
    creates nothing for it; the key-value pattern is the first to match it,
    and the line creates a Property symbol named [internalField], with the
    detail [uniform 0]. *)
Theorem internalField_statement_is_property (document : TextDocument)
    (i : nat) :
  document !! i = Some "internalField uniform 0;" ->
  matchPattern "internalField uniform 0;" EDGES_REGEX = None /\
  symbolOfLine document (Z.of_nat i)
  = Ok (Some (lineSymbol (Z.of_nat i) "internalField uniform 0;"
                "internalField" "uniform 0" SymbolKind.Property)).
Proof.
  intros Hs. split; [vm_compute; reflexivity|].
  rewrite (symbolOfLine_lookup document i _ Hs) by (vm_compute; reflexivity).
  rewrite (classify_key_value document (Z.of_nat i) _ _
             [(2%nat, "uniform 0"); (1%nat, "internalField")]
             "internalField" "uniform 0")
    by (vm_compute; reflexivity).
  reflexivity.
Qed.

Lemma internalField_statement_is_property_witness :
  matchPattern "internalField uniform 0;" EDGES_REGEX = None /\
  symbolOfLine ["FoamFile"; "{"; "}"; "internalField uniform 0;"] 3
  = Ok (Some (lineSymbol 3 "internalField uniform 0;"
                "internalField" "uniform 0" SymbolKind.Property)).
Proof.
  apply (internalField_statement_is_property
           ["FoamFile"; "{"; "}"; "internalField uniform 0;"] 3).
  reflexivity.
Defined.

(** C2 (as stated, refuted). The claim gives the line
    [nu [0 2 -1 0 0 0 0] 1e-05;] a ConstantUnit symbol, which is a symbol of
    kind Constant, with the detail [0 2 -1 0 0 0 0]. The scan creates a
    symbol of another kind and another detail for it. *)
Lemma dimensioned_value_not_constant :
  ~ (exists symbol,
       symbolOfLine ["nu [0 2 -1 0 0 0 0] 1e-05;"] 0 = Ok (Some symbol) /\
       DocumentSymbol.name symbol = "nu" /\
       DocumentSymbol.kind symbol = SymbolKind.Constant /\
       DocumentSymbol.detail symbol = "0 2 -1 0 0 0 0").
Proof.
  intros (symbol & Hs & _ & Hkind & _).
  vm_compute in Hs. injection Hs as <-. discriminate.
Qed.

(** C2 (amended). In every document, the line [nu [0 2 -1 0 0 0 0] 1e-05;]
    does not match the dictionary pattern, which wants the semicolon right
    after the closing bracket; the key-value pattern matches it and the line
    creates one Property symbol named [nu] with the detail
    [[0 2 -1 0 0 0 0] 1e-05]. The line [nu [0 2 -1 0 0 0 0];] creates one
    symbol of kind Constant named [nu], whose detail is the trimmed text
    between the brackets put back in brackets: [[0 2 -1 0 0 0 0]]. *)
Theorem dimensioned_lines (document : TextDocument) (i : nat) :
  (document !! i = Some "nu [0 2 -1 0 0 0 0] 1e-05;" ->
   matchPattern "nu [0 2 -1 0 0 0 0] 1e-05;" DICT_REGEX = None /\
   symbolOfLine document (Z.of_nat i)
   = Ok (Some (lineSymbol (Z.of_nat i) "nu [0 2 -1 0 0 0 0] 1e-05;" "nu"
                 "[0 2 -1 0 0 0 0] 1e-05" SymbolKind.Property))) /\
  (document !! i = Some "nu [0 2 -1 0 0 0 0];" ->
   symbolOfLine document (Z.of_nat i)
   = Ok (Some (lineSymbol (Z.of_nat i) "nu [0 2 -1 0 0 0 0];" "nu"
                 "[0 2 -1 0 0 0 0]" SymbolKind.Constant))).
Proof.
  split; intros Hs.
  - split; [vm_compute; reflexivity|].
    rewrite (symbolOfLine_lookup document i _ Hs) by (vm_compute; reflexivity).
    rewrite (classify_key_value document (Z.of_nat i) _ _
               [(2%nat, "[0 2 -1 0 0 0 0] 1e-05"); (1%nat, "nu")]
               "nu" "[0 2 -1 0 0 0 0] 1e-05")
      by (vm_compute; reflexivity).
    reflexivity.
  - rewrite (symbolOfLine_lookup document i _ Hs) by (vm_compute; reflexivity).
    rewrite (classify_dictionary document (Z.of_nat i) _ _
               [(2%nat, "0 2 -1 0 0 0 0"); (1%nat, "nu")]
               "nu" "0 2 -1 0 0 0 0")
      by (vm_compute; reflexivity).
    reflexivity.
Qed.

Lemma dimensioned_lines_witness :
  (matchPattern "nu [0 2 -1 0 0 0 0] 1e-05;" DICT_REGEX = None /\
   symbolOfLine ["nu [0 2 -1 0 0 0 0] 1e-05;"] 0
   = Ok (Some (lineSymbol 0 "nu [0 2 -1 0 0 0 0] 1e-05;" "nu"
                 "[0 2 -1 0 0 0 0] 1e-05" SymbolKind.Property))) /\
  symbolOfLine ["dimensions [0 2 -1 0 0 0 0];"; "nu [0 2 -1 0 0 0 0];"] 1
  = Ok (Some (lineSymbol 1 "nu [0 2 -1 0 0 0 0];" "nu"
                "[0 2 -1 0 0 0 0]" SymbolKind.Constant)).
Proof.
  split.
  - apply (proj1 (dimensioned_lines ["nu [0 2 -1 0 0 0 0] 1e-05;"] 0)).
    reflexivity.
  - apply (proj2 (dimensioned_lines
                    ["dimensions [0 2 -1 0 0 0 0];"; "nu [0 2 -1 0 0 0 0];"] 1)).
    reflexivity.
Defined.

(** C5. For the document of the four lines [name], [{], [  key value;] and
    [}], with or without the empty line that a final line break adds, the
    entry point returns exactly one root: a symbol of kind Object named
    [name], with the detail [block], whose range runs from the start of
    line 0 to the end of line 3, and whose only child is a Property symbol
    named [key] with the detail [value] and no children. *)
Theorem balanced_block_outline :
  let block :=
    [Node "name" "block" SymbolKind.Object
       (Range.mk (Position.mk 0 0) (Position.mk 3 1))
       (TextLine.range (textLine 0 "name"))
       [Node "key" "value" SymbolKind.Property
          (TextLine.range (textLine 2 "  key value;"))
          (TextLine.range (textLine 2 "  key value;")) []]] in
  (exists res,
     provideDocumentSymbols ["name"; "{"; "  key value;"; "}"] = Ok res /\
     outline res = block) /\
  (exists res,
     provideDocumentSymbols ["name"; "{"; "  key value;"; "}"; ""] = Ok res /\
     outline res = block).
Proof. split; eexists; split; vm_compute; reflexivity. Qed.

(** * Further properties of the provider *)

(** ** What a line creates *)

Lemma DocumentSymbol_new_inv name detail kind range selectionRange symbol :
  DocumentSymbol.new name detail kind range selectionRange = Ok symbol ->
  symbol = DocumentSymbol.mk name detail kind range selectionRange [] /\
  name <> "" /\ Range.contains range selectionRange = true.
Proof.
  unfold DocumentSymbol.new. intros H.
  destruct (String.eqb_spec name ""); [discriminate|].
  destruct (Range.contains range selectionRange); [|discriminate].
  injection H as <-. by repeat split.
Qed.

Section Created2.
Variable document : TextDocument.

(** The tail of a branch that opens a block, read backwards. *)
Lemma blockSymbol_inv i line endLine name detail kind symbol :
  lineAt document i = Ok line -> i <= endLine ->
  (let* range := spanTo document line endLine in
   let* symbol :=
     DocumentSymbol.new name detail kind range (TextLine.range line) in
   Ok (Some symbol)) = Ok (Some symbol) ->
  DocumentSymbol.name symbol = name /\
  DocumentSymbol.detail symbol = detail /\
  DocumentSymbol.kind symbol = kind /\
  spansLines document i endLine symbol.
Proof.
  intros Hl He H. unfold spanTo in H.
  destruct (lineAt document endLine) as [le|] eqn:Hle; [|discriminate].
  simpl in H.
  destruct (DocumentSymbol.new _ _ _ _ _) as [s|] eqn:Hnew; [|discriminate].
  injection H as ->. apply DocumentSymbol_new_inv in Hnew as (-> & _ & _).
  apply lineAt_inv in Hl as (Hi & si & Hsi & ->).
  apply lineAt_inv in Hle as (Hie & se & Hse & ->).
  repeat split. exists si, se. repeat split; try done; try lia.
  simpl. unfold Range.new. simpl.
  match goal with |- context [Position.isBefore ?a ?b] =>
    assert (Position.isBefore a b = false) as ->
      by (unfold Position.isBefore; simpl; cases_Z) end.
  reflexivity.
Qed.

Lemma lineSymbol_inv i line name detail kind symbol :
  lineAt document i = Ok line ->
  (let* symbol :=
     DocumentSymbol.new name detail kind (TextLine.range line)
       (TextLine.range line) in
   Ok (Some symbol)) = Ok (Some symbol) ->
  DocumentSymbol.name symbol = name /\
  DocumentSymbol.detail symbol = detail /\
  DocumentSymbol.kind symbol = kind /\
  spansLines document i i symbol.
Proof.
  intros Hl H.
  destruct (DocumentSymbol.new _ _ _ _ _) as [s|] eqn:Hnew; [|discriminate].
  injection H as ->. apply DocumentSymbol_new_inv in Hnew as (-> & _ & _).
  apply lineAt_inv in Hl as (Hi & si & Hsi & ->).
  repeat split. exists si, si. repeat split; try done; lia.
Qed.

(** Every branch of the classifier, read backwards. *)
Lemma classify_Some i line text symbol :
  lineAt document i = Ok line ->
  classify document i line text = Ok (Some symbol) ->
  kindTable symbol /\
  exists e,
    spansLines document i e symbol /\
    (singleLineKind (DocumentSymbol.kind symbol) = true -> e = i).
Proof.
  intros Hl H. pose proof (lineAt_inv _ _ _ Hl) as (Hi & _).
  unfold classify in H.
  destruct (matchPattern text EDGES_REGEX) as [m|] eqn:HE.
  { destruct (matchGroup m 1) as [name|]; [|discriminate]. simpl in H.
    destruct (_ && _); [discriminate|].
    destruct (findClosingBracket_after document i "{" "}"
                (if Js.includes text "{" then 1 else 0) Hi) as (e & He & Hb).
    rewrite He in H. simpl in H.
    apply (blockSymbol_inv i) in H as (Hn & Hd & Hk & Hspan); [|done|lia].
    split; [unfold kindTable; rewrite Hk; congruence|].
    exists e. split; [exact Hspan|]. by rewrite Hk. }
  destruct (matchPattern text NAMED_BLOCK_REGEX) as [m|] eqn:HN.
  { destruct (matchGroup m 1) as [name|]; [|discriminate]. cbn [bind] in H.
    destruct (if negb (Js.includes text "{") then foundOpeningBrace document i
              else Ok true) as [[|]|]; cbn [bind negb] in H; [|discriminate..].
    destruct (findClosingBracket_after document i "{" "}"
                (if Js.includes text "{" then 1 else 0) Hi) as (e & He & Hb).
    rewrite He in H. cbn [bind] in H. fold reservedNames patchNames in H.
    destruct (Js.arrayIncludes reservedNames name) eqn:Hres;
      [|destruct (Js.arrayIncludes patchNames name) eqn:Hpatch];
      apply (blockSymbol_inv i) in H as (Hn & Hd & Hk & Hspan); try done;
      try lia;
      (split; [unfold kindTable; rewrite Hk, ?Hn, ?Hd; by auto|]);
      exists e; (split; [exact Hspan|]); by rewrite Hk. }
  destruct (matchPattern text LIST_REGEX) as [m|] eqn:HL.
  { destruct (matchGroup m 1) as [name|]; [|discriminate]. simpl in H.
    destruct (findClosingBracket_after document i "(" ")" 1 Hi)
      as (e & He & Hb).
    rewrite He in H. simpl in H.
    apply (blockSymbol_inv i) in H as (Hn & Hd & Hk & Hspan); [|done|lia].
    split; [unfold kindTable; by rewrite Hk|].
    exists e. split; [exact Hspan|]. by rewrite Hk. }
  destruct (String.eqb text "FoamFile") eqn:HF.
  { by apply FoamFile_is_named_block in HF. }
  destruct (matchPattern text DICT_REGEX) as [m|] eqn:HD.
  { destruct (matchGroup m 1) as [name|]; [|discriminate].
    destruct (matchGroup m 2) as [units|]; [|discriminate]. simpl in H.
    apply (lineSymbol_inv i) in H as (Hn & Hd & Hk & Hspan); [|done].
    split; [unfold kindTable; rewrite Hk; right; right; by exists units|].
    exists i. by split. }
  destruct (matchPattern text KV_REGEX) as [m|] eqn:HK; [|discriminate].
  destruct (matchGroup m 1) as [name|]; [|discriminate].
  destruct (matchGroup m 2) as [raw|]; [|discriminate]. simpl in H.
  apply (lineSymbol_inv i) in H as (Hn & Hd & Hk & Hspan); [|done].
  split; [|exists i; by split].
  unfold kindTable. rewrite Hk, Hn.
  destruct (String.eqb_spec name "class") as [->|Hclass]; [by left|].
  destruct (String.eqb_spec name "object") as [->|Hobject]; [by right|].
  destruct (String.eqb_spec name "version") as [->|Hversion]; [by left|].
  destruct (String.eqb_spec name "format") as [->|Hformat]; [by right; left|].
  destruct (String.eqb_spec name "location") as [->|Hlocation]; [done|].
  simpl. intuition congruence.
Qed.

End Created2.

Section Returned.
Variable document : TextDocument.

Lemma symbolOfLine_classify i symbol :
  symbolOfLine document i = Ok (Some symbol) ->
  exists line,
    lineAt document i = Ok line /\
    isBlankOrComment (Js.trim (TextLine.text line)) = false /\
    classify document i line (Js.trim (TextLine.text line)) = Ok (Some symbol).
Proof.
  unfold symbolOfLine. intros H.
  destruct (lineAt document i) as [line|] eqn:Hl; [|discriminate].
  simpl in H. exists line.
  destruct (isBlankOrComment _); [discriminate|]. by repeat split.
Qed.

(** A symbol of the store is the symbol of one of the lines scanned so
    far, with the children it has received since. *)
Lemma Invariant_symbol n st r node :
  Invariant document n st -> heap st !! r = Some node ->
  exists k,
    (k < n)%nat /\
    symbolOfLine document (Z.of_nat k) = Ok (Some (withoutChildren node)).
Proof.
  intros (_ & Hc & _) Hr. apply createdBefore_elem. rewrite <- Hc.
  apply list_elem_of_In, in_map, list_elem_of_In.
  by eapply list_elem_of_lookup_2.
Qed.

Lemma spansLines_contains i e s :
  spansLines document i e s ->
  Range.contains (DocumentSymbol.range s) (DocumentSymbol.selectionRange s)
  = true.
Proof.
  intros (si & se & Hie & Hsi & Hse & -> & ->).
  assert (e = i -> se = si) as Hsame by (intros ->; congruence).
  pose proof (Nat2Z.is_nonneg (String.length si)).
  pose proof (Nat2Z.is_nonneg (String.length se)).
  unfold Range.contains, Range.containsPosition, Position.isBefore. simpl.
  destruct (Z.eq_dec e i) as [->|Hne]; [rewrite (Hsame eq_refl)|]; cases_Z.
Qed.

End Returned.

(** X2. Every symbol of the returned store is one the host accepts, also
    after it has received children: its name is not empty and its range
    contains its selection range. The selection range is the whole line
    [i] that defines the symbol; the range runs from the start of line [i]
    to the end of a line [e] of the document, not before [i]; for the
    constructs of one line (kinds Constant, Class, File, Property) [e] is
    [i]. *)
Theorem returned_spans (document : TextDocument) :
  exists h roots,
    provideDocumentSymbols document = Ok (h, roots) /\
    forall r node,
      h !! r = Some node ->
      DocumentSymbol.name node <> "" /\
      Range.contains (DocumentSymbol.range node)
        (DocumentSymbol.selectionRange node) = true /\
      exists i e,
        spansLines document i e node /\
        e < lineCount document /\
        (singleLineKind (DocumentSymbol.kind node) = true -> e = i).
Proof.
  destruct (provideDocumentSymbols_Invariant document) as (st & Hrun & Hinv).
  exists (heap st), (symbols st). split; [exact Hrun|].
  intros r node Hr.
  destruct (Invariant_symbol document _ st r node Hinv Hr) as (k & _ & Hk).
  pose proof (symbolOfLine_Some document _ _ Hk) as (_ & _ & _ & _ & Hname).
  apply symbolOfLine_classify in Hk as (line & Hl & _ & Hc).
  apply (classify_Some document _ line) in Hc as (_ & e & Hspan & Hsingle);
    [|exact Hl].
  assert (spansLines document (Z.of_nat k) e node) as Hspan'.
  { destruct node. exact Hspan. }
  split; [by destruct node|]. split; [by eapply spansLines_contains|].
  exists (Z.of_nat k), e. split; [exact Hspan'|]. split.
  - destruct Hspan as (_ & se & Hie & _ & Hse & _).
    apply lookup_lt_Some in Hse. unfold lineCount. lia.
  - by destruct node.
Qed.

(** X3. The kind of every symbol of the returned store fixes its shape: a
    Struct has its name as detail, an Interface has the detail [boundary]
    and one of the five patch names, an Object has the detail [block] and
    a name in neither table, an Array has the detail [list], a Class is
    named [class] or [object], a File is named [location] (the header
    branch never creates one), a Constant is named [version] or [format]
    or has a bracketed detail, and a Property has none of the five special
    attribute names. *)
Theorem returned_kinds (document : TextDocument) :
  exists h roots,
    provideDocumentSymbols document = Ok (h, roots) /\
    forall r node, h !! r = Some node -> kindTable node.
Proof.
  destruct (provideDocumentSymbols_Invariant document) as (st & Hrun & Hinv).
  exists (heap st), (symbols st). split; [exact Hrun|].
  intros r node Hr.
  destruct (Invariant_symbol document _ st r node Hinv Hr) as (k & _ & Hk).
  apply symbolOfLine_classify in Hk as (line & Hl & _ & Hc).
  apply (classify_Some document _ line) in Hc as (Htable & _); [|exact Hl].
  by destruct node.
Qed.

(** ** The branches that open a block *)

Section Branches.
Variable document : TextDocument.
Import PatternFacts.

Lemma blockSymbol_Some i line endLine name detail kind :
  lineAt document i = Ok line -> i <= endLine < lineCount document ->
  name <> "" ->
  exists symbol,
    (let* range := spanTo document line endLine in
     let* symbol :=
       DocumentSymbol.new name detail kind range (TextLine.range line) in
     Ok (Some symbol)) = Ok (Some symbol) /\
    DocumentSymbol.name symbol = name /\
    DocumentSymbol.detail symbol = detail /\
    DocumentSymbol.kind symbol = kind /\
    spansLines document i endLine symbol.
Proof.
  intros Hl He Hn.
  destruct (spanTo_ok document i line endLine Hl He) as (r & Hr & Hc).
  pose proof (blockSymbol_inv document i line endLine name detail kind) as Hinv.
  rewrite Hr in *. simpl in *.
  rewrite DocumentSymbol_new_ok in * by done. simpl in *.
  eexists. split; [reflexivity|]. apply Hinv; [exact Hl|lia|reflexivity].
Qed.

End Branches.

(** X7. A line that the reserved-name pattern matches (the five names, in
    any letter case) needs no brace to follow: unless it ends with a
    semicolon and has no brace, in which case it creates nothing, it always
    creates a Struct symbol, named as the name is written on the line and
    with the same detail, whose range ends on the line that the block-span
    resolver returns from the next line on. *)
Theorem reserved_line (document : TextDocument) (i : Z) (line : TextLine.t)
    (m : Regex.captures) :
  lineAt document i = Ok line ->
  isBlankOrComment (Js.trim (TextLine.text line)) = false ->
  matchPattern (Js.trim (TextLine.text line)) EDGES_REGEX = Some m ->
  if Js.endsWith (Js.trim (TextLine.text line)) ";"
     && negb (Js.includes (Js.trim (TextLine.text line)) "{")
  then symbolOfLine document i = Ok None
  else
    exists symbol name e,
      symbolOfLine document i = Ok (Some symbol) /\
      matchGroup m 1 = Ok name /\
      DocumentSymbol.name symbol = name /\
      DocumentSymbol.detail symbol = name /\
      DocumentSymbol.kind symbol = SymbolKind.Struct /\
      findClosingBracket document (i + 1) "{" "}"
        (if Js.includes (Js.trim (TextLine.text line)) "{" then 1 else 0)
      = Ok e /\
      spansLines document i e symbol.
Proof.
  intros Hl Hsig HE. pose proof (lineAt_inv _ _ _ Hl) as (Hi & _).
  unfold symbolOfLine. rewrite Hl. simpl. rewrite Hsig.
  unfold classify. rewrite HE.
  destruct (PatternFacts.EDGES_REGEX_name _ _ HE) as (name & Hname & Hne).
  rewrite Hname. simpl.
  destruct (_ && _); [reflexivity|].
  destruct (findClosingBracket_after document i "{" "}"
              (if Js.includes (Js.trim (TextLine.text line)) "{" then 1 else 0)
              Hi) as (e & He & Hb).
  rewrite He. simpl.
  destruct (blockSymbol_Some document i line e name name SymbolKind.Struct
              Hl Hb Hne) as (symbol & Hs & Hn & Hd & Hk & Hspan).
  exists symbol, name, e. by repeat split.
Qed.

Lemma reserved_line_witness :
  (exists symbol name e,
     symbolOfLine ["Boundary"; "x 1;"] 0 = Ok (Some symbol) /\
     matchGroup [(2%nat, ""); (1%nat, "Boundary")] 1 = Ok name /\
     DocumentSymbol.name symbol = name /\
     DocumentSymbol.detail symbol = name /\
     DocumentSymbol.kind symbol = SymbolKind.Struct /\
     findClosingBracket ["Boundary"; "x 1;"] 1 "{" "}" 0 = Ok e /\
     spansLines ["Boundary"; "x 1;"] 0 e symbol) /\
  symbolOfLine ["edges ;"] 0 = Ok None.
Proof.
  split.
  - apply (reserved_line ["Boundary"; "x 1;"] 0 _ _ eq_refl eq_refl eq_refl).
  - apply (reserved_line ["edges ;"] 0 _ _ eq_refl eq_refl eq_refl).
Defined.

(** X8. A line that reaches the list branch (the two patterns before it do
    not match, the list pattern does: a word, then the opening parenthesis
    at the end of the line) always creates an Array symbol with the detail
    [list], named by the word, whose range ends on the line that the
    block-span resolver returns for parentheses, from the next line on and
    with one parenthesis open. *)
Theorem list_line (document : TextDocument) (i : Z) (line : TextLine.t)
    (m : Regex.captures) :
  lineAt document i = Ok line ->
  isBlankOrComment (Js.trim (TextLine.text line)) = false ->
  matchPattern (Js.trim (TextLine.text line)) EDGES_REGEX = None ->
  matchPattern (Js.trim (TextLine.text line)) NAMED_BLOCK_REGEX = None ->
  matchPattern (Js.trim (TextLine.text line)) LIST_REGEX = Some m ->
  exists symbol name e,
    symbolOfLine document i = Ok (Some symbol) /\
    matchGroup m 1 = Ok name /\
    DocumentSymbol.name symbol = name /\
    DocumentSymbol.detail symbol = "list" /\
    DocumentSymbol.kind symbol = SymbolKind.Array /\
    findClosingBracket document (i + 1) "(" ")" 1 = Ok e /\
    spansLines document i e symbol.
Proof.
  intros Hl Hsig HE HN HL. pose proof (lineAt_inv _ _ _ Hl) as (Hi & _).
  unfold symbolOfLine. rewrite Hl. simpl. rewrite Hsig.
  unfold classify. rewrite HE, HN, HL.
  destruct (PatternFacts.LIST_REGEX_name _ _ HL) as (name & Hname & Hne).
  rewrite Hname. simpl.
  destruct (findClosingBracket_after document i "(" ")" 1 Hi)
    as (e & He & Hb).
  rewrite He. simpl.
  destruct (blockSymbol_Some document i line e name "list" SymbolKind.Array
              Hl Hb Hne) as (symbol & Hs & Hn & Hd & Hk & Hspan).
  exists symbol, name, e. by repeat split.
Qed.

Lemma list_line_witness :
  exists symbol name e,
    symbolOfLine ["vertices("; "  (0 0 0)"; "  (1 0 0)"; ");"] 0
    = Ok (Some symbol) /\
    matchGroup [(1%nat, "vertices")] 1 = Ok name /\
    DocumentSymbol.name symbol = name /\
    DocumentSymbol.detail symbol = "list" /\
    DocumentSymbol.kind symbol = SymbolKind.Array /\
    findClosingBracket ["vertices("; "  (0 0 0)"; "  (1 0 0)"; ");"] 1
      "(" ")" 1 = Ok e /\
    spansLines ["vertices("; "  (0 0 0)"; "  (1 0 0)"; ");"] 0 e symbol.
Proof.
  apply (list_line ["vertices("; "  (0 0 0)"; "  (1 0 0)"; ");"] 0 _ _
           eq_refl eq_refl eq_refl eq_refl eq_refl).
Defined.

(** ** The order of the first two patterns *)

Module RegexComplete.
Import Regex RegexSpec RegexFacts.

(** The matcher finds a match whenever the declarative reading has one
    that the continuation accepts. *)
Lemma run_complete ic r pos s caps pos' s' caps' :
  matches ic r pos s caps pos' s' caps' ->
  forall k : cont, k pos' s' caps' <> None -> run ic r pos s caps k <> None.
Proof.
  induction 1 as
    [ | | | c x pos s caps Hc | p x pos s caps Hp
    | r1 r2 pos s caps pos1 s1 caps1 pos2 s2 caps2 _ IH1 _ IH2
    | r1 r2 pos s caps pos' s' caps' _ IH
    | r1 r2 pos s caps pos' s' caps' _ IH
    | p pos s caps
    | p x pos s caps pos' s' caps' Hp _ IH
    | p x pos s caps pos' s' caps' Hp _ IH
    | n r pos s caps pos' s' caps' _ IH ];
    intros k Hk; simpl.
  - exact Hk.
  - exact Hk.
  - exact Hk.
  - by rewrite Hc.
  - by rewrite Hp.
  - apply IH1. by apply IH2.
  - specialize (IH k Hk). by destruct (run ic r1 pos s caps k).
  - specialize (IH k Hk). by destruct (run ic r1 pos s caps k).
  - destruct s as [|c s]; [exact Hk|]. simpl.
    destruct (p c); [|exact Hk].
    by destruct (star p (S pos) s caps k).
  - rewrite Hp. specialize (IH k Hk). simpl in IH.
    by destruct (star p (S pos) s caps k).
  - rewrite Hp. by apply IH.
  - by apply IH.
Qed.

Lemma exec_complete ic r text pos' s' caps' :
  matches ic r 0 text [] pos' s' caps' -> exec ic r text <> None.
Proof.
  intros H. unfold exec.
  assert (run ic r 0 text [] (fun _ _ caps => Some caps) <> None) as Hrun
    by (by eapply run_complete).
  destruct text; simpl; by destruct (run ic r 0 _ [] _).
Qed.

(** A pattern anchored at the start matches at position 0 or not at all. *)
Lemma execFrom_anchored ic r s :
  forall pos, (0 < pos)%nat -> execFrom ic (Seq Bos r) pos s = None.
Proof.
  induction s as [|x s IH]; intros pos Hpos; simpl;
    destruct pos; try lia; simpl; [reflexivity|].
  apply IH. lia.
Qed.

Lemma exec_anchored_sound ic r text caps :
  exec ic (Seq Bos r) text = Some caps ->
  exists pos' s', matches ic (Seq Bos r) 0 text [] pos' s' caps.
Proof.
  unfold exec. intros H.
  assert (run ic (Seq Bos r) 0 text [] (fun _ _ c => Some c) = Some caps) as Hr.
  { destruct text as [|x s]; simpl in H |- *.
    - by destruct (run ic r 0 "" [] _).
    - destruct (run ic r 0 (String x s) [] _); [exact H|].
      by rewrite execFrom_anchored in H by lia. }
  apply run_sound in Hr as (pos' & s' & caps' & Hm & [= ->]).
  by exists pos', s'.
Qed.

Lemma length_append (t s : string) :
  String.length (t ++ s) = (String.length t + String.length s)%nat.
Proof. induction t as [|c t IH]; simpl; [reflexivity | by rewrite IH]. Qed.

(** What a match consumes stands in front of what it leaves. *)
Lemma matches_consumes ic r pos s caps pos' s' caps' :
  matches ic r pos s caps pos' s' caps' ->
  exists t, s = (t ++ s')%string /\ pos' = (pos + String.length t)%nat.
Proof.
  induction 1 as
    [ pos s caps | s caps | pos caps | c x pos s caps Hc | p x pos s caps Hp
    | r1 r2 pos s caps pos1 s1 caps1 pos2 s2 caps2 _ IH1 _ IH2
    | r1 r2 pos s caps pos' s' caps' _ IH
    | r1 r2 pos s caps pos' s' caps' _ IH
    | p pos s caps
    | p x pos s caps pos' s' caps' Hp _ IH
    | p x pos s caps pos' s' caps' Hp _ IH
    | n r pos s caps pos' s' caps' _ IH ];
    try (exists ""; split; [reflexivity | simpl; lia]);
    try (exists (String x ""); split; [reflexivity | simpl; lia]);
    try exact IH.
  - destruct IH1 as (t1 & -> & ->), IH2 as (t2 & -> & ->).
    exists (t1 ++ t2)%string. split.
    + clear. induction t1 as [|c t1 IH]; simpl; [reflexivity | by rewrite IH].
    + rewrite length_append. lia.
  - destruct IH as (t & -> & ->). exists (String x t).
    split; [reflexivity | simpl; lia].
  - destruct IH as (t & -> & ->). exists (String x t).
    split; [reflexivity | simpl; lia].
Qed.

Lemma substring_prefix (t s : string) :
  String.substring 0 (String.length t) (t ++ s) = t.
Proof. induction t as [|c t IH]; simpl; [by destruct s | by rewrite IH]. Qed.

(** A run of a class does not depend on the flag or on the captures. *)
Lemma matches_Star_any ic ic' p pos s caps pos' s' caps' caps2 :
  matches ic (Star p) pos s caps pos' s' caps' ->
  matches ic' (Star p) pos s caps2 pos' s' caps2.
Proof.
  intros H. remember (Star p) as r eqn:Hr. revert Hr.
  induction H; intros Hr; try discriminate; injection Hr as ->.
  - constructor.
  - apply M_StarS; [assumption | by apply IHmatches].
Qed.

End RegexComplete.

Section PatternOrder.
Import Regex RegexSpec RegexFacts RegexComplete.

(** A derivation for a literal word, and for the alternative of a list of
    words that spells the input. *)
Ltac match_word :=
  repeat (eapply M_Seq; [apply M_Lit; reflexivity|]); apply M_Eps.

Ltac match_keyword :=
  first [ solve [ match_word ]
        | solve [ apply M_AltL; match_word ]
        | apply M_AltR; match_keyword ].

Lemma matches_Seq_inv ic r1 r2 pos s caps pos2 s2 caps2 :
  matches ic (Seq r1 r2) pos s caps pos2 s2 caps2 ->
  exists pos1 s1 caps1,
    matches ic r1 pos s caps pos1 s1 caps1 /\
    matches ic r2 pos1 s1 caps1 pos2 s2 caps2.
Proof. inversion 1; subst. eauto. Qed.

Lemma matches_Grp_inv ic n r pos s caps pos' s' caps2 :
  matches ic (Grp n r) pos s caps pos' s' caps2 ->
  exists caps',
    matches ic r pos s caps pos' s' caps' /\
    caps2 = (n, String.substring 0 (pos' - pos) s) :: caps'.
Proof. inversion 1; subst. eauto. Qed.

Lemma matches_Alt_inv ic r1 r2 pos s caps pos' s' caps' :
  matches ic (Alt r1 r2) pos s caps pos' s' caps' ->
  matches ic r1 pos s caps pos' s' caps' \/
  matches ic r2 pos s caps pos' s' caps'.
Proof. inversion 1; subst; eauto. Qed.

Lemma matches_Bos_inv ic pos s caps pos' s' caps' :
  matches ic Bos pos s caps pos' s' caps' ->
  pos = 0%nat /\ pos' = 0%nat /\ s' = s /\ caps' = caps.
Proof. inversion 1; subst. eauto. Qed.

Lemma matches_Eps_inv ic pos s caps pos' s' caps' :
  matches ic Eps pos s caps pos' s' caps' ->
  pos' = pos /\ s' = s /\ caps' = caps.
Proof. inversion 1; subst. eauto. Qed.

Lemma matches_Eos_inv ic pos s caps pos' s' caps' :
  matches ic Eos pos s caps pos' s' caps' ->
  s = "" /\ pos' = pos /\ s' = "" /\ caps' = caps.
Proof. inversion 1; subst. eauto. Qed.

Lemma matches_Lit_inv ic c pos s caps pos' s' caps' :
  matches ic (Lit c) pos s caps pos' s' caps' ->
  exists x,
    s = String x s' /\ sameChar ic c x = true /\ pos' = S pos /\ caps' = caps.
Proof. inversion 1; subst. eauto. Qed.

(** What ends the named-identifier pattern also ends the reserved-name
    pattern. *)
Lemma brace_or_end c pos s caps pos' s' caps' :
  matches false (Alt (Lit c) Eos) pos s caps pos' s' caps' ->
  caps' = caps /\
  forall caps2,
    matches true (Regex.alts (Lit c) [Eos; Lit ";"]) pos s caps2 pos' s' caps2.
Proof.
  intros [Hl|Hr]%matches_Alt_inv.
  - apply matches_Lit_inv in Hl as (x & -> & Hx & -> & ->).
    split; [reflexivity|]. intros caps2. apply M_AltL, M_Lit.
    unfold sameChar in *. apply Ascii.eqb_eq in Hx as <-.
    apply Ascii.eqb_refl.
  - apply matches_Eos_inv in Hr as (-> & -> & -> & ->).
    split; [reflexivity|]. intros caps2. apply M_AltR, M_AltL. constructor.
Qed.

(** A line that the named-identifier pattern matches with a reserved name
    has a match of the reserved-name pattern. *)
Lemma reserved_name_matches (text : string) (m : captures) (name : string) :
  matchPattern text NAMED_BLOCK_REGEX = Some m ->
  matchGroup m 1 = Ok name ->
  Js.arrayIncludes reservedNames name = true ->
  matchPattern text EDGES_REGEX <> None.
Proof.
  intros HN Hname Hres. unfold matchPattern in HN. simpl in HN.
  apply exec_anchored_sound in HN as (pos' & s' & Hm).
  apply matches_Seq_inv in Hm as (? & ? & ? & Hbos & Hm).
  apply matches_Bos_inv in Hbos as (_ & -> & -> & ->).
  apply matches_Seq_inv in Hm as (p1 & s2 & caps1 & Hg1 & Hm).
  apply matches_Grp_inv in Hg1 as (caps0 & Hbody & ->).
  apply matches_consumes in Hbody as (t & -> & ->).
  apply matches_Seq_inv in Hm as (p2 & s3 & caps2 & Hstar & Hm).
  pose proof (PatternFacts.matches_Star _ _ _ _ _ _ _ _ Hstar) as [-> _].
  apply matches_Seq_inv in Hm as (p3 & s4 & caps3 & Hg2 & Heps).
  apply matches_Eps_inv in Heps as (-> & -> & ->).
  apply matches_Grp_inv in Hg2 as (caps4 & Halt & ->).
  apply brace_or_end in Halt as [-> Halt].
  unfold matchGroup in Hname. simpl in Hname.
  rewrite ?Nat.add_0_l, ?Nat.sub_0_r, substring_prefix in Hname.
  injection Hname as ->.
  unfold Js.arrayIncludes, reservedNames in Hres. simpl in Hres.
  unfold matchPattern. simpl.
  repeat (apply orb_prop in Hres as [Hres|Hres]);
    try discriminate; apply String.eqb_eq in Hres as ->;
    simpl in Hstar |- *;
    (eapply exec_complete;
     eapply M_Seq; [apply M_Bos|];
     eapply M_Seq; [apply M_Grp; simpl; match_keyword|];
     eapply M_Seq; [eapply matches_Star_any; exact Hstar|];
     eapply M_Seq; [apply M_Grp, Halt | apply M_Eps]).
Qed.

(** X9. The named-block branch looks its name up in the table of the five
    reserved names, but never finds it there: a line that the
    named-identifier pattern matches with one of these names is matched by
    the reserved-name pattern, which is tried first. *)
Theorem reserved_name_is_matched_first (text : string) (m : captures)
    (name : string) :
  matchPattern text NAMED_BLOCK_REGEX = Some m ->
  matchGroup m 1 = Ok name ->
  Js.arrayIncludes reservedNames name = true ->
  matchPattern text EDGES_REGEX <> None.
Proof. apply reserved_name_matches. Qed.

Lemma reserved_name_is_matched_first_witness :
  matchPattern "faces {" EDGES_REGEX <> None.
Proof.
  apply (reserved_name_is_matched_first "faces {"
           [(2%nat, "{"); (1%nat, "faces")] "faces");
    reflexivity.
Defined.

End PatternOrder.

Section NamedBlock.
Variable document : TextDocument.

(** What the named-block branch creates. *)
Lemma named_block_symbol i line m :
  lineAt document i = Ok line ->
  isBlankOrComment (Js.trim (TextLine.text line)) = false ->
  matchPattern (Js.trim (TextLine.text line)) EDGES_REGEX = None ->
  matchPattern (Js.trim (TextLine.text line)) NAMED_BLOCK_REGEX = Some m ->
  if Js.includes (Js.trim (TextLine.text line)) "{"
     || opensBlockAhead document i
  then
    exists symbol name e,
      symbolOfLine document i = Ok (Some symbol) /\
      matchGroup m 1 = Ok name /\
      DocumentSymbol.name symbol = name /\
      (if Js.arrayIncludes patchNames name
       then DocumentSymbol.kind symbol = SymbolKind.Interface /\
            DocumentSymbol.detail symbol = "boundary"
       else DocumentSymbol.kind symbol = SymbolKind.Object /\
            DocumentSymbol.detail symbol = "block") /\
      findClosingBracket document (i + 1) "{" "}"
        (if Js.includes (Js.trim (TextLine.text line)) "{" then 1 else 0)
      = Ok e /\
      spansLines document i e symbol
  else symbolOfLine document i = Ok None.
Proof.
  intros Hl Hsig HE HN. pose proof (lineAt_inv _ _ _ Hl) as (Hi & _).
  unfold symbolOfLine. rewrite Hl. cbn [bind]. rewrite Hsig.
  unfold classify. rewrite HE, HN.
  destruct (PatternFacts.NAMED_BLOCK_REGEX_name _ _ HN) as (name & Hname & Hne).
  rewrite Hname. cbn [bind].
  assert (Js.arrayIncludes reservedNames name = false) as Hres.
  { destruct (Js.arrayIncludes reservedNames name) eqn:Hres; [|reflexivity].
    by destruct (reserved_name_matches _ _ _ HN Hname Hres). }
  fold reservedNames patchNames. rewrite Hres.
  rewrite (foundOpeningBrace_opensBlockAhead document i Hi).
  destruct (findClosingBracket_after document i "{" "}"
              (if Js.includes (Js.trim (TextLine.text line)) "{" then 1 else 0)
              Hi) as (e & He & Hb).
  destruct (Js.includes (Js.trim (TextLine.text line)) "{") eqn:Hbrace;
    cbn [negb orb bind];
    [|destruct (opensBlockAhead document i); cbn [negb bind]; [|reflexivity]];
    rewrite He; cbn [bind];
    (destruct (Js.arrayIncludes patchNames name) eqn:Hpatch;
     [ destruct (blockSymbol_Some document i line e name "boundary"
                   SymbolKind.Interface Hl Hb Hne)
         as (symbol & Hs & Hn & Hd & Hk & Hspan)
     | destruct (blockSymbol_Some document i line e name "block"
                   SymbolKind.Object Hl Hb Hne)
         as (symbol & Hs & Hn & Hd & Hk & Hspan) ];
     exists symbol, name, e; rewrite Hpatch; by repeat split).
Qed.

End NamedBlock.

(** X10. A line that reaches the named-block branch (the reserved-name
    pattern does not match it, the named-identifier pattern does) creates a
    symbol exactly when it has a brace itself or the look-ahead finds one.
    The symbol is named by the identifier; it is an Interface with the
    detail [boundary] when the name is one of the five patch names and an
    Object with the detail [block] otherwise, never a Struct; its range
    ends on the line that the block-span resolver returns from the next
    line on, with one brace open when the line has a brace. *)
Theorem named_block_line (document : TextDocument) (i : Z)
    (line : TextLine.t) (m : Regex.captures) :
  lineAt document i = Ok line ->
  isBlankOrComment (Js.trim (TextLine.text line)) = false ->
  matchPattern (Js.trim (TextLine.text line)) EDGES_REGEX = None ->
  matchPattern (Js.trim (TextLine.text line)) NAMED_BLOCK_REGEX = Some m ->
  if Js.includes (Js.trim (TextLine.text line)) "{"
     || opensBlockAhead document i
  then
    exists symbol name e,
      symbolOfLine document i = Ok (Some symbol) /\
      matchGroup m 1 = Ok name /\
      DocumentSymbol.name symbol = name /\
      (if Js.arrayIncludes patchNames name
       then DocumentSymbol.kind symbol = SymbolKind.Interface /\
            DocumentSymbol.detail symbol = "boundary"
       else DocumentSymbol.kind symbol = SymbolKind.Object /\
            DocumentSymbol.detail symbol = "block") /\
      findClosingBracket document (i + 1) "{" "}"
        (if Js.includes (Js.trim (TextLine.text line)) "{" then 1 else 0)
      = Ok e /\
      spansLines document i e symbol
  else symbolOfLine document i = Ok None.
Proof. apply named_block_symbol. Qed.

Lemma named_block_line_witness :
  exists symbol name e,
    symbolOfLine ["inlet {"; "  type patch;"; "}"] 0 = Ok (Some symbol) /\
    matchGroup [(2%nat, "{"); (1%nat, "inlet")] 1 = Ok name /\
    DocumentSymbol.name symbol = name /\
    (if Js.arrayIncludes patchNames name
     then DocumentSymbol.kind symbol = SymbolKind.Interface /\
          DocumentSymbol.detail symbol = "boundary"
     else DocumentSymbol.kind symbol = SymbolKind.Object /\
          DocumentSymbol.detail symbol = "block") /\
    findClosingBracket ["inlet {"; "  type patch;"; "}"] 1 "{" "}" 1 = Ok e /\
    spansLines ["inlet {"; "  type patch;"; "}"] 0 e symbol.
Proof.
  apply (named_block_line ["inlet {"; "  type patch;"; "}"] 0 _ _
           eq_refl eq_refl eq_refl eq_refl).
Defined.

(** X4. The header line [FoamFile] never reaches the branch written for
    it: the named-identifier pattern matches it first. It is looked ahead
    for a brace over four lines only, creates nothing when none is found,
    and otherwise creates an Object symbol with the detail [block], not a
    File symbol with the detail [header]. *)
Theorem FoamFile_line (document : TextDocument) (i : Z) (line : TextLine.t) :
  lineAt document i = Ok line ->
  Js.trim (TextLine.text line) = "FoamFile" ->
  if opensBlockAhead document i
  then
    exists symbol e,
      symbolOfLine document i = Ok (Some symbol) /\
      DocumentSymbol.name symbol = "FoamFile" /\
      DocumentSymbol.kind symbol = SymbolKind.Object /\
      DocumentSymbol.detail symbol = "block" /\
      findClosingBracket document (i + 1) "{" "}" 0 = Ok e /\
      spansLines document i e symbol
  else symbolOfLine document i = Ok None.
Proof.
  intros Hl Htext.
  pose proof (named_block_symbol document i line
                [(2%nat, ""); (1%nat, "FoamFile")] Hl) as H.
  rewrite Htext in H.
  specialize (H eq_refl eq_refl eq_refl). simpl in H.
  destruct (opensBlockAhead document i); [|exact H].
  destruct H as (symbol & name & e & Hs & [= <-] & Hn & [Hk Hd] & He & Hspan).
  by exists symbol, e.
Qed.

Lemma FoamFile_line_witness :
  (exists symbol e,
     symbolOfLine ["FoamFile"; "{"; "  version 2.0;"; "}"] 0
     = Ok (Some symbol) /\
     DocumentSymbol.name symbol = "FoamFile" /\
     DocumentSymbol.kind symbol = SymbolKind.Object /\
     DocumentSymbol.detail symbol = "block" /\
     findClosingBracket ["FoamFile"; "{"; "  version 2.0;"; "}"] 1 "{" "}" 0
     = Ok e /\
     spansLines ["FoamFile"; "{"; "  version 2.0;"; "}"] 0 e symbol) /\
  symbolOfLine ["FoamFile"; ""; ""; ""; ""; "{"; "}"] 0 = Ok None.
Proof.
  split.
  - apply (FoamFile_line ["FoamFile"; "{"; "  version 2.0;"; "}"] 0 _
             eq_refl eq_refl).
  - apply (FoamFile_line ["FoamFile"; ""; ""; ""; ""; "{"; "}"] 0 _
             eq_refl eq_refl).
Defined.

(** ** The forest follows the indents *)

Section NestingPush.
Variables (document : TextDocument) (st : ScanState).
Variables (symbol : DocumentSymbol.t) (indent : nat).
Hypothesis Hwf : WellFormed st.
Hypothesis Hright : Rightmost st.
Hypothesis Hnest : Nesting document st.
Hypothesis Hfresh : DocumentSymbol.children symbol = [].
Hypothesis Hindent : indentOf document symbol = indent.
Local Abbreviation n := (List.length (heap st)).
Local Abbreviation kept :=
  (popLoop (List.length (stack st)) (stack st) indent).
Local Abbreviation st' :=
  (pushSymbol {| heap := heap st ++ [symbol];
                 symbols := symbols st;
                 stack := stack st |} n indent).

Lemma indentOf_pushChild c node :
  indentOf document (DocumentSymbol.pushChild c node) = indentOf document node.
Proof. reflexivity. Qed.

(** The store after the push, seen from the store before it. *)
Lemma push_forward q node :
  heap st !! q = Some node ->
  exists node',
    heap st' !! q = Some node' /\
    indentOf document node' = indentOf document node.
Proof.
  intros Hq. pose proof (lookup_lt_Some _ _ _ Hq) as Hlt.
  unfold pushSymbol. simpl. destruct (last kept) as [top|]; simpl.
  - destruct (decide (StackEntry.symbol top = q)) as [<-|Hne].
    + eexists. split; [|apply (indentOf_pushChild n node)].
      rewrite list_lookup_alter_eq, lookup_app_l by exact Hlt. by rewrite Hq.
    + exists node. split; [|reflexivity].
      rewrite list_lookup_alter_ne by exact Hne. by rewrite lookup_app_l.
  - exists node. split; [|reflexivity]. by rewrite lookup_app_l.
Qed.

Lemma push_backward q node' :
  heap st' !! q = Some node' ->
  ((q < n)%nat /\
   exists node,
     heap st !! q = Some node /\
     indentOf document node' = indentOf document node /\
     forall c,
       c ∈ DocumentSymbol.children node' ->
       c ∈ DocumentSymbol.children node \/
       (c = n /\ option_map StackEntry.symbol (last kept) = Some q)) \/
  (q = n /\ node' = symbol).
Proof.
  unfold pushSymbol. simpl. intros Hq.
  assert (q < n \/ q = n)%nat as [Hlt| ->].
  { destruct (last kept); simpl in Hq; apply lookup_lt_Some in Hq;
      rewrite ?length_alter, length_app in Hq; simpl in Hq; lia. }
  - left. split; [exact Hlt|].
    destruct (lookup_lt_is_Some_2 (heap st) q Hlt) as [node Hnode].
    exists node. split; [exact Hnode|].
    destruct (last kept) as [top|]; simpl in Hq.
    + destruct (decide (StackEntry.symbol top = q)) as [<-|Hne].
      * rewrite list_lookup_alter_eq, lookup_app_l, Hnode in Hq by exact Hlt.
        injection Hq as <-. split; [reflexivity|]. simpl. intros c Hc.
        apply elem_of_app in Hc as [Hc| ->%list_elem_of_singleton]; auto.
      * rewrite list_lookup_alter_ne, lookup_app_l, Hnode in Hq by done.
        injection Hq as <-. split; [reflexivity|]. auto.
    + rewrite lookup_app_l, Hnode in Hq by exact Hlt.
      injection Hq as <-. split; [reflexivity|]. auto.
  - right. split; [reflexivity|].
    destruct (last kept) as [top|] eqn:Hlast; simpl in Hq.
    + assert (StackEntry.symbol top < n)%nat as Htop.
      { destruct (popLoop_prefix indent (List.length (stack st)) (stack st))
          as [popped Hk].
        pose proof (wf_stack_refs st Hwf) as Hrefs. rewrite Hk in Hrefs.
        apply Forall_app in Hrefs as [Hrefs _].
        eapply (proj1 (Forall_forall _ _) Hrefs). by eapply last_Some_elem_of. }
      rewrite list_lookup_alter_ne in Hq by lia.
      rewrite lookup_app_r, Nat.sub_diag in Hq by lia. by injection Hq.
    + rewrite lookup_app_r, Nat.sub_diag in Hq by lia. by injection Hq.
Qed.

Lemma push_new : heap st' !! n = Some symbol.
Proof.
  destruct (lookup_lt_is_Some_2 (heap st') n) as [node Hnode].
  { unfold pushSymbol. simpl.
    destruct (last kept); simpl; rewrite ?length_alter, length_app; simpl;
      lia. }
  destruct (push_backward n node Hnode) as [[Hlt _]|[_ ->]]; [lia|exact Hnode].
Qed.

(** The references of the stack go up. *)
Lemma stack_refs_sorted :
  StronglySorted lt (map StackEntry.symbol (stack st)).
Proof.
  destruct Hright as [Hspine _].
  eapply Spine_sorted; [by apply wf_parent | exact Hspine].
Qed.

(** Every symbol after the entries that the pop loop keeps is indented at
    least as much as the incoming symbol. *)
Lemma after_kept :
  forall d q node,
    (n - q <= d)%nat ->
    heap st !! q = Some node ->
    (forall e, e ∈ kept -> (StackEntry.symbol e < q)%nat) ->
    (indent <= indentOf document node)%nat.
Proof.
  destruct (popLoop_spec indent (List.length (stack st)) (stack st))
    as (popped & Hk & Hpopped & _); [lia|].
  induction d as [|d IH]; intros q node Hd Hq Hkept.
  { apply lookup_lt_Some in Hq. lia. }
  destruct (decide (q ∈ map StackEntry.symbol (stack st))) as [Hin|Hout].
  - apply list_elem_of_In, in_map_iff in Hin as (e & <- & He).
    apply list_elem_of_In in He. rewrite Hk in He.
    apply elem_of_app in He as [He|He].
    + specialize (Hkept e He). lia.
    + pose proof (proj1 (Forall_forall _ _) Hpopped e He) as Hge. simpl in Hge.
      pose proof (nest_stack document st Hnest) as Hstack.
      rewrite Hk in Hstack. apply Forall_app in Hstack as [_ Hstack].
      destruct (proj1 (Forall_forall _ _) Hstack e He) as (node0 & Hn0 & Hi0).
      assert (node0 = node) as -> by congruence. lia.
  - destruct (nest_closed document st Hnest q node Hq Hout)
      as (q' & node' & Hlt & Hq' & Hle).
    assert (indent <= indentOf document node')%nat; [|lia].
    apply (IH q' node'); [lia|exact Hq'|].
    intros e He. specialize (Hkept e He). lia.
Qed.

Lemma kept_below_top top e :
  last kept = Some top -> e ∈ kept ->
  (StackEntry.symbol e <= StackEntry.symbol top)%nat.
Proof.
  intros Hlast He.
  destruct (popLoop_prefix indent (List.length (stack st)) (stack st))
    as [popped Hk].
  pose proof stack_refs_sorted as Hs. rewrite Hk, map_app in Hs.
  apply StronglySorted_app_1_l in Hs.
  apply last_Some in Hlast as [kept0 Hkept]. rewrite Hkept in Hs, He.
  rewrite map_app in Hs. simpl in Hs.
  apply elem_of_app in He as [He| ->%list_elem_of_singleton]; [|lia].
  assert (StackEntry.symbol e < StackEntry.symbol top)%nat; [|lia].
  eapply (StronglySorted_app_1_elem_of lt); [exact Hs| |by left].
  apply list_elem_of_In, in_map, list_elem_of_In, He.
Qed.

Lemma top_indent top :
  last kept = Some top ->
  exists pnode,
    heap st !! StackEntry.symbol top = Some pnode /\
    (indentOf document pnode < indent)%nat.
Proof.
  intros Hlast.
  destruct (popLoop_spec indent (List.length (stack st)) (stack st))
    as (popped & Hk & _ & Htop); [lia|].
  specialize (Htop top Hlast).
  pose proof (nest_stack document st Hnest) as Hstack.
  rewrite Hk in Hstack. apply Forall_app in Hstack as [Hstack _].
  destruct (proj1 (Forall_forall _ _) Hstack top) as (pnode & Hp & Hi);
    [by eapply last_Some_elem_of|].
  exists pnode. split; [exact Hp|lia].
Qed.

Lemma pushSymbol_Nesting : Nesting document st'.
Proof.
  destruct (popLoop_spec indent (List.length (stack st)) (stack st))
    as (popped & Hk & Hpopped & Htop); [lia|].
  assert (stack st' = kept ++ [StackEntry.mk n indent]) as Hstack'.
  { unfold pushSymbol. simpl. by destruct (last kept). }
  split.
  - (* the entries of the stack carry the indent of their symbol *)
    rewrite Hstack'. apply Forall_app. split.
    + pose proof (nest_stack document st Hnest) as Hstack.
      rewrite Hk in Hstack. apply Forall_app in Hstack as [Hstack _].
      eapply Forall_impl; [exact Hstack|]. simpl.
      intros e (node & Hnode & Hi).
      destruct (push_forward _ _ Hnode) as (node' & Hnode' & Hi').
      exists node'. split; [exact Hnode'|congruence].
    + constructor; [|constructor]. exists symbol. simpl.
      split; [exact push_new | by rewrite Hindent].
  - (* a symbol off the stack has been closed by a later one *)
    intros q node' Hq Hout. rewrite Hstack', map_app in Hout. simpl in Hout.
    apply not_elem_of_app in Hout as [Hkept Hnew].
    apply not_elem_of_cons in Hnew as [Hne _].
    destruct (push_backward q node' Hq)
      as [(Hlt & node & Hnode & Hi & _)|[-> _]]; [|done].
    destruct (decide (q ∈ map StackEntry.symbol (stack st))) as [Hin|Hout].
    + exists n, symbol. split; [exact Hlt|]. split; [exact push_new|].
      rewrite Hindent, Hi.
      rewrite Hk, map_app in Hin.
      apply elem_of_app in Hin as [Hin|Hin]; [done|].
      apply list_elem_of_In, in_map_iff in Hin as (e & <- & He).
      apply list_elem_of_In in He.
      pose proof (proj1 (Forall_forall _ _) Hpopped e He) as Hge. simpl in Hge.
      pose proof (nest_stack document st Hnest) as Hstack.
      rewrite Hk in Hstack. apply Forall_app in Hstack as [_ Hstack].
      destruct (proj1 (Forall_forall _ _) Hstack e He) as (node0 & Hn0 & Hi0).
      assert (node0 = node) as -> by congruence. lia.
    + destruct (nest_closed document st Hnest q node Hnode Hout)
        as (q' & nodeq & Hlt' & Hq' & Hle).
      destruct (push_forward _ _ Hq') as (nodeq' & Hnodeq' & Hiq).
      exists q', nodeq'. split; [exact Hlt'|]. split; [exact Hnodeq'|].
      rewrite Hiq, Hi. exact Hle.
  - (* parents *)
    intros p node' r child' Hp Hr Hchild.
    destruct (push_backward p node' Hp)
      as [(Hlt & node & Hnode & Hi & Hchildren)|[-> ->]];
      [|rewrite Hfresh in Hr; by apply elem_of_nil in Hr].
    destruct (Hchildren r Hr) as [Hold|[-> Hparent]].
    + assert (r < n)%nat as Hrn
        by (eapply placed_lt; [exact Hwf|]; by eapply placements_elem).
      destruct (push_backward r child' Hchild)
        as [(_ & child & Hc & Hic & _)|[-> _]]; [|lia].
      destruct (nest_parent document st Hnest p node r child Hnode Hold Hc)
        as [Hlt' Hbetween].
      rewrite Hi, Hic. split; [exact Hlt'|].
      intros q mid' Hq Hmid.
      destruct (push_backward q mid' Hmid)
        as [(_ & mid & Hm & Him & _)|[-> _]]; [|lia].
      rewrite Him. by eapply Hbetween.
    + assert (child' = symbol) as ->.
      { pose proof push_new as Hnew. congruence. }
      destruct (last kept) as [top|] eqn:Hlast; [|discriminate].
      simpl in Hparent. injection Hparent as <-.
      destruct (top_indent top Hlast) as (pnode & Hpnode & Hlt').
      assert (pnode = node) as -> by congruence.
      rewrite Hi, Hindent. split; [exact Hlt'|].
      intros q mid' Hq Hmid.
      destruct (push_backward q mid' Hmid)
        as [(_ & mid & Hm & Him & _)|[-> _]]; [|lia].
      rewrite Him. apply (after_kept (n - q) q mid); [lia|exact Hm|].
      intros e He. pose proof (kept_below_top top e Hlast He). lia.
  - (* roots *)
    intros r root' Hr Hroot q mid' Hq Hmid.
    destruct (push_backward q mid' Hmid)
      as [(Hqn & mid & Hm & Him & _)|[-> _]].
    2:{ apply lookup_lt_Some in Hroot. revert Hroot. unfold pushSymbol. simpl.
        destruct (last kept); simpl; rewrite ?length_alter, length_app;
          simpl; lia. }
    rewrite Him.
    assert (r ∈ symbols st \/
            (r = n /\ last kept = None)) as [Hold|[-> Hnone]].
    { revert Hr. unfold pushSymbol. simpl.
      destruct (last kept); simpl; [by left|].
      intros [?| ->%list_elem_of_singleton]%elem_of_app; auto. }
    + assert (r < n)%nat as Hrn.
      { eapply placed_lt; [exact Hwf|]. unfold placements.
        apply elem_of_app. by left. }
      destruct (push_backward r root' Hroot)
        as [(_ & root & Hro & Hir & _)|[-> _]]; [|lia].
      rewrite Hir. by eapply (nest_root document st Hnest r root Hold Hro q).
    + assert (root' = symbol) as ->.
      { pose proof push_new as Hnew. congruence. }
      rewrite Hindent. apply (after_kept (n - q) q mid); [lia|exact Hm|].
      apply last_None in Hnone. rewrite Hnone.
      intros e He. by apply elem_of_nil in He.
Qed.

End NestingPush.

Section NestingLoop.
Variable document : TextDocument.

Lemma initialState_Nesting : Nesting document initialState.
Proof.
  split; simpl.
  - constructor.
  - intros q node Hq. by rewrite lookup_nil in Hq.
  - intros p node r child Hp. by rewrite lookup_nil in Hp.
  - intros r root Hr. by apply elem_of_nil in Hr.
Qed.

Lemma loopBody_Nesting (k : nat) st st' :
  Invariant document k st -> Nesting document st ->
  (k < List.length document)%nat ->
  loopBody document (Z.of_nat k) st = Ok st' ->
  Nesting document st'.
Proof.
  intros (Hwf & _ & Hright) Hnest Hk Hrun.
  destruct (lookup_lt_is_Some_2 document k Hk) as [s Hs].
  pose proof (lineAt_lookup document k s Hs) as Hl.
  rewrite (loopBody_symbolOfLine document _ _ st Hl) in Hrun.
  destruct (symbolOfLine document (Z.of_nat k)) as [[symbol|]|] eqn:Hsym;
    simpl in Hrun; [| |discriminate]; injection Hrun as <-; [|exact Hnest].
  destruct (symbolOfLine_Some document _ _ Hsym) as (line & _ & Hfresh & _).
  apply pushSymbol_Nesting; try done.
  unfold indentOf.
  rewrite (symbolOfLine_definingLine document _ _ Hsym), Nat2Z.id, Hs.
  reflexivity.
Qed.

Lemma mainLoop_Nesting :
  forall n (k : nat) st,
    Invariant document k st -> Nesting document st ->
    (k + n <= List.length document)%nat ->
    exists st',
      mainLoop document n (Z.of_nat k) st = Ok st' /\
      Invariant document (k + n) st' /\ Nesting document st'.
Proof.
  induction n as [|n IH]; intros k st Hinv Hnest Hn; simpl.
  - exists st. split; [reflexivity|]. by rewrite Nat.add_0_r.
  - destruct (loopBody_Invariant document k st Hinv) as (st1 & Hst1 & Hinv1);
      [lia|].
    pose proof (loopBody_Nesting k st st1 Hinv Hnest ltac:(lia) Hst1) as Hnest1.
    rewrite Hst1. simpl.
    destruct (IH (S k) st1 Hinv1 Hnest1) as (st' & Hrun & Hinv' & Hnest');
      [lia|].
    exists st'. split; [|split; [|exact Hnest']].
    + rewrite <- Hrun. f_equal. lia.
    + by replace (k + S n)%nat with (S k + n)%nat by lia.
Qed.

Lemma provideDocumentSymbols_Nesting :
  exists st,
    provideDocumentSymbols document = Ok (heap st, symbols st) /\
    Invariant document (List.length document) st /\ Nesting document st.
Proof.
  destruct (mainLoop_Nesting (List.length document) 0 initialState
              (initialState_Invariant document) initialState_Nesting)
    as (st & Hrun & Hinv & Hnest); [lia|].
  exists st. split; [|by split].
  unfold provideDocumentSymbols, scanPrefix.
  change (Z.of_nat 0) with 0 in Hrun. by rewrite Hrun.
Qed.

End NestingLoop.

(** X1. The scan returns a forest in which every child is indented more
    than its parent while no symbol created between the two is indented
    less than the child, and no symbol created before a root is indented
    less than the root: [pushSymbol] hangs a symbol under the nearest
    earlier symbol of smaller indent, and makes it a root when there is
    none.  The indent of a symbol is that of the line that defines it. *)
Theorem parent_is_nearest_smaller_indent (document : TextDocument) :
  exists h roots,
    provideDocumentSymbols document = Ok (h, roots) /\
    (forall p node r child,
        h !! p = Some node -> r ∈ DocumentSymbol.children node ->
        h !! r = Some child ->
        (indentOf document node < indentOf document child)%nat /\
        forall q mid,
          (p < q < r)%nat -> h !! q = Some mid ->
          (indentOf document child <= indentOf document mid)%nat) /\
    (forall r root,
        r ∈ roots -> h !! r = Some root ->
        forall q mid,
          (q < r)%nat -> h !! q = Some mid ->
          (indentOf document root <= indentOf document mid)%nat).
Proof.
  destruct (provideDocumentSymbols_Nesting document)
    as (st & Hrun & _ & Hnest).
  exists (heap st), (symbols st). split; [exact Hrun|]. split.
  - apply (nest_parent document st Hnest).
  - apply (nest_root document st Hnest).
Qed.

(** ** The block-span resolver in closed form *)

Section Resolver.
Variables (openChar closeChar : ascii).

Lemma findClosingBracketFrom_firstZero document :
  forall n (k : nat) open,
    List.length (skipn k document) = n ->
    findClosingBracketFrom document openChar closeChar n (Z.of_nat k) open
    = Ok (match firstZero (openCounts openChar closeChar open
                             (skipn k document)) with
          | Some d => Z.of_nat (k + d)
          | None => lineCount document - 1
          end).
Proof.
  induction n as [|n IH]; intros k open Hlen.
  - apply length_zero_iff_nil in Hlen. by rewrite Hlen.
  - assert (k < List.length document)%nat as Hk.
    { rewrite length_skipn in Hlen. lia. }
    destruct (lookup_lt_is_Some_2 document k Hk) as [s Hs].
    rewrite (drop_S _ _ _ Hs) in Hlen |- *. simpl in Hlen.
    cbn [openCounts firstZero]. unfold countAfter.
    simpl. rewrite (lineAt_lookup document k s Hs). simpl.
    replace (Z.of_nat k + 1) with (Z.of_nat (S k)) by lia.
    destruct ((open =? 0) && String.eqb (Js.trim s) (String openChar "")).
    + rewrite (IH (S k) 1) by lia. simpl.
      destruct (firstZero _) as [d|]; simpl; [|reflexivity].
      do 2 f_equal. lia.
    + match goal with |- context [if ?c =? 0 then _ else _] =>
        destruct (c =? 0); [by rewrite Nat.add_0_r|] end.
      rewrite IH by lia.
      destruct (firstZero _) as [d|]; simpl; [|reflexivity].
      do 2 f_equal. lia.
Qed.

Lemma openCounts_app open l1 l2 :
  exists rest,
    openCounts openChar closeChar open (l1 ++ l2)
    = openCounts openChar closeChar open l1 ++ rest.
Proof.
  revert open. induction l1 as [|s l1 IH]; intros open; [by eexists|].
  cbn [app openCounts].
  destruct (IH (countAfter openChar closeChar open s)) as [rest ->].
  by exists rest.
Qed.

Lemma firstZero_app counts1 counts2 d :
  firstZero counts1 = Some d -> firstZero (counts1 ++ counts2) = Some d.
Proof.
  revert d. induction counts1 as [|c counts1 IH]; intros d; [discriminate|].
  simpl. destruct (c =? 0); [done|].
  destruct (firstZero counts1) as [d'|]; [|discriminate].
  intros [= <-]. by rewrite (IH d').
Qed.

Lemma firstZero_elem counts :
  0 ∈ counts -> exists d, firstZero counts = Some d.
Proof.
  induction counts as [|c counts IH]; [by intros ?%elem_of_nil|].
  intros [<-|Hin]%elem_of_cons; simpl; [by exists 0%nat|].
  destruct (c =? 0); [by exists 0%nat|].
  destruct (IH Hin) as [d ->]. by exists (S d).
Qed.

Lemma firstZero_Some counts d :
  firstZero counts = Some d ->
  counts !! d = Some 0 /\
  forall j c, (j < d)%nat -> counts !! j = Some c -> c <> 0.
Proof.
  revert d. induction counts as [|c counts IH]; intros d; [discriminate|].
  simpl. destruct (Z.eqb_spec c 0) as [->|Hne].
  - intros [= <-]. split; [reflexivity|]. intros; lia.
  - destruct (firstZero counts) as [d'|]; [|discriminate].
    intros [= <-]. destruct (IH d' eq_refl) as [Hd Hbefore].
    split; [exact Hd|]. intros [|j] c' Hj Hc; simpl in Hc.
    + congruence.
    + apply (Hbefore j); [lia|exact Hc].
Qed.

Lemma firstZero_None counts :
  firstZero counts = None -> Forall (fun c => c <> 0) counts.
Proof.
  induction counts as [|c counts IH]; [constructor|].
  simpl. destruct (Z.eqb_spec c 0) as [->|Hne]; [discriminate|].
  destruct (firstZero counts); [discriminate|].
  intros _. constructor; [exact Hne | by apply IH].
Qed.

End Resolver.

(** X5. The block-span resolver in closed form, for every document, every
    starting line, every pair of delimiters and every initial count: it
    returns the first line, from the starting line on, that leaves the open
    count at 0, and the last line of the document when there is none, also
    when the starting line is past the end. No count before the returned
    line is 0. *)
Theorem findClosingBracket_first_zero (document : TextDocument)
    (startLine : nat) (openChar closeChar : ascii) (initialCount : Z) :
  let counts :=
    openCounts openChar closeChar initialCount (skipn startLine document) in
  findClosingBracket document (Z.of_nat startLine) openChar closeChar
    initialCount
  = Ok (match firstZero counts with
        | Some d => Z.of_nat (startLine + d)
        | None => lineCount document - 1
        end) /\
  match firstZero counts with
  | Some d =>
      counts !! d = Some 0 /\
      forall j c, (j < d)%nat -> counts !! j = Some c -> c <> 0
  | None => Forall (fun c => c <> 0) counts
  end.
Proof.
  intros counts. split.
  - unfold findClosingBracket. apply findClosingBracketFrom_firstZero.
    rewrite length_skipn. unfold lineCount. lia.
  - destruct (firstZero counts) as [d|] eqn:Hd.
    + by apply firstZero_Some.
    + by apply firstZero_None.
Qed.

(** X6. Once a line leaves the open count at 0 the resolver has its answer:
    lines added after the document do not change it. (When no line does,
    the answer is the last line, and moves with the end of the document.) *)
Theorem closed_span_ignores_later_lines (document extra : TextDocument)
    (startLine : nat) (openChar closeChar : ascii) (initialCount : Z) :
  0 ∈ openCounts openChar closeChar initialCount (skipn startLine document) ->
  findClosingBracket (document ++ extra) (Z.of_nat startLine) openChar
    closeChar initialCount
  = findClosingBracket document (Z.of_nat startLine) openChar closeChar
      initialCount.
Proof.
  intros [d Hd]%firstZero_elem. unfold findClosingBracket.
  rewrite !findClosingBracketFrom_firstZero
    by (rewrite length_skipn; unfold lineCount; lia).
  rewrite skipn_app.
  destruct (openCounts_app openChar closeChar initialCount
              (skipn startLine document)
              (skipn (startLine - List.length document) extra)) as [rest ->].
  rewrite (firstZero_app _ _ d Hd), Hd. reflexivity.
Qed.

Lemma closed_span_ignores_later_lines_witness :
  findClosingBracket (["a"; "{"; "  b 1;"; "}"] ++ ["c"; "{"]) 1 "{" "}" 0
  = findClosingBracket ["a"; "{"; "  b 1;"; "}"] 1 "{" "}" 0.
Proof.
  apply (closed_span_ignores_later_lines ["a"; "{"; "  b 1;"; "}"] ["c"; "{"]
           1 "{" "}" 0).
  vm_compute. apply list_elem_of_In. simpl. tauto.
Defined.

(** ** What the patterns capture *)

Module CaptureFacts.
Import Regex RegexSpec RegexFacts RegexComplete.

Lemma allAscii_spec P : allAscii P = true -> forall x, P x = true.
Proof.
  unfold allAscii. rewrite forallb_forall. intros H x.
  rewrite <- (ascii_nat_embedding x). apply H, in_seq.
  pose proof (nat_ascii_bounded x). lia.
Qed.

Lemma allChars_app q (t s : string) :
  allChars q (t ++ s) = allChars q t && allChars q s.
Proof.
  induction t as [|c t IH]; simpl; [reflexivity|].
  by rewrite IH, andb_assoc.
Qed.

Lemma allChars_impl (q q' : ascii -> bool) s :
  (forall c, q c = true -> q' c = true) ->
  allChars q s = true -> allChars q' s = true.
Proof.
  intros Hq. induction s as [|c s IH]; simpl; [done|].
  intros [Hc Hs]%andb_prop. by rewrite (Hq c Hc), IH.
Qed.

Lemma allChars_trimStart q s :
  allChars q s = true -> allChars q (Js.trimStart s) = true.
Proof.
  induction s as [|c s IH]; simpl; [done|].
  intros H. destruct (Js.isSpace c); [|exact H].
  apply andb_prop in H as [_ H]. by apply IH.
Qed.

Lemma allChars_trimEnd q s :
  allChars q s = true -> allChars q (Js.trimEnd s) = true.
Proof.
  induction s as [|c s IH]; simpl; [done|].
  intros [Hc Hs]%andb_prop. specialize (IH Hs).
  destruct (Js.trimEnd s) as [|c' t].
  - destruct (Js.isSpace c); simpl; [done | by rewrite Hc].
  - cbn [allChars] in IH |- *. by rewrite Hc, IH.
Qed.

Lemma allChars_trim q s :
  allChars q s = true -> allChars q (Js.trim s) = true.
Proof. intros H. by apply allChars_trimEnd, allChars_trimStart. Qed.

(** What a pattern consumes is made of the characters it can consume. *)
Lemma matches_chars ic r q pos s caps pos' s' caps' :
  consumes ic r q = true ->
  matches ic r pos s caps pos' s' caps' ->
  exists t,
    s = (t ++ s')%string /\ pos' = (pos + String.length t)%nat /\
    allChars q t = true.
Proof.
  intros Hq H. revert Hq.
  induction H as
    [ pos s caps | s caps | pos caps | c x pos s caps Hc | p x pos s caps Hp
    | r1 r2 pos s caps pos1 s1 caps1 pos2 s2 caps2 _ IH1 _ IH2
    | r1 r2 pos s caps pos' s' caps' _ IH
    | r1 r2 pos s caps pos' s' caps' _ IH
    | p pos s caps
    | p x pos s caps pos' s' caps' Hp _ IH
    | p x pos s caps pos' s' caps' Hp _ IH
    | n r pos s caps pos' s' caps' _ IH ];
    cbn [consumes]; intros Hq;
    try (exists ""; split; [reflexivity | split; [simpl; lia | reflexivity]]).
  - pose proof (allAscii_spec _ Hq x) as Hx. cbv beta in Hx.
    rewrite Hc in Hx. simpl in Hx.
    exists (String x ""). simpl. rewrite Hx. by repeat split; try lia.
  - pose proof (allAscii_spec _ Hq x) as Hx. cbv beta in Hx.
    rewrite Hp in Hx. simpl in Hx.
    exists (String x ""). simpl. rewrite Hx. by repeat split; try lia.
  - apply andb_prop in Hq as [Hq1 Hq2].
    destruct (IH1 Hq1) as (t1 & -> & -> & Ht1).
    destruct (IH2 Hq2) as (t2 & -> & -> & Ht2).
    exists (t1 ++ t2)%string. split; [|split].
    + clear. induction t1 as [|c t1 IH]; simpl; [reflexivity | by rewrite IH].
    + rewrite length_append. lia.
    + by rewrite allChars_app, Ht1, Ht2.
  - apply andb_prop in Hq as [Hq1 _]. by apply IH.
  - apply andb_prop in Hq as [_ Hq2]. by apply IH.
  - pose proof (allAscii_spec _ Hq x) as Hx. cbv beta in Hx.
    rewrite Hp in Hx. simpl in Hx.
    destruct (IH Hq) as (t & -> & -> & Ht). exists (String x t).
    simpl. rewrite Hx, Ht. by repeat split; try lia.
  - pose proof (allAscii_spec _ Hq x) as Hx. cbv beta in Hx.
    rewrite Hp in Hx. simpl in Hx.
    destruct (IH Hq) as (t & -> & -> & Ht). exists (String x t).
    simpl. rewrite Hx, Ht. by repeat split; try lia.
  - by apply IH.
Qed.

(** A group holds what its body has consumed. *)
Lemma matches_captures ic n r q pos s caps pos' s' caps' :
  capturesOnly ic n r q = true ->
  matches ic r pos s caps pos' s' caps' ->
  (forall t, group n caps = Some t -> allChars q t = true) ->
  forall t, group n caps' = Some t -> allChars q t = true.
Proof.
  intros Hq H. revert Hq.
  induction H as
    [ pos s caps | s caps | pos caps | c x pos s caps Hc | p x pos s caps Hp
    | r1 r2 pos s caps pos1 s1 caps1 pos2 s2 caps2 _ IH1 _ IH2
    | r1 r2 pos s caps pos' s' caps' _ IH
    | r1 r2 pos s caps pos' s' caps' _ IH
    | p pos s caps
    | p x pos s caps pos' s' caps' Hp _ IH
    | p x pos s caps pos' s' caps' Hp Hstar IH
    | m r pos s caps pos' s' caps' Hbody IH ];
    cbn [capturesOnly]; intros Hq Hcaps; try exact Hcaps.
  - apply andb_prop in Hq as [Hq1 Hq2]. auto.
  - apply andb_prop in Hq as [Hq1 _]. auto.
  - apply andb_prop in Hq as [_ Hq2]. auto.
  - by apply IH.
  - apply (matches_Star_any _ ic) with (caps2 := caps) in Hstar as Hstar'.
    pose proof (PatternFacts.matches_Star _ _ _ _ _ _ _ _ Hstar) as [-> _].
    exact Hcaps.
  - apply andb_prop in Hq as [Hq1 Hq2]. intros t. simpl.
    destruct (Nat.eqb_spec m n) as [->|Hne]; [|by apply IH].
    simpl in Hq2. intros [= <-].
    destruct (matches_chars _ _ _ _ _ _ _ _ _ Hq2 Hbody) as (t & -> & -> & Ht).
    replace (pos + String.length t - pos)%nat with (String.length t) by lia.
    by rewrite substring_prefix.
Qed.

Lemma exec_captures ic n r q text m t :
  capturesOnly ic n r q = true ->
  exec ic r text = Some m -> group n m = Some t -> allChars q t = true.
Proof.
  intros Hq Hm. apply execFrom_sound in Hm as (pos0 & s0 & pos' & s' & Hm).
  apply (matches_captures _ _ _ _ _ _ _ _ _ _ Hq Hm). discriminate.
Qed.

End CaptureFacts.

Section CapturedNames.
Import Regex RegexSpec RegexFacts RegexComplete CaptureFacts.

Lemma matches_noGroup ic n r pos s caps pos' s' caps' :
  noGroup n r = true ->
  matches ic r pos s caps pos' s' caps' -> group n caps' = group n caps.
Proof.
  intros Hn H. revert Hn.
  induction H as
    [ pos s caps | s caps | pos caps | c x pos s caps Hc | p x pos s caps Hp
    | r1 r2 pos s caps pos1 s1 caps1 pos2 s2 caps2 _ IH1 _ IH2
    | r1 r2 pos s caps pos' s' caps' _ IH
    | r1 r2 pos s caps pos' s' caps' _ IH
    | p pos s caps
    | p x pos s caps pos' s' caps' Hp _ IH
    | p x pos s caps pos' s' caps' Hp Hstar IH
    | m r pos s caps pos' s' caps' Hbody IH ];
    cbn [noGroup]; intros Hn; try reflexivity.
  - apply andb_prop in Hn as [Hn1 Hn2]. by rewrite IH2, IH1.
  - apply andb_prop in Hn as [Hn1 _]. by apply IH.
  - apply andb_prop in Hn as [_ Hn2]. by apply IH.
  - by apply IH.
  - by pose proof (PatternFacts.matches_Star _ _ _ _ _ _ _ _ Hstar) as [-> _].
  - apply andb_prop in Hn as [Hne Hn]. simpl.
    destruct (m =? n)%nat; [discriminate|]. by apply IH.
Qed.

(** The first group of a pattern anchored at the start, when it is the
    first thing the pattern matches, captures a prefix of the text. *)
Lemma anchored_name ic body rest text m :
  noGroup 1 rest = true ->
  exec ic (Seq Bos (Seq (Grp 1 body) rest)) text = Some m ->
  exists name tail, group 1 m = Some name /\ text = (name ++ tail)%string.
Proof.
  intros Hrest Hm. apply exec_anchored_sound in Hm as (pos' & s' & Hm).
  apply matches_Seq_inv in Hm as (? & ? & ? & Hbos & Hm).
  apply matches_Bos_inv in Hbos as (_ & -> & -> & ->).
  apply matches_Seq_inv in Hm as (p1 & s2 & caps1 & Hg1 & Hm).
  apply matches_Grp_inv in Hg1 as (caps0 & Hbody & ->).
  apply matches_consumes in Hbody as (t & -> & ->).
  exists t, s2. split; [|reflexivity].
  rewrite (matches_noGroup _ _ _ _ _ _ _ _ _ Hrest Hm). simpl.
  by rewrite Nat.sub_0_r, substring_prefix.
Qed.

(** Whichever of the five patterns matches, its first group is a prefix of
    the text, made of word characters and dots. *)
Lemma captured_name p text m :
  p ∈ patterns -> matchPattern text p = Some m ->
  exists name tail,
    matchGroup m 1 = Ok name /\ text = (name ++ tail)%string /\
    allChars nameChar name = true.
Proof.
  intros Hp Hm.
  assert (capturesOnly (ignoreCase p) 1 (source p) nameChar = true) as Hq.
  { unfold patterns in Hp. repeat apply elem_of_cons in Hp as [->|Hp];
      [vm_compute; reflexivity..|by apply elem_of_nil in Hp]. }
  assert (exists name tail,
             group 1 m = Some name /\ text = (name ++ tail)%string)
    as (name & tail & Hname & Htext).
  { unfold patterns in Hp. repeat apply elem_of_cons in Hp as [->|Hp];
      [eapply anchored_name; [|exact Hm]; reflexivity..
      |by apply elem_of_nil in Hp]. }
  exists name, tail. unfold matchGroup. rewrite Hname.
  split; [reflexivity|]. split; [exact Htext|].
  by eapply exec_captures.
Qed.

End CapturedNames.

Section Names.
Variable document : TextDocument.

(** The name of a symbol is the first group of the pattern that made it. *)
Lemma classify_name i line text symbol :
  lineAt document i = Ok line ->
  classify document i line text = Ok (Some symbol) ->
  exists p m,
    p ∈ patterns /\ matchPattern text p = Some m /\
    matchGroup m 1 = Ok (DocumentSymbol.name symbol).
Proof.
  intros Hl H. pose proof (lineAt_inv _ _ _ Hl) as (Hi & _).
  unfold classify in H. unfold patterns.
  destruct (matchPattern text EDGES_REGEX) as [m|] eqn:HE.
  { exists EDGES_REGEX, m. split; [apply list_elem_of_In; simpl; tauto|].
    split; [exact HE|].
    destruct (matchGroup m 1) as [name|]; [|discriminate]. simpl in H.
    destruct (_ && _); [discriminate|].
    destruct (findClosingBracket_after document i "{" "}"
                (if Js.includes text "{" then 1 else 0) Hi) as (e & He & Hb).
    rewrite He in H. simpl in H.
    apply (blockSymbol_inv document i) in H as (-> & _); [done|done|lia]. }
  destruct (matchPattern text NAMED_BLOCK_REGEX) as [m|] eqn:HN.
  { exists NAMED_BLOCK_REGEX, m. split; [apply list_elem_of_In; simpl; tauto|].
    split; [exact HN|].
    destruct (matchGroup m 1) as [name|]; [|discriminate]. cbn [bind] in H.
    destruct (if negb (Js.includes text "{") then foundOpeningBrace document i
              else Ok true) as [[|]|]; cbn [bind negb] in H; [|discriminate..].
    destruct (findClosingBracket_after document i "{" "}"
                (if Js.includes text "{" then 1 else 0) Hi) as (e & He & Hb).
    rewrite He in H. cbn [bind] in H. fold reservedNames patchNames in H.
    destruct (Js.arrayIncludes reservedNames name);
      [|destruct (Js.arrayIncludes patchNames name)];
      apply (blockSymbol_inv document i) in H as (-> & _); done || lia. }
  destruct (matchPattern text LIST_REGEX) as [m|] eqn:HL.
  { exists LIST_REGEX, m. split; [apply list_elem_of_In; simpl; tauto|].
    split; [exact HL|].
    destruct (matchGroup m 1) as [name|]; [|discriminate]. simpl in H.
    destruct (findClosingBracket_after document i "(" ")" 1 Hi)
      as (e & He & Hb).
    rewrite He in H. simpl in H.
    apply (blockSymbol_inv document i) in H as (-> & _); [done|done|lia]. }
  destruct (String.eqb text "FoamFile") eqn:HF.
  { by apply FoamFile_is_named_block in HF. }
  destruct (matchPattern text DICT_REGEX) as [m|] eqn:HD.
  { exists DICT_REGEX, m. split; [apply list_elem_of_In; simpl; tauto|].
    split; [exact HD|].
    destruct (matchGroup m 1) as [name|]; [|discriminate].
    destruct (matchGroup m 2) as [units|]; [|discriminate]. simpl in H.
    apply (lineSymbol_inv document i) in H as (-> & _); done. }
  destruct (matchPattern text KV_REGEX) as [m|] eqn:HK; [|discriminate].
  exists KV_REGEX, m. split; [apply list_elem_of_In; simpl; tauto|].
  split; [exact HK|].
  destruct (matchGroup m 1) as [name|]; [|discriminate].
  destruct (matchGroup m 2) as [raw|]; [|discriminate]. simpl in H.
  apply (lineSymbol_inv document i) in H as (-> & _); done.
Qed.

End Names.

(** X11. Every symbol of the returned store is named by the first token of
    the line that defines it: the trimmed line starts with the name, and
    the name is made of word characters and dots only (the characters that
    the first group of each of the five patterns admits, whatever the
    letter case of a reserved name). *)
Theorem returned_names (document : TextDocument) :
  exists h roots,
    provideDocumentSymbols document = Ok (h, roots) /\
    forall r node,
      h !! r = Some node ->
      exists s tail,
        document !! Z.to_nat (definingLine node) = Some s /\
        Js.trim s = (DocumentSymbol.name node ++ tail)%string /\
        allChars nameChar (DocumentSymbol.name node) = true.
Proof.
  destruct (provideDocumentSymbols_Invariant document) as (st & Hrun & Hinv).
  exists (heap st), (symbols st). split; [exact Hrun|].
  intros r node Hr.
  destruct (Invariant_symbol document _ st r node Hinv Hr) as (k & _ & Hk).
  pose proof (symbolOfLine_definingLine document _ _ Hk) as Hline.
  apply symbolOfLine_classify in Hk as (line & Hl & _ & Hc).
  destruct (classify_name document _ _ _ _ Hl Hc)
    as (p & m & Hp & Hm & Hname).
  destruct (captured_name p _ m Hp Hm) as (name & tail & Hname' & Htext & Hq).
  assert (name = DocumentSymbol.name node) as ->.
  { rewrite Hname in Hname'. destruct node. simpl in *. congruence. }
  apply lineAt_inv in Hl as (_ & s & Hs & ->).
  exists s, tail. split; [|by split].
  assert (definingLine node = Z.of_nat k) as ->
    by (rewrite <- Hline; by destruct node).
  exact Hs.
Qed.

(** X12. A line creates a symbol only if one of the five patterns matches
    its trimmed text: the test for the header [FoamFile], the only branch
    without a pattern, creates nothing on its own. *)
Theorem symbol_needs_pattern (document : TextDocument) (i : Z)
    (symbol : DocumentSymbol.t) :
  symbolOfLine document i = Ok (Some symbol) ->
  exists s p m,
    document !! Z.to_nat i = Some s /\
    isBlankOrComment (Js.trim s) = false /\
    p ∈ patterns /\ matchPattern (Js.trim s) p = Some m /\
    matchGroup m 1 = Ok (DocumentSymbol.name symbol).
Proof.
  intros (line & Hl & Hsig & Hc)%symbolOfLine_classify.
  destruct (classify_name document _ _ _ _ Hl Hc)
    as (p & m & Hp & Hm & Hname).
  apply lineAt_inv in Hl as (_ & s & Hs & ->).
  by exists s, p, m.
Qed.

Lemma symbol_needs_pattern_witness :
  exists s p m,
    ["a 1;"] !! Z.to_nat 0 = Some s /\
    isBlankOrComment (Js.trim s) = false /\
    p ∈ patterns /\ matchPattern (Js.trim s) p = Some m /\
    matchGroup m 1 = Ok "a".
Proof.
  apply (symbol_needs_pattern ["a 1;"] 0
           (lineSymbol 0 "a 1;" "a" "1" SymbolKind.Property)).
  reflexivity.
Defined.

(** ** The constructs of one line *)

(** X13. A line that reaches the key-value branch (none of the four
    patterns before it matches, the key-value pattern does) always creates
    a symbol on that line alone, named by the first group, with the second
    group, trimmed, as detail. The detail has no semicolon and no brace.
    The kind is Class for the names [class] and [object], Constant for
    [version] and [format], File for [location] and Property for every
    other name. *)
Theorem key_value_line (document : TextDocument) (i : Z) (line : TextLine.t)
    (m : Regex.captures) :
  lineAt document i = Ok line ->
  isBlankOrComment (Js.trim (TextLine.text line)) = false ->
  matchPattern (Js.trim (TextLine.text line)) EDGES_REGEX = None ->
  matchPattern (Js.trim (TextLine.text line)) NAMED_BLOCK_REGEX = None ->
  matchPattern (Js.trim (TextLine.text line)) LIST_REGEX = None ->
  matchPattern (Js.trim (TextLine.text line)) DICT_REGEX = None ->
  matchPattern (Js.trim (TextLine.text line)) KV_REGEX = Some m ->
  exists name raw,
    matchGroup m 1 = Ok name /\ matchGroup m 2 = Ok raw /\
    allChars valueChar (Js.trim raw) = true /\
    symbolOfLine document i
    = Ok (Some (lineSymbol i (TextLine.text line) name (Js.trim raw)
                  (if String.eqb name "class" || String.eqb name "object"
                   then SymbolKind.Class
                   else if String.eqb name "version"
                           || String.eqb name "format"
                   then SymbolKind.Constant
                   else if String.eqb name "location" then SymbolKind.File
                   else SymbolKind.Property))).
Proof.
  intros Hl Hsig HE HN HL HD HK.
  destruct (PatternFacts.KV_REGEX_groups _ _ HK) as (name & raw & H1 & _ & H2).
  exists name, raw. split; [exact H1|]. split; [exact H2|]. split.
  - apply CaptureFacts.allChars_trim. unfold matchGroup in H2.
    destruct (Regex.group 2 m) as [t|] eqn:Ht; [|discriminate].
    injection H2 as ->.
    apply (CaptureFacts.exec_captures (ignoreCase KV_REGEX) 2
             (source KV_REGEX) valueChar (Js.trim (TextLine.text line)) m);
      [vm_compute; reflexivity | exact HK | exact Ht].
  - unfold symbolOfLine. rewrite Hl. cbn [bind]. rewrite Hsig.
    apply lineAt_inv in Hl as (Hi & s & Hs & ->).
    by apply (classify_key_value document i s _ m).
Qed.

(** X14. A line that reaches the dictionary branch (none of the three
    patterns before it matches, the dictionary pattern does) always
    creates a Constant symbol on that line alone, named by the first
    group; its detail is the second group, trimmed and put back in
    brackets, and has no closing bracket inside. *)
Theorem dictionary_line (document : TextDocument) (i : Z) (line : TextLine.t)
    (m : Regex.captures) :
  lineAt document i = Ok line ->
  isBlankOrComment (Js.trim (TextLine.text line)) = false ->
  matchPattern (Js.trim (TextLine.text line)) EDGES_REGEX = None ->
  matchPattern (Js.trim (TextLine.text line)) NAMED_BLOCK_REGEX = None ->
  matchPattern (Js.trim (TextLine.text line)) LIST_REGEX = None ->
  matchPattern (Js.trim (TextLine.text line)) DICT_REGEX = Some m ->
  exists name units,
    matchGroup m 1 = Ok name /\ matchGroup m 2 = Ok units /\
    allChars (fun c => negb (Ascii.eqb c "]")) (Js.trim units) = true /\
    symbolOfLine document i
    = Ok (Some (lineSymbol i (TextLine.text line) name
                  ("[" ++ Js.trim units ++ "]") SymbolKind.Constant)).
Proof.
  intros Hl Hsig HE HN HL HD.
  destruct (PatternFacts.DICT_REGEX_groups _ _ HD)
    as (name & units & H1 & _ & H2).
  exists name, units. split; [exact H1|]. split; [exact H2|]. split.
  - apply CaptureFacts.allChars_trim. unfold matchGroup in H2.
    destruct (Regex.group 2 m) as [t|] eqn:Ht; [|discriminate].
    injection H2 as ->.
    apply (CaptureFacts.exec_captures (ignoreCase DICT_REGEX) 2
             (source DICT_REGEX)
             (fun c => negb (Ascii.eqb c "]"))
             (Js.trim (TextLine.text line)) m);
      [vm_compute; reflexivity | exact HD | exact Ht].
  - unfold symbolOfLine. rewrite Hl. cbn [bind]. rewrite Hsig.
    apply lineAt_inv in Hl as (Hi & s & Hs & ->).
    by apply (classify_dictionary document i s _ m).
Qed.

(** X15. A document in which every line is blank, a comment, or matched by
    none of the five patterns has an empty outline: the scan returns no
    root and creates no symbol. *)
Theorem empty_outline (document : TextDocument) :
  Forall (fun s =>
            isBlankOrComment (Js.trim s) = true \/
            Forall (fun p => matchPattern (Js.trim s) p = None) patterns)
         document ->
  provideDocumentSymbols document = Ok ([], []).
Proof.
  intros Hlines.
  destruct (provideDocumentSymbols_Invariant document)
    as (st & -> & Hwf & Hcreated & _).
  assert (createdBefore document (List.length document) = []) as Hnone.
  { destruct (createdBefore document (List.length document))
      as [|symbol rest] eqn:Hc; [reflexivity|].
    assert (symbol ∈ createdBefore document (List.length document)) as Hin
      by (rewrite Hc; left).
    apply createdBefore_elem in Hin as (k & _ & Hk).
    apply symbolOfLine_classify in Hk as (line & Hl & Hsig & Hk).
    destruct (classify_name document _ _ _ _ Hl Hk) as (p & m & Hp & Hm & _).
    apply lineAt_inv in Hl as (_ & s & Hs & ->). simpl in Hsig, Hm.
    apply list_elem_of_lookup_2 in Hs.
    destruct (proj1 (Forall_forall _ _) Hlines s Hs) as [Hblank|Hno].
    - congruence.
    - pose proof (proj1 (Forall_forall _ _) Hno p Hp). congruence. }
  rewrite Hnone in Hcreated. apply map_eq_nil in Hcreated.
  pose proof (wf_once st Hwf) as Honce. rewrite Hcreated in Honce |- *.
  simpl in Honce. apply Permutation_nil_r in Honce.
  unfold placements in Honce. apply app_eq_nil in Honce as [-> _].
  reflexivity.
Qed.

Lemma key_value_line_witness :
  exists name raw,
    matchGroup [(2%nat, "PCG"); (1%nat, "solver")] 1 = Ok name /\
    matchGroup [(2%nat, "PCG"); (1%nat, "solver")] 2 = Ok raw /\
    allChars valueChar (Js.trim raw) = true /\
    symbolOfLine ["  solver PCG;"] 0
    = Ok (Some (lineSymbol 0 "  solver PCG;" name (Js.trim raw)
                  (if String.eqb name "class" || String.eqb name "object"
                   then SymbolKind.Class
                   else if String.eqb name "version"
                           || String.eqb name "format"
                   then SymbolKind.Constant
                   else if String.eqb name "location" then SymbolKind.File
                   else SymbolKind.Property))).
Proof.
  apply (key_value_line ["  solver PCG;"] 0 _ _ eq_refl eq_refl eq_refl
           eq_refl eq_refl eq_refl eq_refl).
Defined.

Lemma dictionary_line_witness :
  exists name units,
    matchGroup [(2%nat, " 0 2 -1 "); (1%nat, "dimensions")] 1 = Ok name /\
    matchGroup [(2%nat, " 0 2 -1 "); (1%nat, "dimensions")] 2 = Ok units /\
    allChars (fun c => negb (Ascii.eqb c "]")) (Js.trim units) = true /\
    symbolOfLine ["dimensions [ 0 2 -1 ];"] 0
    = Ok (Some (lineSymbol 0 "dimensions [ 0 2 -1 ];" name
                  ("[" ++ Js.trim units ++ "]") SymbolKind.Constant)).
Proof.
  apply (dictionary_line ["dimensions [ 0 2 -1 ];"] 0 _ _ eq_refl eq_refl
           eq_refl eq_refl eq_refl eq_refl).
Defined.

Lemma empty_outline_witness :
  provideDocumentSymbols ["// mesh"; ""; "/* none */"; "0 1 2"; "(1 0 0)"]
  = Ok ([], []).
Proof.
  apply (empty_outline ["// mesh"; ""; "/* none */"; "0 1 2"; "(1 0 0)"]).
  repeat (apply Forall_cons; split;
          [first [ left; reflexivity
                 | right; repeat (apply Forall_cons; split; [reflexivity|]);
                   constructor ]|]).
  constructor.
Defined.

(** ** A span that closes before its block opens *)

Section EarlyClose.
Import CaptureFacts.

Lemma countChar_nonneg s c : 0 <= Js.countChar s c.
Proof.
  induction s as [|x s IH]; simpl; [lia|]. destruct (Ascii.eqb x c); lia.
Qed.

Lemma countChar_zero s c :
  Js.countChar s c = 0 -> allChars (fun x => negb (Ascii.eqb x c)) s = true.
Proof.
  induction s as [|x s IH]; simpl; [done|].
  pose proof (countChar_nonneg s c). destruct (Ascii.eqb x c); simpl; [lia|].
  intros H0. apply IH. lia.
Qed.

(** With no delimiter open, a line without the opener leaves the count
    at 0. *)
Lemma countAfter_free openChar closeChar s :
  Js.countChar s openChar = 0 -> Js.countChar s closeChar = 0 ->
  countAfter openChar closeChar 0 s = 0.
Proof.
  intros Ho Hc. unfold countAfter. rewrite Ho, Hc.
  pose proof (allChars_trim _ _ (countChar_zero s openChar Ho)) as Ht.
  destruct (Js.trim s) as [|x t]; [reflexivity|].
  simpl in Ht. apply andb_prop in Ht as [Hx _].
  apply negb_true_iff in Hx.
  assert (String.eqb (String x t) (String openChar "") = false) as ->.
  { simpl. by rewrite Hx. }
  assert (Js.startsWith (String x t) (String openChar "") = false) as ->.
  { unfold Js.startsWith. simpl.
    destruct (Ascii.ascii_dec openChar x) as [->|_]; [|reflexivity].
    by rewrite Ascii.eqb_refl in Hx. }
  reflexivity.
Qed.

Lemma findClosingBracket_free document (startLine : nat) openChar closeChar s :
  document !! startLine = Some s ->
  Js.countChar s openChar = 0 -> Js.countChar s closeChar = 0 ->
  findClosingBracket document (Z.of_nat startLine) openChar closeChar 0
  = Ok (Z.of_nat startLine).
Proof.
  intros Hs Ho Hc. unfold findClosingBracket.
  rewrite findClosingBracketFrom_firstZero
    by (rewrite length_skipn; unfold lineCount; lia).
  rewrite (drop_S _ _ _ Hs). cbn [openCounts firstZero].
  rewrite (countAfter_free _ _ _ Ho Hc). simpl. by rewrite Nat.add_0_r.
Qed.

(** The span of a symbol that opens a block with braces. *)
Lemma classify_brace_span document i line text symbol :
  lineAt document i = Ok line ->
  classify document i line text = Ok (Some symbol) ->
  DocumentSymbol.kind symbol = SymbolKind.Struct \/
  DocumentSymbol.kind symbol = SymbolKind.Interface \/
  DocumentSymbol.kind symbol = SymbolKind.Object ->
  exists e,
    findClosingBracket document (i + 1) "{" "}"
      (if Js.includes text "{" then 1 else 0) = Ok e /\
    spansLines document i e symbol.
Proof.
  intros Hl H Hkind. pose proof (lineAt_inv _ _ _ Hl) as (Hi & _).
  unfold classify in H.
  destruct (matchPattern text EDGES_REGEX) as [m|] eqn:HE.
  { destruct (matchGroup m 1) as [name|]; [|discriminate]. simpl in H.
    destruct (_ && _); [discriminate|].
    destruct (findClosingBracket_after document i "{" "}"
                (if Js.includes text "{" then 1 else 0) Hi) as (e & He & Hb).
    rewrite He in H. simpl in H.
    apply (blockSymbol_inv document i) in H as (_ & _ & _ & Hspan);
      [|done|lia].
    by exists e. }
  destruct (matchPattern text NAMED_BLOCK_REGEX) as [m|] eqn:HN.
  { destruct (matchGroup m 1) as [name|]; [|discriminate]. cbn [bind] in H.
    destruct (if negb (Js.includes text "{") then foundOpeningBrace document i
              else Ok true) as [[|]|]; cbn [bind negb] in H; [|discriminate..].
    destruct (findClosingBracket_after document i "{" "}"
                (if Js.includes text "{" then 1 else 0) Hi) as (e & He & Hb).
    rewrite He in H. cbn [bind] in H. fold reservedNames patchNames in H.
    exists e. split; [exact He|].
    destruct (Js.arrayIncludes reservedNames name);
      [|destruct (Js.arrayIncludes patchNames name)];
      apply (blockSymbol_inv document i) in H as (_ & _ & _ & Hspan);
      done || lia. }
  destruct (matchPattern text LIST_REGEX) as [m|] eqn:HL.
  { destruct (matchGroup m 1) as [name|]; [|discriminate]. simpl in H.
    destruct (findClosingBracket_after document i "(" ")" 1 Hi)
      as (e & He & Hb).
    rewrite He in H. simpl in H.
    apply (blockSymbol_inv document i) in H as (_ & _ & Hk & _); [|done|lia].
    rewrite Hk in Hkind. by destruct Hkind as [|[|]]. }
  destruct (String.eqb text "FoamFile") eqn:HF.
  { by apply FoamFile_is_named_block in HF. }
  destruct (matchPattern text DICT_REGEX) as [m|] eqn:HD.
  { destruct (matchGroup m 1) as [name|]; [|discriminate].
    destruct (matchGroup m 2) as [units|]; [|discriminate]. simpl in H.
    apply (lineSymbol_inv document i) in H as (_ & _ & Hk & _); [|done].
    rewrite Hk in Hkind. by destruct Hkind as [|[|]]. }
  destruct (matchPattern text KV_REGEX) as [m|] eqn:HK; [|discriminate].
  destruct (matchGroup m 1) as [name|]; [|discriminate].
  destruct (matchGroup m 2) as [raw|]; [|discriminate]. simpl in H.
  apply (lineSymbol_inv document i) in H as (_ & _ & Hk & _); [|done].
  rewrite Hk in Hkind.
  destruct (_ || _); [by destruct Hkind as [|[|]]|].
  destruct (_ || _); [by destruct Hkind as [|[|]]|].
  destruct (String.eqb name "location"); by destruct Hkind as [|[|]].
Qed.

End EarlyClose.

(** X16. When no delimiter is open, the block-span resolver stops at once
    on a line that has neither the opening nor the closing delimiter: it
    returns the line it starts from. *)
Theorem delimiter_free_line_closes_span (document : TextDocument)
    (startLine : nat) (openChar closeChar : ascii) (s : string) :
  document !! startLine = Some s ->
  Js.countChar s openChar = 0 -> Js.countChar s closeChar = 0 ->
  findClosingBracket document (Z.of_nat startLine) openChar closeChar 0
  = Ok (Z.of_nat startLine).
Proof. apply findClosingBracket_free. Qed.

Lemma delimiter_free_line_closes_span_witness :
  findClosingBracket ["boundary"; "("; "  inlet"; "  {"; "  }"; ")"] 1
    "{" "}" 0
  = Ok 1.
Proof.
  apply (delimiter_free_line_closes_span
           ["boundary"; "("; "  inlet"; "  {"; "  }"; ")"] 1 "{" "}" "(");
    reflexivity.
Defined.

(** X17. The span of a block whose brace is not on the name's line and not
    on the next line either stops short: when the line that follows the
    name has no brace at all (a blank line, a comment, the parenthesis that
    opens a list of patches), the range of the Struct, Interface or Object
    symbol ends with that line, whatever comes after it. *)
Theorem brace_on_later_line_cuts_span (document : TextDocument) (i : nat)
    (symbol : DocumentSymbol.t) (s next : string) :
  symbolOfLine document (Z.of_nat i) = Ok (Some symbol) ->
  DocumentSymbol.kind symbol = SymbolKind.Struct \/
  DocumentSymbol.kind symbol = SymbolKind.Interface \/
  DocumentSymbol.kind symbol = SymbolKind.Object ->
  document !! i = Some s -> Js.includes (Js.trim s) "{" = false ->
  document !! S i = Some next ->
  Js.countChar next "{" = 0 -> Js.countChar next "}" = 0 ->
  spansLines document (Z.of_nat i) (Z.of_nat i + 1) symbol.
Proof.
  intros Hsym Hkind Hs Hbrace Hnext Ho Hc.
  apply symbolOfLine_classify in Hsym as (line & Hl & _ & Hclass).
  destruct (classify_brace_span _ _ _ _ _ Hl Hclass Hkind) as (e & He & Hspan).
  rewrite (lineAt_lookup document i s Hs) in Hl. injection Hl as <-.
  simpl in He. rewrite Hbrace in He.
  replace (Z.of_nat i + 1) with (Z.of_nat (S i)) in He |- * by lia.
  rewrite (findClosingBracket_free document (S i) "{" "}" next Hnext Ho Hc)
    in He.
  by injection He as <-.
Qed.

Lemma brace_on_later_line_cuts_span_witness :
  spansLines ["inlet"; "// patch"; "{"; "  type patch;"; "}"] 0 (0 + 1)
    (DocumentSymbol.mk "inlet" "boundary" SymbolKind.Interface
       (Range.mk (Position.mk 0 0) (Position.mk 1 8))
       (TextLine.range (textLine 0 "inlet")) []).
Proof.
  apply (brace_on_later_line_cuts_span
           ["inlet"; "// patch"; "{"; "  type patch;"; "}"] 0 _
           "inlet" "// patch");
    first [reflexivity | right; left; reflexivity].
Defined.
